(** * gee-cache: LRU store, consistent-hash ring, single-flight, Group

    A shallow embedding of the Go packages [lru], [consistenthash],
    [singleflight] and [geecache], and the properties of the specification
    checked against them.

    Conventions.
    - Go's [int] and [int64] are 64-bit two's-complement integers, modelled
      as [Z] with the wrap-around written out ([wrap64]).
    - A Go [string] is a sequence of bytes, modelled as [string]; [len(s)]
      is [String.length s].
    - A call that does not return normally is an [outcome] other than
      [Ret]: [Panic] for a run-time panic, [Diverges] for a loop that never
      exits.
    - Goroutines are an interleaving of steps chosen by a scheduler; what
      runs between a [Lock()] and the matching [Unlock()] is one step.
    - The HTTP pool and the registry of groups are outside the properties
      stated here and are not embedded; a [PeerPicker] and a [PeerGetter] are
      any implementations of the interfaces. *)

From stdpp Require Import gmap strings list sorting.
From Stdlib Require Import ZArith Lia.
From Stdlib Require Ascii DecimalString.

Open Scope Z_scope.

(** ** Outcomes of a call *)

Inductive outcome (A : Type) : Type :=
| Ret (a : A)
| Panic
| Diverges.
Arguments Ret {A} a.
Arguments Panic {A}.
Arguments Diverges {A}.

Definition obind {A B : Type} (x : outcome A) (k : A → outcome B) : outcome B :=
  match x with
  | Ret a => k a
  | Panic => Panic
  | Diverges => Diverges
  end.

Notation "'do' x <- e ; k" := (obind e (fun x => k))
  (at level 10, x name, e at level 100, k at level 200).

(** ** 64-bit integers *)

Definition wrap64 (z : Z) : Z := (z + 2 ^ 63) `mod` 2 ^ 64 - 2 ^ 63.
Definition int64_add (a b : Z) : Z := wrap64 (a + b).
Definition int64_sub (a b : Z) : Z := wrap64 (a - b).

(** [len(s)] of a Go string, as an [int]. *)
Definition len (s : string) : Z := Z.of_nat (String.length s).

(** ** Package lru *)

Module lru.

(** [type Value interface { Len() int }] *)
Class Value (V : Type) := Len : V → Z.

(** A [*list.Element] is a pointer; the elements of one list are distinct
    objects. *)
Definition ptr := nat.

Section lru.
Context {V : Type} `{Value V}.

(** [type entry struct { key string; value Value }] *)
Record entry := Entry { key : string; value : V }.

(** [type Cache struct]. The doubly linked list [ll] is the sequence of its
    element pointers from [Front()] to [Back()]; [elems] is the memory that
    holds the [*entry] of each live element; [cache] is the Go map.
    [OnEvicted] records whether the callback is non-nil and [evicted] is the
    sequence of calls [OnEvicted(key, value)] made so far. *)
Record Cache := mkCache {
  maxBytes : Z;
  nbytes : Z;
  ll : list ptr;
  elems : gmap ptr entry;
  cache : gmap string ptr;
  OnEvicted : bool;
  evicted : list (string * V)
}.

(** [func New(maxBytes int64, onEvicted func(string, Value)) *Cache] *)
Definition New (maxBytes : Z) (onEvicted : bool) : Cache :=
  {| maxBytes := maxBytes; nbytes := 0; ll := []; elems := ∅; cache := ∅;
     OnEvicted := onEvicted; evicted := [] |}.

(** *** container/list on element pointers *)

(** [l.Remove(e)]: unlink the element [e]. *)
Fixpoint list_Remove (e : ptr) (l : list ptr) : list ptr :=
  match l with
  | [] => []
  | x :: l' => if decide (x = e) then l' else x :: list_Remove e l'
  end.

(** [l.MoveToFront(e)]: nothing happens when [e] is not an element of [l]. *)
Definition MoveToFront (e : ptr) (l : list ptr) : list ptr :=
  if decide (e ∈ l) then e :: list_Remove e l else l.

(** [l.PushFront(v)] allocates a new element. *)
Definition new_elem (c : Cache) : ptr := fresh (dom (elems c)).

(** [ele.Value.( *entry)]: dereferencing a pointer that is not live panics. *)
Definition deref (c : Cache) (ele : ptr) : outcome entry :=
  match elems c !! ele with
  | Some kv => Ret kv
  | None => Panic
  end.

(** [func (c *Cache) Get(key string) (value Value, ok bool)] *)
Definition Get (c : Cache) (k : string) : outcome (Cache * option V) :=
  match cache c !! k with
  | Some ele =>
      let c1 := mkCache (maxBytes c) (nbytes c) (MoveToFront ele (ll c))
                        (elems c) (cache c) (OnEvicted c) (evicted c) in
      do kv <- deref c1 ele;
      Ret (c1, Some (value kv))
  | None => Ret (c, None)
  end.

(** [func (c *Cache) RemoveOldest()] *)
Definition RemoveOldest (c : Cache) : outcome Cache :=
  match last (ll c) with
  | Some ele =>
      do kv <- deref c ele;
      Ret {| maxBytes := maxBytes c;
             nbytes := int64_sub (nbytes c) (int64_add (len (key kv)) (Len (value kv)));
             ll := list_Remove ele (ll c);
             elems := delete ele (elems c);
             cache := delete (key kv) (cache c);
             OnEvicted := OnEvicted c;
             evicted := if OnEvicted c then evicted c ++ [(key kv, value kv)]
                        else evicted c |}
  | None => Ret c
  end.

(** The first half of [Add]: the [if ele, ok := c.cache[key]; ok] statement.
    In the branch for a key that is present, [kv.value = value] is executed
    before [c.nbytes += int64(value.Len()) - int64(kv.value.Len())], so the
    second operand is read from the entry after the assignment. *)
Definition Add_store (c : Cache) (k : string) (v : V) : outcome Cache :=
  match cache c !! k with
  | Some ele =>
      let l1 := MoveToFront ele (ll c) in
      do kv <- deref c ele;
      let kv1 := Entry (key kv) v in
      Ret {| maxBytes := maxBytes c;
             nbytes := int64_add (nbytes c) (int64_sub (Len v) (Len (value kv1)));
             ll := l1;
             elems := <[ele := kv1]> (elems c);
             cache := cache c;
             OnEvicted := OnEvicted c;
             evicted := evicted c |}
  | None =>
      let ele := new_elem c in
      Ret {| maxBytes := maxBytes c;
             nbytes := int64_add (nbytes c) (int64_add (len k) (Len v));
             ll := ele :: ll c;
             elems := <[ele := Entry k v]> (elems c);
             cache := <[k := ele]> (cache c);
             OnEvicted := OnEvicted c;
             evicted := evicted c |}
  end.

(** The guard of the eviction loop:
    [c.maxBytes != 0 && c.maxBytes < c.nbytes]. *)
Definition over_budget (c : Cache) : bool :=
  negb (maxBytes c =? 0) && (maxBytes c <? nbytes c).

(** [for c.maxBytes != 0 && c.maxBytes < c.nbytes { c.RemoveOldest() }].
    The first argument is the number of elements on the list.  With the
    guard true and the list empty, [RemoveOldest] changes nothing and the
    loop never exits. *)
Fixpoint evict_loop (n : nat) (c : Cache) : outcome Cache :=
  if over_budget c then
    match n with
    | O => Diverges
    | S n' => do c' <- RemoveOldest c; evict_loop n' c'
    end
  else Ret c.

(** [func (c *Cache) Add(key string, value Value)] *)
Definition Add (c : Cache) (k : string) (v : V) : outcome Cache :=
  do c1 <- Add_store c k v;
  evict_loop (length (ll c1)) c1.

(** [func (c *Cache) Len() int] *)
Definition Cache_Len (c : Cache) : Z := Z.of_nat (length (ll c)).

(** *** Notions used to state the properties *)

(** [len(key) + value.Len()] of an entry, and the sum over the entries on
    the list. *)
Definition entry_bytes (kv : entry) : Z := len (key kv) + Len (value kv).

Definition stored_bytes (c : Cache) : Z :=
  foldr (fun e acc => from_option entry_bytes 0 (elems c !! e) + acc) 0 (ll c).

(** The representation invariant: the list holds distinct live elements,
    and the map sends a key to the element whose entry has that key. *)
Definition wf (c : Cache) : Prop :=
  NoDup (ll c) ∧
  (∀ e, e ∈ ll c ↔ is_Some (elems c !! e)) ∧
  (∀ k e, cache c !! k = Some e ↔ ∃ v, elems c !! e = Some (Entry k v)).

(** [n] calls of [RemoveOldest] in a row. *)
Fixpoint RemoveOldest_times (n : nat) (c : Cache) : outcome Cache :=
  match n with
  | O => Ret c
  | S n' => do c' <- RemoveOldest c; RemoveOldest_times n' c'
  end.

(** A sequence of calls of [Add]. *)
Fixpoint Add_all (c : Cache) (kvs : list (string * V)) : outcome Cache :=
  match kvs with
  | [] => Ret c
  | kv :: kvs' => do c' <- Add c kv.1 kv.2; Add_all c' kvs'
  end.

(** The pairs [(key, value)] held by the elements [l], in order, and the
    bytes they account for. *)
Definition entries_of (c : Cache) (l : list ptr) : list (string * V) :=
  omap (fun e => (fun kv => (key kv, value kv)) <$> elems c !! e) l.

Definition bytes_of (c : Cache) (l : list ptr) : Z :=
  foldr (fun e acc => from_option entry_bytes 0 (elems c !! e) + acc) 0 l.

(** The state [c'] is [c] with the elements [cold] taken off the back of
    the list, one at a time from the last: they are gone from the list, from
    the memory and from the map, the callback (when there is one) has been
    called for each in that order, and [nbytes] has gone down by their
    bytes. *)
Definition evicted_from (c : Cache) (cold : list ptr) (c' : Cache) : Prop :=
  ll c = ll c' ++ cold ∧
  (∀ e, elems c' !! e = if decide (e ∈ cold) then None else elems c !! e) ∧
  (∀ k, cache c' !! k = match cache c !! k with
                        | Some e => if decide (e ∈ cold) then None else Some e
                        | None => None
                        end) ∧
  evicted c' = evicted c ++ (if OnEvicted c then entries_of c (reverse cold) else []) ∧
  nbytes c' = wrap64 (nbytes c - bytes_of c cold) ∧
  maxBytes c' = maxBytes c ∧ OnEvicted c' = OnEvicted c.

(** The state [c1] is [c] after [k] has been given the value [v] in the
    element [e], at the front of the list: the other keys, the other elements
    and their order are as in [c]. *)
Definition stored_in (c : Cache) (k : string) (v : V) (e : ptr) (c1 : Cache) : Prop :=
  ll c1 = e :: filter (fun e' => e' ≠ e) (ll c) ∧
  elems c1 = <[e := Entry k v]> (elems c) ∧
  cache c1 = <[k := e]> (cache c) ∧
  match cache c !! k with
  | Some e0 => e = e0
  | None => elems c !! e = None
  end ∧
  evicted c1 = evicted c ∧ maxBytes c1 = maxBytes c ∧ OnEvicted c1 = OnEvicted c.

(** The accounting is exact: [nbytes] is the sum over the stored entries,
    below [2^63], and no entry has a negative size. *)
Definition accounted (c : Cache) : Prop :=
  nbytes c = stored_bytes c ∧ stored_bytes c < 2 ^ 63 ∧
  ∀ e kv, elems c !! e = Some kv → 0 ≤ entry_bytes kv.

End lru.
Arguments entry V : clear implicits.
Arguments Cache V : clear implicits.

End lru.

(** ** Package consistenthash *)

Module consistenthash.

(** [type Hash func(data []byte) uint32]; the result is converted with
    [int(...)], which on a 64-bit [int] keeps the value. *)
Definition Hash := string → Z.

(** [crc32.ChecksumIEEE], bit by bit: reflected polynomial [0xEDB88320],
    initial value and final complement [0xFFFFFFFF]. *)
Definition crc32_bit (crc : Z) : Z :=
  if Z.testbit crc 0 then Z.lxor (Z.shiftr crc 1) 0xEDB88320 else Z.shiftr crc 1.

Definition crc32_byte (crc : Z) (b : Ascii.ascii) : Z :=
  Nat.iter 8 crc32_bit (Z.lxor crc (Z.of_N (Ascii.N_of_ascii b))).

Fixpoint crc32_update (crc : Z) (data : string) : Z :=
  match data with
  | EmptyString => crc
  | String b rest => crc32_update (crc32_byte crc b) rest
  end.

Definition ChecksumIEEE : Hash :=
  fun data => Z.lxor (crc32_update 0xFFFFFFFF data) 0xFFFFFFFF.

(** [strconv.Itoa] *)
Definition Itoa (i : Z) : string := DecimalString.NilZero.string_of_int (Z.to_int i).

(** [type Map struct] *)
Record Map := mkMap {
  hash : Hash;
  replicas : Z;
  keys : list Z;
  hashMap : gmap Z string
}.

(** [func New(replicas int, fn Hash) *Map]; [None] is a nil [fn]. *)
Definition New (replicas : Z) (fn : option Hash) : Map :=
  {| hash := default ChecksumIEEE fn; replicas := replicas; keys := [];
     hashMap := ∅ |}.

(** [int(m.hash([]byte(strconv.Itoa(i) + key)))] *)
Definition vhash (m : Map) (i : Z) (key : string) : Z :=
  hash m (Itoa i +:+ key).

(** [sort.Ints] *)
Definition sort_Ints (a : list Z) : list Z := merge_sort Z.le a.

(** The loop of [sort.Search]:
    [for i < j { h := int(uint(i+j) >> 1); if !f(h) { i = h + 1 } else { j = h } }].
    The interval [j - i] shrinks at every turn, so [j - i] turns are enough. *)
Fixpoint Search_loop (turns : nat) (f : nat → bool) (i j : nat) : nat :=
  match turns with
  | O => i
  | S turns' =>
      if decide (i < j)%nat then
        let h := ((i + j) / 2)%nat in
        if f h then Search_loop turns' f i h
        else Search_loop turns' f (h + 1)%nat j
      else i
  end.

(** [sort.Search(n, f)] *)
Definition Search (n : nat) (f : nat → bool) : nat := Search_loop n f 0%nat n.

(** [sort.SearchInts(a, x)] is
    [sort.Search(len(a), func(i int) bool { return a[i] >= x })]; the
    indices passed to the closure are below [len(a)]. *)
Definition SearchInts (a : list Z) (x : Z) : nat :=
  Search (length a) (fun i => bool_decide (x ≤ (a !!! i : Z))).

(** One turn of the inner loop of [Add]. *)
Definition Add_replica (key : string) (m : Map) (i : Z) : Map :=
  let h := vhash m i key in
  {| hash := hash m; replicas := replicas m;
     keys := keys m ++ [h];
     hashMap := <[h := key]> (hashMap m) |}.

(** [for i := 0; i < m.replicas; i++ { ... }] for one node. *)
Definition Add_key (m : Map) (key : string) : Map :=
  foldl (Add_replica key) m (seqZ 0 (replicas m)).

(** [func (m *Map) Add(keys ...string)] *)
Definition Add (m : Map) (ks : list string) : Map :=
  let m1 := foldl Add_key m ks in
  {| hash := hash m1; replicas := replicas m1;
     keys := sort_Ints (keys m1);
     hashMap := hashMap m1 |}.

(** [func (m *Map) Get(key string) string] *)
Definition Get (m : Map) (key : string) : string :=
  if decide (length (keys m) = 0%nat) then ""
  else
    let h := hash m key in
    let idx := Search (length (keys m)) (fun i => bool_decide (h ≤ (keys m !!! i : Z))) in
    default "" (hashMap m !! (keys m !!! (idx mod length (keys m))%nat)).

(** One turn of the loop of [Remove].  The slice expression
    [m.keys[idx+1:]] panics when [idx+1 > len(m.keys)]. *)
Definition Remove_replica (key : string) (m : Map) (i : Z) : outcome Map :=
  let h := vhash m i key in
  let idx := SearchInts (keys m) h in
  if decide (idx + 1 ≤ length (keys m))%nat then
    Ret {| hash := hash m; replicas := replicas m;
           keys := take idx (keys m) ++ drop (idx + 1) (keys m);
           hashMap := delete h (hashMap m) |}
  else Panic.

(** The first [n] turns of the loop of [Remove]. *)
Definition Remove_turns (key : string) (m : Map) (turns : list Z) : outcome Map :=
  foldl (fun om i => do m' <- om; Remove_replica key m' i) (Ret m) turns.

(** [func (m *Map) Remove(key string)] *)
Definition Remove (m : Map) (key : string) : outcome Map :=
  Remove_turns key m (seqZ 0 (replicas m)).

(** *** Notions used to state the properties *)

(** [i] is the smallest index with [a[i] >= x], or [len(a)] when there is
    none. *)
Definition lower_bound (a : list Z) (x : Z) (i : nat) : Prop :=
  (i ≤ length a)%nat ∧
  (∀ j y, (j < i)%nat → a !! j = Some y → y < x) ∧
  (∀ y, a !! i = Some y → x ≤ y).

(** The map after the assignments [m.hashMap[h] = key], and after the
    calls [delete(m.hashMap, h)], for the hashes [hs] in order. *)
Definition inserts (key : string) (hm : gmap Z string) (hs : list Z) : gmap Z string :=
  foldl (fun hm h => <[h := key]> hm) hm hs.

Definition deletes (hm : gmap Z string) (hs : list Z) : gmap Z string :=
  foldl (fun hm h => delete h hm) hm hs.

(** The virtual hashes of a node, in the order of the loops of [Add] and
    [Remove]. *)
Definition vhashes (m : Map) (key : string) : list Z :=
  (fun i => vhash m i key) <$> seqZ 0 (replicas m).

End consistenthash.

(** ** Package singleflight *)

Module singleflight.

(** A [*call] and a goroutine are identified by numbers. *)
Definition call_id := nat.
Definition tid := nat.

Section singleflight.
Context {Val Err : Type}.

(** The pair [(interface{}, error)] returned by [fn] and by [Do]; [None] is
    nil. *)
Definition result : Type := option Val * option Err.

(** [type call struct { wg sync.WaitGroup; val interface{}; err error }];
    [wg] is the counter of the wait group. *)
Record call := mkCall { wg : Z; val : option Val; err : option Err }.

(** The program points of a goroutine running [Do(key, fn)], with the local
    variable [c] where it is set. *)
Inductive pc : Type :=
| AtLock (key : string)                 (* before the first [g.mu.Lock()] *)
| AtWait (key : string) (c : call_id)   (* at [c.wg.Wait()] *)
| AtWaitReturn (key : string) (c : call_id) (* at the first [return c.val, c.err] *)
| AtFn (key : string) (c : call_id)     (* before the call [fn()] *)
| InFn (key : string) (c : call_id)     (* [fn] is running *)
| AtDone (key : string) (c : call_id)   (* before [c.wg.Done()] *)
| AtDelete (key : string) (c : call_id) (* before the second [g.mu.Lock()] *)
| AtReturn (key : string) (c : call_id) (* at the last [return c.val, c.err] *)
| Returned (key : string) (c : call_id) (r : result).

(** [type Group struct { mu sync.Mutex; m map[string]*call }] together with
    the memory of the calls allocated so far, the goroutines inside [Do] (a
    goroutine stands for one call of [Do]), and the history of the completed
    executions of [fn]: goroutine, key, call and the pair [fn] returned.  The sections between [g.mu.Lock()] and
    [g.mu.Unlock()] contain no blocking operation and run as one step. *)
Record Group := mkGroup {
  m : option (gmap string call_id);
  calls : gmap call_id call;
  threads : gmap tid pc;
  history : list (tid * string * call_id * result)
}.

(** The zero [Group]: [m] is nil. *)
Definition zero : Group :=
  {| m := None; calls := ∅; threads := ∅; history := [] |}.

(** What the scheduler and the environment choose: which goroutine moves,
    a new call of [Do], and the pair a running [fn] returns. *)
Inductive action : Type :=
| CallDo (t : tid) (key : string)
| Move (t : tid)
| FnReturns (t : tid) (r : result).

(** [g.mu.Lock()] up to the matching [g.mu.Unlock()] at the head of [Do]:
    lines 22-41. *)
Definition enter (g : Group) (t : tid) (key : string) : Group :=
  let m1 := default ∅ (m g) in           (* if g.m == nil { g.m = make(...) } *)
  match m1 !! key with
  | Some c =>                             (* if c, ok := g.m[key]; ok *)
      {| m := Some m1; calls := calls g;
         threads := <[t := AtWait key c]> (threads g);
         history := history g |}
  | None =>
      let c := fresh (dom (calls g)) in   (* c := new(call) *)
      {| m := Some (<[key := c]> m1);     (* g.m[key] = c *)
         calls := <[c := mkCall 1 None None]> (calls g);   (* c.wg.Add(1) *)
         threads := <[t := AtFn key c]> (threads g);
         history := history g |}
  end.

Definition set_pc (g : Group) (t : tid) (p : pc) : Group :=
  {| m := m g; calls := calls g; threads := <[t := p]> (threads g);
     history := history g |}.

(** One step of goroutine [t] that is not the return of [fn]. *)
Definition move (g : Group) (t : tid) : option Group :=
  match threads g !! t with
  | Some (AtLock key) => Some (enter g t key)
  | Some (AtWait key c) =>
      (* [c.wg.Wait()] returns once the counter is zero *)
      match calls g !! c with
      | Some cl => if decide (wg cl = 0) then Some (set_pc g t (AtWaitReturn key c))
                   else None
      | None => None
      end
  | Some (AtWaitReturn key c) =>
      match calls g !! c with
      | Some cl => Some (set_pc g t (Returned key c (val cl, err cl)))
      | None => None
      end
  | Some (AtFn key c) => Some (set_pc g t (InFn key c))
  | Some (InFn key c) => None
  | Some (AtDone key c) =>
      (* c.wg.Done() *)
      Some {| m := m g;
              calls := alter (fun cl => mkCall (wg cl - 1) (val cl) (err cl)) c (calls g);
              threads := <[t := AtDelete key c]> (threads g);
              history := history g |}
  | Some (AtDelete key c) =>
      (* g.mu.Lock(); delete(g.m, key); g.mu.Unlock() *)
      Some {| m := delete key <$> m g;
              calls := calls g;
              threads := <[t := AtReturn key c]> (threads g);
              history := history g |}
  | Some (AtReturn key c) =>
      match calls g !! c with
      | Some cl => Some (set_pc g t (Returned key c (val cl, err cl)))
      | None => None
      end
  | Some (Returned _ _ _) => None
  | None => None
  end.

(** [c.val, c.err = fn()]: the running [fn] of goroutine [t] returns [r]. *)
Definition fn_returns (g : Group) (t : tid) (r : result) : option Group :=
  match threads g !! t with
  | Some (InFn key c) =>
      Some {| m := m g;
              calls := alter (fun cl => mkCall (wg cl) (fst r) (snd r)) c (calls g);
              threads := <[t := AtDone key c]> (threads g);
              history := history g ++ [(t, key, c, r)] |}
  | _ => None
  end.

Definition step (g : Group) (a : action) : option Group :=
  match a with
  | CallDo t key =>
      match threads g !! t with
      | None => Some (set_pc g t (AtLock key))
      | Some _ => None
      end
  | Move t => move g t
  | FnReturns t r => fn_returns g t r
  end.

(** The states the zero [Group] can reach. *)
Inductive reachable : Group → Prop :=
| reachable_zero : reachable zero
| reachable_step g a g' : reachable g → step g a = Some g' → reachable g'.

Fixpoint run (g : Group) (acts : list action) : option Group :=
  match acts with
  | [] => Some g
  | a :: acts' => match step g a with Some g' => run g' acts' | None => None end
  end.

(** *** Notions used to state the properties *)

(** The key and the call a goroutine works on, once [c] is set. *)
Definition pc_call (p : pc) : option (string * call_id) :=
  match p with
  | AtLock _ => None
  | AtWait k c | AtWaitReturn k c | AtFn k c | InFn k c | AtDone k c
  | AtDelete k c | AtReturn k c | Returned k c _ => Some (k, c)
  end.

(** The goroutine that installed a call owns it until it has deleted the
    map entry. *)
Definition owner_phase (p : pc) : bool :=
  match p with
  | AtFn _ _ | InFn _ _ | AtDone _ _ | AtDelete _ _ => true
  | _ => false
  end.

Definition owns (p : pc) (key : string) (c : call_id) : Prop :=
  pc_call p = Some (key, c) ∧ owner_phase p = true.

(** The owner has not got the result of [fn] yet, or has it. *)
Definition before_result (p : pc) : bool :=
  match p with AtFn _ _ | InFn _ _ => true | _ => false end.

Definition after_result (p : pc) : bool :=
  match p with
  | AtDone _ _ | AtDelete _ _ | AtReturn _ _ | AtWaitReturn _ _ => true
  | _ => false
  end.

(** The map has no entry for [key]. *)
Definition not_in_flight (g : Group) (key : string) : Prop :=
  ∀ mp, m g = Some mp → mp !! key = None.

(** [fn] has been executed for the call [c]. *)
Definition executed (g : Group) (c : call_id) : Prop :=
  ∃ t k r, (t, k, c, r) ∈ history g.

(** The invariant of the reachable states.  [kf] gives the key each call
    was created for. *)
Record inv (kf : gmap call_id string) (g : Group) : Prop := {
  inv_dom : ∀ c, is_Some (kf !! c) ↔ is_Some (calls g !! c);
  inv_pc : ∀ t p k c, threads g !! t = Some p → pc_call p = Some (k, c) →
                      kf !! c = Some k;
  inv_map : ∀ mp k c, m g = Some mp → mp !! k = Some c → kf !! c = Some k;
  inv_owner_map : ∀ t p k c, threads g !! t = Some p → owns p k c →
                             ∃ mp, m g = Some mp ∧ mp !! k = Some c;
  inv_owner_unique : ∀ t1 t2 p1 p2 k1 k2 c,
      threads g !! t1 = Some p1 → threads g !! t2 = Some p2 →
      owns p1 k1 c → owns p2 k2 c → t1 = t2;
  inv_history : ∀ t k c r, (t, k, c, r) ∈ history g →
      kf !! c = Some k ∧
      (∃ cl, calls g !! c = Some cl ∧ (val cl, err cl) = r) ∧
      (∀ t' p' k', threads g !! t' = Some p' → pc_call p' = Some (k', c) →
                   before_result p' = false);
  inv_history_unique : ∀ t1 k1 r1 t2 k2 r2 c,
      (t1, k1, c, r1) ∈ history g → (t2, k2, c, r2) ∈ history g →
      t1 = t2 ∧ k1 = k2 ∧ r1 = r2;
  inv_wg : ∀ c cl, calls g !! c = Some cl → wg cl = 0 → executed g c;
  inv_after : ∀ t p k c, threads g !! t = Some p → pc_call p = Some (k, c) →
                         after_result p = true → executed g c;
  inv_returned : ∀ t k c r, threads g !! t = Some (Returned k c r) →
                            ∃ t0, (t0, k, c, r) ∈ history g
}.

(** The owner has not called [c.wg.Done()] yet. *)
Definition before_done (p : pc) : bool :=
  match p with AtFn _ _ | InFn _ _ | AtDone _ _ => true | _ => false end.

(** The number of steps a goroutine has left before it has returned. *)
Definition steps_left (p : pc) : nat :=
  match p with
  | AtLock _ => 6
  | AtFn _ _ => 5
  | InFn _ _ => 4
  | AtDone _ _ => 3
  | AtDelete _ _ => 2
  | AtReturn _ _ => 1
  | AtWait _ _ => 2
  | AtWaitReturn _ _ => 1
  | Returned _ _ _ => 0
  end%nat.

(** The goroutine that takes the step. *)
Definition action_tid (a : action) : tid :=
  match a with CallDo t _ | Move t | FnReturns t _ => t end.

(** The invariant of the wait groups: the counter of a call is 1 from
    [c.wg.Add(1)] to [c.wg.Done()] and 0 afterwards. *)
Record wg_inv (g : Group) : Prop := {
  wg_range : ∀ c cl, calls g !! c = Some cl → wg cl = 0 ∨ wg cl = 1;
  wg_alloc : ∀ t p k c, threads g !! t = Some p → pc_call p = Some (k, c) →
                        is_Some (calls g !! c);
  wg_owner : ∀ t p k c cl, threads g !! t = Some p → pc_call p = Some (k, c) →
                           before_done p = true → calls g !! c = Some cl →
                           wg cl = 1;
  wg_live : ∀ c cl, calls g !! c = Some cl → wg cl = 1 →
                    ∃ t p k, threads g !! t = Some p ∧ pc_call p = Some (k, c) ∧
                             before_done p = true
}.

End singleflight.
Arguments Group : clear implicits.
Arguments action : clear implicits.
Arguments call : clear implicits.
Arguments pc : clear implicits.

End singleflight.

(** ** Package geecache *)

Module geecache.

(** *** byteview.go *)

(** [type ByteView struct { b []byte }] *)
Record ByteView := mkByteView { b : list Byte.byte }.

(** [func (v ByteView) Len() int] *)
#[global] Instance ByteView_Len : lru.Value ByteView :=
  fun v => Z.of_nat (length (b v)).

(** [func cloneBytes(b []byte) []byte]: a copy with the same contents. *)
Definition cloneBytes (b : list Byte.byte) : list Byte.byte := b.

(** [func (v ByteView) ByteSlice() []byte] *)
Definition ByteSlice (v : ByteView) : list Byte.byte := cloneBytes (b v).

(** [func (v ByteView) String() string] *)
Definition ByteView_String (v : ByteView) : string :=
  String.string_of_list_byte (b v).

(** *** cache.go *)

(** [type cache struct { mu sync.Mutex; lru *lru.Cache; cacheBytes int64 }];
    [None] is a nil [lru].  Both methods hold [mu] from entry to exit. *)
Record cache := mkcache {
  lru : option (lru.Cache ByteView);
  cacheBytes : Z
}.

(** [func (c *cache) add(key string, value ByteView)] *)
Definition cache_add (c : cache) (key : string) (value : ByteView) : outcome cache :=
  let l := match lru c with
           | None => lru.New (cacheBytes c) false   (* lru.New(c.cacheBytes, nil) *)
           | Some l => l
           end in
  do l' <- lru.Add l key value;
  Ret {| lru := Some l'; cacheBytes := cacheBytes c |}.

(** [func (c *cache) get(key string) (value ByteView, ok bool)] *)
Definition cache_get (c : cache) (key : string) : outcome (cache * option ByteView) :=
  match lru c with
  | None => Ret (c, None)
  | Some l =>
      do r <- lru.Get l key;
      Ret ({| lru := Some (fst r); cacheBytes := cacheBytes c |}, snd r)
  end.

(** *** geecache.go *)

(** A Go [error] value. *)
Inductive error := Errorf (msg : string).

(** [type Getter interface { Get(key string) ([]byte, error) }] *)
Record Getter := mkGetter {
  Getter_Get : string → list Byte.byte * option error
}.

(** The peer interface as [geecache.go] calls it:
    [bytes, err := peer.Get(g.name, key)]. *)
Record PeerGetter := mkPeerGetter {
  PeerGetter_Get : string → string → list Byte.byte * option error
}.

(** [type PeerPicker interface { PickPeer(key string) (peer PeerGetter, ok bool) }] *)
Record PeerPicker := mkPeerPicker {
  PickPeer : string → option PeerGetter
}.

(** [type Group struct]; [None] is a nil [peers]. *)
Record Group := mkGroup {
  name : string;
  getter : Getter;
  mainCache : cache;
  peers : option PeerPicker
}.

Definition with_mainCache (g : Group) (mc : cache) : Group :=
  {| name := name g; getter := getter g; mainCache := mc; peers := peers g |}.

(** What a call does to its collaborators, in order. *)
Inductive event :=
| EvCacheGet (key : string)                  (* g.mainCache.get(key) *)
| EvCacheAdd (key : string) (v : ByteView)   (* g.mainCache.add(key, value) *)
| EvPickPeer (key : string)                  (* g.peers.PickPeer(key) *)
| EvPeerGet (group key : string)             (* peer.Get(g.name, key) *)
| EvGetterGet (key : string)                 (* g.getter.Get(key) *)
| EvLog (msg : string) (err : option error). (* log.Println(...) *)

(** The pair [(ByteView, error)] a method returns, the group after the call
    and the events of the call. *)
Definition answer : Type := Group * (ByteView * option error) * list event.

(** [func NewGroup(name string, cacheBytes int64, getter Getter) *Group];
    [None] is a nil [getter].  The registry [groups] is not modelled. *)
Definition NewGroup (name : string) (cacheBytes : Z) (getter : option Getter)
  : outcome Group :=
  match getter with
  | None => Panic
  | Some gt =>
      Ret {| name := name; getter := gt;
             mainCache := {| lru := None; cacheBytes := cacheBytes |};
             peers := None |}
  end.

(** [func (g *Group) RegisterPeers(peers PeerPicker)] *)
Definition RegisterPeers (g : Group) (p : PeerPicker) : outcome Group :=
  match peers g with
  | Some _ => Panic
  | None => Ret {| name := name g; getter := getter g;
                   mainCache := mainCache g; peers := Some p |}
  end.

(** [func (g *Group) populateCache(key string, value ByteView)] *)
Definition populateCache (g : Group) (key : string) (value : ByteView)
  : outcome (Group * list event) :=
  do mc <- cache_add (mainCache g) key value;
  Ret (with_mainCache g mc, [EvCacheAdd key value]).

(** [func (g *Group) getLocally(key string) (ByteView, error)] *)
Definition getLocally (g : Group) (key : string) : outcome answer :=
  let '(bytes, err) := Getter_Get (getter g) key in
  match err with
  | Some e => Ret (g, (mkByteView [], Some e), [EvGetterGet key])
  | None =>
      let value := mkByteView (cloneBytes bytes) in
      do p <- populateCache g key value;
      Ret (fst p, (value, None), EvGetterGet key :: snd p)
  end.

(** [func (g *Group) getFromPeer(peer PeerGetter, key string) (ByteView, error)] *)
Definition getFromPeer (g : Group) (peer : PeerGetter) (key : string)
  : ByteView * option error :=
  let '(bytes, err) := PeerGetter_Get peer (name g) key in
  match err with
  | Some e => (mkByteView [], Some e)
  | None => (mkByteView bytes, None)
  end.

(** [func (g *Group) load(key string) (value ByteView, err error)] *)
Definition load (g : Group) (key : string) : outcome answer :=
  match peers g with
  | Some p =>
      match PickPeer p key with
      | Some peer =>
          match getFromPeer g peer key with
          | (value, None) =>
              Ret (g, (value, None), [EvPickPeer key; EvPeerGet (name g) key])
          | (_, Some e) =>
              do a <- getLocally g key;
              let '(g', r, tr) := a in
              Ret (g', r,
                   [EvPickPeer key; EvPeerGet (name g) key;
                    EvLog "[GeeCache] Failed to get from peer" (Some e)] ++ tr)
          end
      | None =>
          do a <- getLocally g key;
          let '(g', r, tr) := a in
          Ret (g', r, EvPickPeer key :: tr)
      end
  | None => getLocally g key
  end.

(** [func (g *Group) Get(key string) (ByteView, error)] *)
Definition Get (g : Group) (key : string) : outcome answer :=
  if decide (key = "") then
    Ret (g, (mkByteView [], Some (Errorf "key is required")), [])
  else
    do r <- cache_get (mainCache g) key;
    let g1 := with_mainCache g (fst r) in
    match snd r with
    | Some v => Ret (g1, (v, None), [EvCacheGet key; EvLog "[GeeCache] hit" None])
    | None =>
        do a <- load g1 key;
        let '(g', res, tr) := a in
        Ret (g', res, EvCacheGet key :: tr)
    end.

(** *** Concurrent callers of [Group.Get]

    Goroutines inside [g.Get(key)].  A call of [mainCache.get] or
    [mainCache.add] holds the mutex of the cache and is one step; the calls
    of the peer and of the getter hold no lock of the group and take two
    steps, the call and the return. *)

Inductive gpc : Type :=
| GAtGet (key : string)               (* at the entry of [Get] *)
| GAtLoad (key : string)              (* at [g.load(key)]: the lookup missed *)
| GInPeerGet (key : string) (peer : PeerGetter)  (* [peer.Get] is running *)
| GAtGetLocally (key : string)        (* at [g.getLocally(key)] *)
| GInGetter (key : string)            (* [g.getter.Get] is running *)
| GAtPopulate (key : string) (value : ByteView) (* at [g.populateCache] *)
| GReturned (r : ByteView * option error).

Record system := mkSystem {
  group : Group;
  goroutines : gmap nat gpc
}.

Inductive gaction : Type :=
| GCall (t : nat) (key : string)      (* a new goroutine calls [g.Get(key)] *)
| GMove (t : nat).                    (* goroutine [t] takes its next step *)

Definition set_gpc (s : system) (t : nat) (p : gpc) : system :=
  {| group := group s; goroutines := <[t := p]> (goroutines s) |}.

Definition gmove (s : system) (t : nat) : option system :=
  let g := group s in
  match goroutines s !! t with
  | Some (GAtGet key) =>
      if decide (key = "") then
        Some (set_gpc s t (GReturned (mkByteView [], Some (Errorf "key is required"))))
      else
        match cache_get (mainCache g) key with
        | Ret (mc, Some v) =>
            Some {| group := with_mainCache g mc;
                    goroutines := <[t := GReturned (v, None)]> (goroutines s) |}
        | Ret (mc, None) =>
            Some {| group := with_mainCache g mc;
                    goroutines := <[t := GAtLoad key]> (goroutines s) |}
        | _ => None
        end
  | Some (GAtLoad key) =>
      match peers g with
      | Some p =>
          match PickPeer p key with
          | Some peer => Some (set_gpc s t (GInPeerGet key peer))
          | None => Some (set_gpc s t (GAtGetLocally key))
          end
      | None => Some (set_gpc s t (GAtGetLocally key))
      end
  | Some (GInPeerGet key peer) =>
      match getFromPeer g peer key with
      | (value, None) => Some (set_gpc s t (GReturned (value, None)))
      | (_, Some _) => Some (set_gpc s t (GAtGetLocally key))
      end
  | Some (GAtGetLocally key) => Some (set_gpc s t (GInGetter key))
  | Some (GInGetter key) =>
      let '(bytes, err) := Getter_Get (getter g) key in
      match err with
      | Some e => Some (set_gpc s t (GReturned (mkByteView [], Some e)))
      | None => Some (set_gpc s t (GAtPopulate key (mkByteView (cloneBytes bytes))))
      end
  | Some (GAtPopulate key value) =>
      match cache_add (mainCache g) key value with
      | Ret mc =>
          Some {| group := with_mainCache g mc;
                  goroutines := <[t := GReturned (value, None)]> (goroutines s) |}
      | _ => None
      end
  | Some (GReturned _) => None
  | None => None
  end.

Definition gstep (s : system) (a : gaction) : option system :=
  match a with
  | GCall t key =>
      match goroutines s !! t with
      | None => Some (set_gpc s t (GAtGet key))
      | Some _ => None
      end
  | GMove t => gmove s t
  end.

Fixpoint grun (s : system) (acts : list gaction) : option system :=
  match acts with
  | [] => Some s
  | a :: acts' => match gstep s a with Some s' => grun s' acts' | None => None end
  end.

(** A group with no goroutine inside [Get]. *)
Definition idle (g : Group) : system := {| group := g; goroutines := ∅ |}.

(** The load of [key] is in progress in a goroutine: it is inside
    [g.load(key)], waiting for the peer or for the getter. *)
Definition loading (key : string) (p : gpc) : Prop :=
  p = GInGetter key ∨ ∃ peer, p = GInPeerGet key peer.

(** *** Notions used to state the properties *)

(** The peer call of [load]: [None] when no peer is asked (no picker, or
    the picker answers [ok = false]), else what [peer.Get] returns. *)
Definition peer_fetch (g : Group) (key : string)
  : option (list Byte.byte * option error) :=
  match peers g with
  | Some p =>
      match PickPeer p key with
      | Some peer => Some (PeerGetter_Get peer (name g) key)
      | None => None
      end
  | None => None
  end.

Definition is_CacheAdd (e : event) : Prop :=
  match e with EvCacheAdd _ _ => True | _ => False end.

(** Loads coalesced per key, in the words of the specification: at most one
    load of a key is in progress at any time. *)
Definition one_load_per_key (s : system) : Prop :=
  ∀ key t1 t2 p1 p2,
    goroutines s !! t1 = Some p1 → goroutines s !! t2 = Some p2 →
    loading key p1 → loading key p2 → t1 = t2.

(** The schedule in which goroutine [t] calls [Get(key)] and runs up to the
    call of the peer, or of the getter when no peer is asked. *)
Definition to_load (g : Group) (key : string) (t : nat) : list gaction :=
  match peers g with
  | Some p =>
      match PickPeer p key with
      | Some _ => [GCall t key; GMove t; GMove t]
      | None => [GCall t key; GMove t; GMove t; GMove t]
      end
  | None => [GCall t key; GMove t; GMove t; GMove t]
  end.

(** The goroutines [0 .. n-1] do so one after the other. *)
Fixpoint all_to_load (g : Group) (key : string) (n : nat) : list gaction :=
  match n with
  | O => []
  | S n' => all_to_load g key n' ++ to_load g key n'
  end.

(** The LRU store [add] works on: the one of the cache, or the one [add]
    creates when there is none yet. *)
Definition cache_lru (c : cache) : lru.Cache ByteView :=
  match lru c with
  | None => lru.New (cacheBytes c) false
  | Some l => l
  end.

(** The store of the cache is well formed and has the budget of the cache,
    and its accounting is exact. *)
Definition cache_wf (c : cache) : Prop :=
  lru.wf (cache_lru c) ∧ lru.maxBytes (cache_lru c) = cacheBytes c.

Definition cache_accounted (c : cache) : Prop := lru.accounted (cache_lru c).

End geecache.

(** ** Concrete states used below *)

Module examples.
Import geecache.

(** A [ByteView] over the bytes of a string. *)
Definition bv (s : string) : ByteView := mkByteView (String.list_byte_of_string s).

(** The state an [outcome] carries, or [d]. *)
Definition ret_or {A : Type} (d : A) (x : outcome A) : A :=
  match x with Ret a => a | _ => d end.

(** [lru.New(10, nil)] after [Add("k1", "v1")] and [Add("k2", "v2")]. *)
Definition lru_k1_k2 : lru.Cache ByteView :=
  ret_or (lru.New 10 false)
         (lru.Add_all (lru.New 10 false) [("k1", bv "v1"); ("k2", bv "v2")]).





(** [lru.New(0, nil)] after [Add("k", "a")], and after [Add("k", "abc")]
    on top of it. *)
Definition lru_k_a : lru.Cache ByteView :=
  ret_or (lru.New 0 false) (lru.Add (lru.New 0 false) "k" (bv "a")).

Definition lru_k_abc : lru.Cache ByteView :=
  ret_or lru_k_a (lru.Add lru_k_a "k" (bv "abc")).

(** The hash of the package's test: the decimal number the bytes spell. *)
Definition atoi : consistenthash.Hash :=
  fun s => match DecimalString.NilZero.int_of_string s with
           | Some d => Z.of_int d
           | None => 0
           end.

(** [consistenthash.New(3, atoi)] after [Add("6", "4", "2")]: the hashes are
    2, 4, 6, 12, 14, 16, 22, 24, 26. *)
Definition ring_642 : consistenthash.Map :=
  consistenthash.Add (consistenthash.New 3 (Some atoi)) ["6"; "4"; "2"].

(** A group over a getter that answers every key with the bytes of "v",
    without peers. *)
Definition group_v : Group :=
  {| name := "scores";
     getter := mkGetter (fun _ => (String.list_byte_of_string "v", None));
     mainCache := {| lru := None; cacheBytes := 2048 |};
     peers := None |}.

(** The same group with a picker that sends every key to a peer answering
    with the bytes of "p". *)
Definition peer_p : PeerGetter :=
  mkPeerGetter (fun _ _ => (String.list_byte_of_string "p", None)).

Definition group_with_peer : Group :=
  {| name := "scores"; getter := getter group_v;
     mainCache := mainCache group_v;
     peers := Some (mkPeerPicker (fun _ => Some peer_p)) |}.

(** [consistenthash.New(1, nil)] after [Add("a")], with the default hash,
    and the same ring after [Add("a")] and [Remove("a")]. *)
Definition ring_a : consistenthash.Map :=
  consistenthash.Add (consistenthash.New 1 None) ["a"].

Definition ring_a_again : consistenthash.Map :=
  ret_or ring_a (consistenthash.Remove (consistenthash.Add ring_a ["a"]) "a").

(** The ring of 6, 4 and 2 after [Remove("1")], a node that is not on it. *)
Definition ring_642_less_1 : consistenthash.Map :=
  ret_or ring_642 (consistenthash.Remove ring_642 "1").

(** [consistenthash.New(2, atoi)] after [Add("5")] and [Add("5")] again: the
    hashes 5 and 15 are on the ring twice.  Then the same ring after
    [Remove("x")], whose two hashes are 0, and after [Remove("5")] on top of
    that. *)
Definition ring_5_5 : consistenthash.Map :=
  consistenthash.Add (consistenthash.Add (consistenthash.New 2 (Some atoi)) ["5"]) ["5"].

Definition ring_15_15 : consistenthash.Map :=
  ret_or ring_5_5 (consistenthash.Remove ring_5_5 "x").

Definition ring_15_15_less_5 : consistenthash.Map :=
  ret_or ring_15_15 (consistenthash.Remove ring_15_15 "5").

(** [group_v] after a call of [Get("k")], and after a call of [Get("j")]
    on top of it. *)
Definition group_v_got_k : Group :=
  ret_or group_v
    (do a <- geecache.Get group_v "k"; Ret (fst (fst a))).

Definition group_v_got_k_j : Group :=
  ret_or group_v_got_k
    (do a <- geecache.Get group_v_got_k "j"; Ret (fst (fst a))).

(** The group of [NewGroup("scores", 1, ...)] over the same getter: the
    budget of one byte is less than the two bytes of the entry of "k" and
    "v".  The same group after a call of [Get("k")]. *)
Definition group_tiny : Group :=
  {| name := "scores"; getter := getter group_v;
     mainCache := {| lru := None; cacheBytes := 1 |};
     peers := None |}.

Definition group_tiny_got_k : Group :=
  ret_or group_tiny
    (do a <- geecache.Get group_tiny "k"; Ret (fst (fst a))).

(** The group of [NewGroup("scores", -1, ...)]. *)
Definition group_neg : Group :=
  {| name := "scores"; getter := getter group_v;
     mainCache := {| lru := None; cacheBytes := -1 |};
     peers := None |}.

(** A run of the single-flight group over string values and errors.
    Goroutine 0 calls [Do("k", fn)] and starts [fn]; goroutine 1 calls
    [Do("k", ...)] meanwhile and waits; [fn] returns [("v", nil)]; both
    return; then goroutine 2 calls [Do("k", ...)] and starts its own [fn]. *)
Definition flight_schedule : list (singleflight.action string string) :=
  [singleflight.CallDo 0%nat "k"; singleflight.Move 0%nat; singleflight.Move 0%nat;
   singleflight.CallDo 1%nat "k"; singleflight.Move 1%nat;
   singleflight.FnReturns 0%nat (Some "v", None);
   singleflight.Move 0%nat; singleflight.Move 1%nat; singleflight.Move 1%nat;
   singleflight.Move 0%nat; singleflight.Move 0%nat;
   singleflight.CallDo 2%nat "k"; singleflight.Move 2%nat; singleflight.Move 2%nat].

Definition flight_end : singleflight.Group string string :=
  default singleflight.zero (singleflight.run singleflight.zero flight_schedule).

(** The same run goes on: goroutine 3 calls [Do("k", ...)] while the [fn]
    of goroutine 2 is running and waits on the call 1; that [fn] returns
    [(nil, "e")] and goroutine 2 calls [c.wg.Done()]. *)
Definition flight_schedule_wait : list (singleflight.action string string) :=
  [singleflight.CallDo 3%nat "k"; singleflight.Move 3%nat].

Definition flight_schedule_done : list (singleflight.action string string) :=
  [singleflight.FnReturns 2%nat (None, Some "e"); singleflight.Move 2%nat].

Definition flight_wait : singleflight.Group string string :=
  default singleflight.zero
    (singleflight.run singleflight.zero (flight_schedule ++ flight_schedule_wait)).

Definition flight_done : singleflight.Group string string :=
  default singleflight.zero
    (singleflight.run singleflight.zero
       (flight_schedule ++ flight_schedule_wait ++ flight_schedule_done)).

(** Two goroutines call [Get("k")] on [group_v] and run up to the getter. *)
Definition two_callers : system :=
  default (idle group_v)
    (grun (idle group_v)
       [GCall 0 "k"; GMove 0; GMove 0; GMove 0;
        GCall 1 "k"; GMove 1; GMove 1; GMove 1]).

End examples.

(** * Properties *)

(** ** The LRU store *)

Section lru_properties.
Context {V : Type} `{lru.Value V}.
Implicit Types (c : lru.Cache V) (l : list lru.ptr) (e : lru.ptr).

Lemma list_Remove_perm e l : e ∈ l → l ≡ₚ e :: lru.list_Remove e l.
Proof.
  induction l as [|x l IH]; simpl; [by intros ?%elem_of_nil|].
  intros Hin. destruct (decide (x = e)) as [->|Hne]; [done|].
  apply elem_of_cons in Hin as [->|Hin]; [done|].
  rewrite (IH Hin) at 1. apply Permutation_swap.
Qed.

Lemma MoveToFront_perm e l : lru.MoveToFront e l ≡ₚ l.
Proof.
  unfold lru.MoveToFront. destruct (decide (e ∈ l)); [|done].
  symmetry. by apply list_Remove_perm.
Qed.

Lemma MoveToFront_length e l : length (lru.MoveToFront e l) = length l.
Proof. by rewrite MoveToFront_perm. Qed.

Lemma last_elem_of l e : last l = Some e → e ∈ l.
Proof. apply last_Some_elem_of. Qed.


Lemma list_Remove_elem_of e x l :
  NoDup l → x ∈ lru.list_Remove e l ↔ x ∈ l ∧ x ≠ e.
Proof.
  intros Hnd. destruct (decide (e ∈ l)) as [Hin|Hnin].
  - pose proof (list_Remove_perm e l Hin) as Hp.
    rewrite Hp in Hnd. apply NoDup_cons in Hnd as [Hne _].
    rewrite Hp at 2. rewrite elem_of_cons. split.
    + intros Hx. split; [by right|]. intros ->. done.
    + intros [[->|Hx] Hxe]; done.
  - assert (lru.list_Remove e l = l) as ->.
    { clear Hnd. induction l as [|y l IH]; simpl; [done|].
      apply not_elem_of_cons in Hnin as [Hey Hnin].
      destruct (decide (y = e)); [congruence|]. by rewrite IH. }
    split; [|by intros [? _]]. intros Hx. split; [done|]. by intros ->.
Qed.

Lemma list_Remove_NoDup e l : NoDup l → NoDup (lru.list_Remove e l).
Proof.
  intros Hnd. destruct (decide (e ∈ l)) as [Hin|Hnin].
  - rewrite (list_Remove_perm e l Hin) in Hnd. by apply NoDup_cons in Hnd as [_ ?].
  - assert (lru.list_Remove e l = l) as ->; [|done].
    clear Hnd. induction l as [|y l IH]; simpl; [done|].
    apply not_elem_of_cons in Hnin as [Hey Hnin].
    destruct (decide (y = e)); [congruence|]. by rewrite IH.
Qed.

(** *** The representation invariant holds in every state the operations
    build. *)

Lemma wf_New maxBytes onEvicted : lru.wf (lru.New (V:=V) maxBytes onEvicted).
Proof.
  split; [constructor|]. split; simpl.
  - intros e. rewrite lookup_empty. split; [by intros ?%elem_of_nil|by intros [? ?]].
  - intros k e. rewrite lookup_empty. split; [done|]. by intros [v Hv].
Qed.

Lemma wf_deref c k e :
  lru.wf c → lru.cache c !! k = Some e →
  ∃ v, lru.elems c !! e = Some (lru.Entry k v) ∧ e ∈ lru.ll c.
Proof.
  intros (Hnd & Hlive & Hmap) Hk. apply Hmap in Hk as [v Hv].
  exists v. split; [done|]. apply Hlive. by eexists.
Qed.

Lemma wf_Get c k :
  lru.wf c → ∃ c' r, lru.Get c k = Ret (c', r) ∧ lru.wf c'.
Proof.
  intros Hwf. unfold lru.Get. destruct (lru.cache c !! k) as [e|] eqn:Hk.
  - destruct (wf_deref c k e Hwf Hk) as (v & Hv & Hin).
    unfold lru.deref; simpl. rewrite Hv. simpl. eexists _, _. split; [done|].
    destruct Hwf as (Hnd & Hlive & Hmap). split; [|split]; simpl.
    + by rewrite MoveToFront_perm.
    + intros e'. rewrite MoveToFront_perm. apply Hlive.
    + done.
  - eexists _, _. split; done.
Qed.

Lemma wf_Add_store c k v :
  lru.wf c → ∃ c', lru.Add_store c k v = Ret c' ∧ lru.wf c'.
Proof.
  intros Hwf. unfold lru.Add_store. destruct (lru.cache c !! k) as [e|] eqn:Hk.
  - destruct (wf_deref c k e Hwf Hk) as (v0 & Hv & Hin).
    unfold lru.deref. rewrite Hv. simpl. eexists. split; [done|].
    destruct Hwf as (Hnd & Hlive & Hmap). split; [|split]; simpl.
    + by rewrite MoveToFront_perm.
    + intros e'. rewrite MoveToFront_perm, Hlive.
      destruct (decide (e = e')) as [->|Hne].
      * rewrite lookup_insert_eq, Hv. split; by eexists.
      * by rewrite lookup_insert_ne.
    + intros k' e'. rewrite Hmap. destruct (decide (e = e')) as [->|Hne].
      * rewrite lookup_insert_eq, Hv. split; intros [v' Hv']; simplify_eq; by eexists.
      * by rewrite lookup_insert_ne.
  - eexists. split; [done|].
    destruct Hwf as (Hnd & Hlive & Hmap).
    assert (lru.elems c !! lru.new_elem c = None) as Hfresh.
    { apply not_elem_of_dom. apply is_fresh. }
    split; [|split]; simpl.
    + apply NoDup_cons. split; [|done]. rewrite Hlive, Hfresh. by intros [? ?].
    + intros e'. rewrite elem_of_cons, Hlive.
      destruct (decide (lru.new_elem c = e')) as [<-|Hne].
      * rewrite lookup_insert_eq. split; [by eexists|by left].
      * rewrite lookup_insert_ne by done. split; [by intros [?|?]|by right].
    + intros k' e'. destruct (decide (lru.new_elem c = e')) as [<-|Hne].
      * rewrite lookup_insert_eq. destruct (decide (k = k')) as [<-|Hkk].
        -- rewrite lookup_insert_eq. split; [by eexists|done].
        -- rewrite lookup_insert_ne by done. rewrite Hmap, Hfresh.
           split; [by intros [? ?]|]. intros [v' Hv']. simplify_eq.
      * rewrite (lookup_insert_ne (lru.elems c)) by done.
        destruct (decide (k = k')) as [<-|Hkk].
        -- rewrite lookup_insert_eq. split; [intros; simplify_eq|].
           intros Hex. apply Hmap in Hex. congruence.
        -- rewrite lookup_insert_ne by done. apply Hmap.
Qed.

Lemma wf_RemoveOldest c :
  lru.wf c → ∃ c', lru.RemoveOldest c = Ret c' ∧ lru.wf c'.
Proof.
  intros Hwf. unfold lru.RemoveOldest. destruct (last (lru.ll c)) as [e|] eqn:Hlast.
  - pose proof (last_elem_of _ _ Hlast) as Hin.
    destruct Hwf as (Hnd & Hlive & Hmap).
    destruct (proj1 (Hlive e) Hin) as [[k0 v0] Hkv].
    unfold lru.deref. rewrite Hkv. simpl. eexists. split; [done|].
    split; [|split]; simpl.
    + by apply list_Remove_NoDup.
    + intros e'. rewrite list_Remove_elem_of, Hlive by done.
      destruct (decide (e = e')) as [<-|Hne].
      * rewrite lookup_delete_eq. split; [by intros [_ ?]|by intros [? ?]].
      * rewrite lookup_delete_ne by done. split; [by intros [? _]|done].
    + intros k' e'. destruct (decide (e = e')) as [<-|Hne].
      * rewrite lookup_delete_eq. split; [|by intros [? ?]].
        destruct (decide (k0 = k')) as [<-|Hkk].
        -- by rewrite lookup_delete_eq.
        -- rewrite lookup_delete_ne by done. rewrite Hmap, Hkv.
           intros [v' Hv']. simplify_eq.
      * rewrite (lookup_delete_ne (lru.elems c)) by done.
        destruct (decide (k0 = k')) as [<-|Hkk].
        -- rewrite lookup_delete_eq. split; [done|]. intros Hex. apply Hmap in Hex.
           assert (lru.cache c !! k0 = Some e) as He by (apply Hmap; by eexists).
           congruence.
        -- rewrite lookup_delete_ne by done. apply Hmap.
  - eexists. split; done.
Qed.

(** *** The eviction loop *)

Lemma RemoveOldest_empty c : lru.ll c = [] → lru.RemoveOldest c = Ret c.
Proof. intros Hnil. unfold lru.RemoveOldest. by rewrite Hnil. Qed.


Lemma RemoveOldest_times_empty n c :
  lru.ll c = [] → lru.RemoveOldest_times n c = Ret c.
Proof.
  intros Hnil. induction n as [|n IH]; simpl; [done|].
  by rewrite RemoveOldest_empty.
Qed.


(** What the loop returns is the first state, in the sequence of evictions,
    in which the guard is false. *)
Lemma evict_loop_sound fuel c c' :
  lru.evict_loop fuel c = Ret c' →
  ∃ n, lru.RemoveOldest_times n c = Ret c' ∧ lru.over_budget c' = false ∧
       ∀ j cj, (j < n)%nat → lru.RemoveOldest_times j c = Ret cj →
               lru.over_budget cj = true.
Proof.
  revert c. induction fuel as [|fuel IH]; simpl; intros c.
  - destruct (lru.over_budget c) eqn:Hob; [done|]. intros [= <-].
    exists 0%nat. split; [done|]. split; [done|]. intros; lia.
  - destruct (lru.over_budget c) eqn:Hob.
    + destruct (lru.RemoveOldest c) as [c1| |] eqn:Hrm; simpl; [|done..].
      intros Hloop. destruct (IH _ Hloop) as (n & Hn & Hstop & Hbefore).
      exists (S n). simpl. rewrite Hrm. simpl. split; [done|]. split; [done|].
      intros [|j] cj Hj; simpl.
      * by intros [= <-].
      * rewrite Hrm. simpl. apply Hbefore. lia.
    + intros [= <-]. exists 0%nat. split; [done|]. split; [done|]. intros; lia.
Qed.


(** With the guard true and nothing left to evict, a turn of the loop leaves
    the state as it is: the loop does not exit. *)
Lemma evict_loop_spins c :
  lru.ll c = [] → lru.over_budget c = true →
  lru.evict_loop (length (lru.ll c)) c = Diverges ∧
  ∀ n, lru.RemoveOldest_times n c = Ret c.
Proof.
  intros Hnil Hob. split.
  - rewrite Hnil. simpl. by rewrite Hob.
  - intros n. by apply RemoveOldest_times_empty.
Qed.

Lemma Add_store_maxBytes c k v c1 :
  lru.Add_store c k v = Ret c1 → lru.maxBytes c1 = lru.maxBytes c.
Proof.
  unfold lru.Add_store. destruct (lru.cache c !! k) as [e|].
  - unfold lru.deref. destruct (lru.elems c !! e); simpl; [|done]. by intros [= <-].
  - by intros [= <-].
Qed.


Lemma over_budget_zero c : lru.maxBytes c = 0 → lru.over_budget c = false.
Proof. intros Hz. unfold lru.over_budget. by rewrite Hz. Qed.

Lemma Add_no_budget c k v :
  lru.maxBytes c = 0 → lru.Add c k v = lru.Add_store c k v.
Proof.
  intros Hz. unfold lru.Add.
  destruct (lru.Add_store c k v) as [c1| |] eqn:Hst; simpl; [|done..].
  assert (lru.over_budget c1 = false) as Hob.
  { apply over_budget_zero. rewrite <-Hz. by eapply Add_store_maxBytes. }
  destruct (lru.ll c1); simpl; by rewrite Hob.
Qed.



Lemma list_Remove_last e l : e ∉ l → lru.list_Remove e (l ++ [e]) = l.
Proof.
  induction l as [|x l IH]; simpl; intros Hnin.
  - by rewrite decide_True.
  - apply not_elem_of_cons in Hnin as [Hne Hnin].
    rewrite decide_False by done. by rewrite IH.
Qed.

(** [RemoveOldest] takes the element at the back of the list. *)
Lemma RemoveOldest_cold_end c c' :
  NoDup (lru.ll c) → lru.RemoveOldest c = Ret c' →
  ∃ cold, lru.ll c = lru.ll c' ++ cold.
Proof.
  intros Hnd. unfold lru.RemoveOldest.
  destruct (last (lru.ll c)) as [e|] eqn:Hlast.
  - unfold lru.deref. destruct (lru.elems c !! e); simpl; [|done].
    intros [= <-]. simpl. apply last_Some in Hlast as [l' Hl'].
    rewrite Hl' in Hnd |- *. apply NoDup_app in Hnd as (_ & Hdisj & _).
    exists [e]. rewrite list_Remove_last; [done|].
    intros Hin. apply (Hdisj e Hin). apply list_elem_of_singleton. done.
  - intros [= <-]. exists []. by rewrite app_nil_r.
Qed.

Lemma RemoveOldest_times_cold_end n c c' :
  lru.wf c → lru.RemoveOldest_times n c = Ret c' →
  lru.wf c' ∧ ∃ cold, lru.ll c = lru.ll c' ++ cold.
Proof.
  revert c. induction n as [|n IH]; simpl; intros c Hwf.
  - intros [= <-]. split; [done|]. exists []. by rewrite app_nil_r.
  - destruct (wf_RemoveOldest c Hwf) as (c1 & Hrm & Hwf1). rewrite Hrm. simpl.
    intros Hn. destruct (IH _ Hwf1 Hn) as (Hwf' & cold & Hcold).
    split; [done|].
    destruct (RemoveOldest_cold_end c c1 (proj1 Hwf) Hrm) as (cold1 & Hcold1).
    exists (cold ++ cold1). by rewrite Hcold1, Hcold, app_assoc.
Qed.

Lemma wf_Add c k v c' : lru.wf c → lru.Add c k v = Ret c' → lru.wf c'.
Proof.
  intros Hwf. unfold lru.Add.
  destruct (wf_Add_store c k v Hwf) as (c1 & Hst & Hwf1). rewrite Hst. simpl.
  intros Hloop. apply evict_loop_sound in Hloop as (n & Hn & _).
  by destruct (RemoveOldest_times_cold_end n c1 c' Hwf1 Hn).
Qed.

Lemma wf_Add_all c (kvs : list (string * V)) c' :
  lru.wf c → lru.Add_all c kvs = Ret c' → lru.wf c'.
Proof.
  revert c. induction kvs as [|[k v] kvs IH]; simpl; intros c Hwf.
  - by intros [= <-].
  - destruct (lru.Add c k v) as [c1| |] eqn:Hadd; simpl; [|done..].
    apply IH. by eapply wf_Add.
Qed.

(** On a key that is present the update leaves [nbytes] as it was: the
    difference added is [value.Len() - value.Len()]. *)
Lemma Add_store_present_nbytes c k v e :
  lru.cache c !! k = Some e → is_Some (lru.elems c !! e) →
  ∃ c1, lru.Add_store c k v = Ret c1 ∧ lru.nbytes c1 = wrap64 (lru.nbytes c).
Proof.
  intros Hk [kv Hkv]. unfold lru.Add_store, lru.deref. rewrite Hk, Hkv. simpl.
  eexists. split; [done|]. simpl. unfold int64_add, int64_sub.
  by rewrite Z.sub_diag, Z.add_0_r.
Qed.

(** *** What [Add] does to the state *)

Lemma wrap64_shift (x k : Z) : wrap64 (x + k * 2 ^ 64) = wrap64 x.
Proof.
  unfold wrap64. replace (x + k * 2 ^ 64 + 2 ^ 63) with (x + 2 ^ 63 + k * 2 ^ 64) by lia.
  by rewrite Z_mod_plus_full.
Qed.

Lemma wrap64_repr (x : Z) : ∃ k, wrap64 x = x + k * 2 ^ 64.
Proof.
  exists (- ((x + 2 ^ 63) `div` 2 ^ 64)). unfold wrap64.
  rewrite Z.mod_eq by lia. lia.
Qed.

Lemma wrap64_idem (x : Z) : wrap64 (wrap64 x) = wrap64 x.
Proof.
  destruct (wrap64_repr x) as [k Hk].
  transitivity (wrap64 (x + k * 2 ^ 64)); [by rewrite Hk|apply wrap64_shift].
Qed.

Lemma wrap64_sub_wrap (a b d : Z) :
  wrap64 (wrap64 (a - wrap64 b) - d) = wrap64 (a - (d + b)).
Proof.
  destruct (wrap64_repr b) as [k1 ->].
  destruct (wrap64_repr (a - (b + k1 * 2 ^ 64))) as [k2 ->].
  replace (a - (b + k1 * 2 ^ 64) + k2 * 2 ^ 64 - d)
    with (a - (d + b) + (k2 - k1) * 2 ^ 64) by lia.
  apply wrap64_shift.
Qed.

Lemma filter_ne_absent e l : e ∉ l → filter (fun e' => e' ≠ e) l = l.
Proof.
  induction l as [|x l IH]; [done|]. intros [Hne Hnin]%not_elem_of_cons.
  rewrite filter_cons_True by congruence. by rewrite IH.
Qed.

Lemma list_Remove_filter e l :
  NoDup l → lru.list_Remove e l = filter (fun e' => e' ≠ e) l.
Proof.
  induction l as [|x l IH]; simpl; [done|]. intros [Hx Hnd]%NoDup_cons.
  destruct (decide (x = e)) as [->|Hne].
  - rewrite filter_cons_False by (intros ?; done).
    by rewrite filter_ne_absent.
  - rewrite filter_cons_True by done. by rewrite IH.
Qed.

Lemma MoveToFront_filter e l :
  NoDup l → e ∈ l → lru.MoveToFront e l = e :: filter (fun e' => e' ≠ e) l.
Proof.
  intros Hnd Hin. unfold lru.MoveToFront. rewrite decide_True by done.
  by rewrite list_Remove_filter.
Qed.

(** The first half of [Add] on a well-formed cache. *)
Lemma Add_store_stored_in c k v :
  lru.wf c →
  ∃ c1 e, lru.Add_store c k v = Ret c1 ∧ lru.wf c1 ∧ lru.stored_in c k v e c1 ∧
          wrap64 (lru.nbytes c1) = lru.nbytes c1.
Proof.
  intros Hwf. destruct (wf_Add_store c k v Hwf) as (c1 & Hst & Hwf1).
  exists c1. revert Hst. unfold lru.Add_store, lru.stored_in.
  destruct (lru.cache c !! k) as [e|] eqn:Hk.
  - destruct (wf_deref c k e Hwf Hk) as (v0 & Hv & Hin).
    unfold lru.deref. rewrite Hv. simpl. intros [= <-]. exists e. simpl.
    split; [done|]. split; [done|]. split.
    + split; [apply MoveToFront_filter; [apply Hwf|done]|].
      split; [done|]. split; [by rewrite insert_id|]. done.
    + apply wrap64_idem.
  - intros [= <-]. exists (lru.new_elem c). simpl.
    assert (lru.elems c !! lru.new_elem c = None) as Hfresh.
    { apply not_elem_of_dom. apply is_fresh. }
    split; [done|]. split; [done|]. split.
    + split; [|done]. f_equal. symmetry. apply filter_ne_absent.
      intros Hy. destruct Hwf as (_ & Hlive & _). apply Hlive in Hy.
      rewrite Hfresh in Hy. by destruct Hy.
    + apply wrap64_idem.
Qed.

Lemma entries_of_app c (l1 l2 : list lru.ptr) :
  lru.entries_of c (l1 ++ l2) = lru.entries_of c l1 ++ lru.entries_of c l2.
Proof. unfold lru.entries_of. apply omap_app. Qed.

Lemma bytes_of_app c (l1 l2 : list lru.ptr) :
  lru.bytes_of c (l1 ++ l2) = lru.bytes_of c l1 + lru.bytes_of c l2.
Proof.
  unfold lru.bytes_of. induction l1 as [|x l1 IH]; simpl; [done|].
  rewrite IH. lia.
Qed.

Lemma entries_of_ext c c2 (l : list lru.ptr) :
  (∀ e, e ∈ l → lru.elems c2 !! e = lru.elems c !! e) →
  lru.entries_of c2 l = lru.entries_of c l.
Proof.
  unfold lru.entries_of. induction l as [|x l IH]; intros Hext; [done|].
  change (x :: l) with ([x] ++ l). rewrite !omap_app. f_equal.
  - simpl. by rewrite (Hext x) by (apply elem_of_cons; by left).
  - apply IH. intros e He. apply Hext. apply elem_of_cons. by right.
Qed.

Lemma bytes_of_ext c c2 (l : list lru.ptr) :
  (∀ e, e ∈ l → lru.elems c2 !! e = lru.elems c !! e) →
  lru.bytes_of c2 l = lru.bytes_of c l.
Proof.
  unfold lru.bytes_of. induction l as [|x l IH]; intros Hext; simpl; [done|].
  rewrite (Hext x) by (apply elem_of_cons; by left).
  rewrite IH; [done|]. intros e He. apply Hext. apply elem_of_cons. by right.
Qed.

(** One call of [RemoveOldest] on a well-formed cache that is not empty. *)
Lemma RemoveOldest_evicted_from c :
  lru.wf c → lru.ll c ≠ [] →
  ∃ c' e, lru.RemoveOldest c = Ret c' ∧ lru.wf c' ∧ lru.evicted_from c [e] c'.
Proof.
  intros Hwf Hne. destruct (wf_RemoveOldest c Hwf) as (c' & Hrm & Hwf').
  exists c'. revert Hrm. unfold lru.RemoveOldest.
  destruct (last (lru.ll c)) as [e|] eqn:Hlast; [|by apply last_None in Hlast].
  pose proof (last_elem_of _ _ Hlast) as Hin.
  destruct Hwf as (Hnd & Hlive & Hmap).
  destruct (proj1 (Hlive e) Hin) as [[k0 v0] Hkv].
  unfold lru.deref. rewrite Hkv. simpl. intros [= <-]. exists e.
  split; [done|]. split; [done|]. unfold lru.evicted_from. simpl.
  apply last_Some in Hlast as [l' Hl']. rewrite Hl' in Hnd |- *.
  apply NoDup_app in Hnd as (_ & Hdisj & _).
  assert (e ∉ l') as Hnin.
  { intros Hin'. apply (Hdisj e Hin'). by apply list_elem_of_singleton. }
  split; [by rewrite list_Remove_last|]. split; [|split; [|split; [|split]]].
  - intros e'. rewrite lookup_delete. destruct (decide (e = e')) as [<-|Hee].
    + rewrite decide_True; [done|]. by apply list_elem_of_singleton.
    + rewrite decide_False; [done|]. rewrite list_elem_of_singleton. congruence.
  - intros k'. rewrite lookup_delete. destruct (decide (k0 = k')) as [<-|Hkk].
    + assert (lru.cache c !! k0 = Some e) as -> by (apply Hmap; by eexists).
      rewrite decide_True; [done|]. by apply list_elem_of_singleton.
    + destruct (lru.cache c !! k') as [e'|] eqn:Hk'; [|done].
      rewrite decide_False; [done|]. rewrite list_elem_of_singleton. intros ->.
      apply Hmap in Hk' as [v' Hv']. congruence.
  - unfold lru.entries_of. simpl. rewrite Hkv. simpl.
    destruct (lru.OnEvicted c); [done|by rewrite app_nil_r].
  - unfold lru.bytes_of, int64_sub, int64_add. simpl. rewrite Hkv. simpl.
    unfold lru.entry_bytes. simpl.
    pose proof (wrap64_sub_wrap (lru.nbytes c) (len k0 + lru.Len v0) 0) as Hw.
    rewrite Z.sub_0_r, wrap64_idem in Hw. rewrite Hw. f_equal. lia.
  - done.
Qed.

Lemma evicted_from_nil c :
  wrap64 (lru.nbytes c) = lru.nbytes c → lru.evicted_from c [] c.
Proof.
  intros Hn. unfold lru.evicted_from. simpl.
  split; [by rewrite app_nil_r|]. split; [done|]. split.
  { intros k. by destruct (lru.cache c !! k). }
  split; [by destruct (lru.OnEvicted c); rewrite app_nil_r|].
  split; [by rewrite Z.sub_0_r|done].
Qed.

Lemma decide_elem_of_snoc {A : Type} (x e : lru.ptr) (cold : list lru.ptr) (a b : A) :
  (if decide (x ∈ cold ++ [e]) then a else b)
  = if decide (x ∈ cold) then a else if decide (x ∈ [e]) then a else b.
Proof.
  destruct (decide (x ∈ cold ++ [e])) as [Hc|Hc], (decide (x ∈ cold)) as [Hx|Hx],
    (decide (x ∈ [e])) as [Hy|Hy]; try done; rewrite elem_of_app in Hc; tauto.
Qed.

Lemma evicted_from_step c e c2 cold c' :
  NoDup (lru.ll c) →
  lru.evicted_from c [e] c2 → lru.evicted_from c2 cold c' →
  lru.evicted_from c (cold ++ [e]) c'.
Proof.
  intros Hnd (Hll1 & Hel1 & Hca1 & Hev1 & Hnb1 & Hmx1 & Hoe1)
             (Hll2 & Hel2 & Hca2 & Hev2 & Hnb2 & Hmx2 & Hoe2).
  assert (e ∉ cold) as Hnin.
  { rewrite Hll1, Hll2 in Hnd. apply NoDup_app in Hnd as (_ & Hdisj & _).
    intros Hin. apply (Hdisj e); [|by apply list_elem_of_singleton].
    apply elem_of_app. by right. }
  assert (∀ x, x ∈ cold → lru.elems c2 !! x = lru.elems c !! x) as Hext.
  { intros x Hx. rewrite Hel1. rewrite decide_False; [done|].
    rewrite list_elem_of_singleton. by intros ->. }
  unfold lru.evicted_from.
  split; [by rewrite Hll1, Hll2, app_assoc|]. split; [|split; [|split; [|split]]].
  - intros x. by rewrite Hel2, Hel1, decide_elem_of_snoc.
  - intros k. rewrite Hca2, Hca1. destruct (lru.cache c !! k) as [x|]; [|done].
    rewrite decide_elem_of_snoc.
    destruct (decide (x ∈ [e])), (decide (x ∈ cold)); done.
  - rewrite Hev2, Hev1, Hoe1, <-app_assoc. f_equal.
    destruct (lru.OnEvicted c); [|done].
    rewrite reverse_app, entries_of_app. simpl. f_equal.
    apply entries_of_ext. intros x Hx. apply Hext. by apply elem_of_reverse.
  - rewrite Hnb2, Hnb1, (bytes_of_ext c c2 cold Hext), bytes_of_app.
    pose proof (wrap64_sub_wrap (lru.nbytes c) (lru.bytes_of c [e]) (lru.bytes_of c cold))
      as Hw.
    rewrite <-Hw. f_equal. f_equal.
    destruct (wrap64_repr (lru.bytes_of c [e])) as [k1 Hk1]. rewrite Hk1.
    replace (lru.nbytes c - (lru.bytes_of c [e] + k1 * 2 ^ 64))
      with (lru.nbytes c - lru.bytes_of c [e] + (- k1) * 2 ^ 64) by lia.
    by rewrite wrap64_shift.
  - split; congruence.
Qed.

(** Any number of calls of [RemoveOldest] on a well-formed cache. *)
Lemma RemoveOldest_times_evicted_from n c c' :
  lru.wf c → wrap64 (lru.nbytes c) = lru.nbytes c →
  lru.RemoveOldest_times n c = Ret c' →
  lru.wf c' ∧ ∃ cold, lru.evicted_from c cold c'.
Proof.
  revert c. induction n as [|n IH]; simpl; intros c Hwf Hn.
  - intros [= <-]. split; [done|]. exists []. by apply evicted_from_nil.
  - destruct (lru.ll c) as [|x l] eqn:Hll.
    + rewrite RemoveOldest_empty by done. simpl. by apply IH.
    + destruct (RemoveOldest_evicted_from c Hwf) as (c2 & e & Hrm & Hwf2 & Hev2);
        [by rewrite Hll|].
      rewrite Hrm. simpl. intros Hrest.
      destruct (IH c2 Hwf2) as (Hwf' & cold & Hev'); [|done|].
      { destruct Hev2 as (_ & _ & _ & _ & -> & _). apply wrap64_idem. }
      split; [done|]. exists (cold ++ [e]).
      eapply evicted_from_step; [apply Hwf|done..].
Qed.

(** [Add] on a well-formed cache: the store, then the evictions. *)
Lemma Add_effect c k v c' :
  lru.wf c → lru.Add c k v = Ret c' →
  lru.wf c' ∧
  ∃ c1 e cold, lru.Add_store c k v = Ret c1 ∧ lru.wf c1 ∧
               lru.stored_in c k v e c1 ∧ lru.evicted_from c1 cold c'.
Proof.
  intros Hwf. unfold lru.Add.
  destruct (Add_store_stored_in c k v Hwf) as (c1 & e & Hst & Hwf1 & Hin & Hn).
  rewrite Hst. simpl. intros Hloop.
  apply evict_loop_sound in Hloop as (n & Hn' & _).
  destruct (RemoveOldest_times_evicted_from n c1 c' Hwf1 Hn Hn') as (Hwf' & cold & Hev).
  split; [done|]. by exists c1, e, cold.
Qed.


Lemma Add_then_Get c k v c' :
  lru.wf c → lru.Add c k v = Ret c' →
  (lru.ll c' ≠ [] → lru.Get c' k = Ret (c', Some v)) ∧
  (lru.ll c' = [] → lru.Get c' k = Ret (c', None)).
Proof.
  intros Hwf Hadd.
  destruct (Add_effect c k v c' Hwf Hadd)
    as (Hwf' & c1 & e & cold & Hst & Hwf1 & Hin & Hev).
  destruct Hin as (Hll1 & Hel1 & Hca1 & _).
  destruct Hev as (Hll & Hel & Hca & _).
  assert (lru.cache c1 !! k = Some e) as Hk1 by (by rewrite Hca1, lookup_insert_eq).
  assert (lru.elems c1 !! e = Some (lru.Entry k v)) as He1
    by (by rewrite Hel1, lookup_insert_eq).
  split.
  - intros Hne. destruct (lru.ll c') as [|x l] eqn:Hll'; [done|].
    rewrite Hll1 in Hll. simpl in Hll. injection Hll as <- Hrest.
    assert (e ∉ cold) as Hnin.
    { destruct Hwf1 as (Hnd & _). rewrite Hll1, Hrest in Hnd.
      apply NoDup_cons in Hnd as [Hnd _]. intros Hc. apply Hnd.
      apply elem_of_app. by right. }
    unfold lru.Get. rewrite Hca, Hk1, decide_False by done.
    unfold lru.deref. simpl. rewrite Hel, decide_False, He1 by done. simpl.
    rewrite Hll'. unfold lru.MoveToFront.
    rewrite decide_True by (apply elem_of_cons; by left). simpl.
    rewrite decide_True by done. rewrite <-Hll'. by destruct c'.
  - intros Hnil. rewrite Hnil in Hll. simpl in Hll.
    unfold lru.Get. rewrite Hca, Hk1, decide_True; [done|].
    rewrite <-Hll, Hll1. apply elem_of_cons. by left.
Qed.

Lemma evict_loop_no_panic n c : lru.wf c → lru.evict_loop n c ≠ Panic.
Proof.
  revert c. induction n as [|n IH]; intros c Hwf; simpl.
  - by destruct (lru.over_budget c).
  - destruct (lru.over_budget c); [|done].
    destruct (wf_RemoveOldest c Hwf) as (c' & -> & Hwf'). simpl. by apply IH.
Qed.

Lemma Add_no_panic c k v : lru.wf c → lru.Add c k v ≠ Panic.
Proof.
  intros Hwf. unfold lru.Add.
  destruct (wf_Add_store c k v Hwf) as (c1 & -> & Hwf1). simpl.
  by apply evict_loop_no_panic.
Qed.

(** *** [Add] when the accounting is exact *)

Lemma wrap64_small (x : Z) : - 2 ^ 63 ≤ x < 2 ^ 63 → wrap64 x = x.
Proof. intros Hx. unfold wrap64. rewrite Z.mod_small; lia. Qed.

Lemma bytes_of_nonneg c (l : list lru.ptr) :
  (∀ e kv, lru.elems c !! e = Some kv → 0 ≤ lru.entry_bytes kv) →
  0 ≤ lru.bytes_of c l.
Proof.
  intros Hnn. unfold lru.bytes_of. induction l as [|x l IH]; simpl; [done|].
  destruct (lru.elems c !! x) as [kv|] eqn:Hx; simpl; [|lia].
  specialize (Hnn x kv Hx). lia.
Qed.

Lemma over_budget_true c :
  lru.over_budget c = true ↔ lru.maxBytes c ≠ 0 ∧ lru.maxBytes c < lru.nbytes c.
Proof.
  unfold lru.over_budget.
  rewrite andb_true_iff, negb_true_iff, Z.eqb_neq, Z.ltb_lt. done.
Qed.

Lemma over_budget_false c :
  lru.over_budget c = false ↔ lru.maxBytes c = 0 ∨ lru.nbytes c ≤ lru.maxBytes c.
Proof.
  unfold lru.over_budget.
  rewrite andb_false_iff, negb_false_iff, Z.eqb_eq, Z.ltb_ge. done.
Qed.

(** One eviction from an accounted state. *)
Lemma RemoveOldest_accounted c (l : list lru.ptr) (x : lru.ptr) :
  lru.wf c → lru.ll c = l ++ [x] → lru.accounted c →
  ∃ c2, lru.RemoveOldest c = Ret c2 ∧ lru.wf c2 ∧ lru.ll c2 = l ∧
        lru.accounted c2 ∧ lru.evicted_from c [x] c2 ∧
        lru.maxBytes c2 = lru.maxBytes c ∧
        (∀ l', l' ⊆ l → lru.bytes_of c2 l' = lru.bytes_of c l').
Proof.
  intros Hwf Hll (Hnb & Hrange & Hnn).
  destruct (RemoveOldest_evicted_from c Hwf) as (c2 & e & Hrm & Hwf2 & Hev).
  { rewrite Hll. by destruct l. }
  pose proof Hev as (Hll2 & Hel2 & _ & _ & Hnb2 & Hmb2 & _).
  rewrite Hll in Hll2. apply app_inj_tail in Hll2 as [Hl <-].
  assert (∀ l', l' ⊆ l → lru.bytes_of c2 l' = lru.bytes_of c l') as Hext.
  { intros l' Hsub. apply bytes_of_ext. intros e He. rewrite Hel2.
    rewrite decide_False; [done|]. rewrite list_elem_of_singleton. intros ->.
    destruct Hwf as (Hnd & _). rewrite Hll in Hnd.
    apply NoDup_app in Hnd as (_ & Hdisj & _).
    apply (Hdisj x); [by apply Hsub|]. apply list_elem_of_singleton. done. }
  assert (∀ e kv, lru.elems c2 !! e = Some kv → 0 ≤ lru.entry_bytes kv) as Hnn2.
  { intros e kv. rewrite Hel2. case_decide; [done|]. apply Hnn. }
  exists c2. split; [done|]. split; [done|]. split; [done|].
  split; [|done].
  unfold lru.stored_bytes in Hnb, Hrange. rewrite Hll in Hnb, Hrange.
  fold (lru.bytes_of c (l ++ [x])) in Hnb, Hrange.
  rewrite bytes_of_app in Hnb, Hrange.
  pose proof (bytes_of_nonneg c l Hnn). pose proof (bytes_of_nonneg c [x] Hnn).
  assert (lru.stored_bytes c2 = lru.bytes_of c l) as Hsb.
  { unfold lru.stored_bytes. rewrite <-Hl. fold (lru.bytes_of c2 l). by apply Hext. }
  split; [|split; [|done]].
  - rewrite Hsb, Hnb2, Hnb. rewrite wrap64_small by lia. lia.
  - rewrite Hsb. lia.
Qed.

(** The eviction loop from an accounted state with a budget that is not
    negative: it returns, having evicted the elements [cold] and kept the
    elements [keep]; what is kept is within the budget, and with the last
    element evicted still there it was not. *)
Lemma evict_loop_accounted (l : list lru.ptr) c1 :
  lru.wf c1 → lru.ll c1 = l → lru.accounted c1 → 0 ≤ lru.maxBytes c1 →
  ∃ c' keep cold,
    lru.evict_loop (length l) c1 = Ret c' ∧ l = keep ++ cold ∧ lru.ll c' = keep ∧
    lru.wf c' ∧ lru.accounted c' ∧ lru.evicted_from c1 cold c' ∧
    lru.nbytes c' = lru.bytes_of c1 keep ∧
    (lru.maxBytes c1 ≠ 0 → lru.nbytes c' ≤ lru.maxBytes c1) ∧
    (∀ x cold', cold = x :: cold' →
                lru.maxBytes c1 ≠ 0 ∧ lru.maxBytes c1 < lru.bytes_of c1 (keep ++ [x])).
Proof.
  revert c1. induction l as [|x l IH] using rev_ind; intros c1 Hwf Hll Hacc Hmb.
  - pose proof Hacc as (Hnb & _ & _).
    unfold lru.stored_bytes in Hnb. rewrite Hll in Hnb. simpl in Hnb.
    assert (lru.over_budget c1 = false) as Hover.
    { apply over_budget_false. lia. }
    simpl. rewrite Hover. exists c1, [], []. split; [done|]. split; [done|].
    split; [done|]. split; [done|]. split; [done|]. split.
    { apply evicted_from_nil. by rewrite Hnb. }
    split; [done|]. split; [lia|]. done.
  - rewrite length_app. simpl. rewrite Nat.add_1_r. cbn [lru.evict_loop].
    pose proof Hacc as (Hnb & Hrange & Hnn).
    destruct (lru.over_budget c1) eqn:Hover.
    + destruct (RemoveOldest_accounted c1 l x Hwf Hll Hacc)
        as (c2 & Hrm & Hwf2 & Hll2 & Hacc2 & Hev2 & Hmb2 & Hext).
      destruct (IH c2 Hwf2 Hll2 Hacc2 ltac:(lia))
        as (c' & keep & cold & Hloop & Hsplit & Hll' & Hwf' & Hacc' & Hev' & Hnb'
            & Hin & Hmin).
      rewrite Hrm. simpl. exists c', keep, (cold ++ [x]).
      split; [done|]. split; [by rewrite Hsplit, app_assoc|]. split; [done|].
      split; [done|]. split; [done|]. split.
      { apply (evicted_from_step c1 x c2 cold c'); [apply Hwf|done|done]. }
      split.
      { rewrite Hnb'. apply Hext. rewrite Hsplit. intros e He.
        apply elem_of_app. by left. }
      split; [rewrite <-Hmb2; done|].
      intros x0 cold' Hc. apply over_budget_true in Hover as [Hne Hlt].
      destruct cold as [|y cold2].
      * simpl in Hc. injection Hc as <- _. split; [done|].
        rewrite app_nil_r in Hsplit. subst keep.
        unfold lru.stored_bytes in Hnb. rewrite Hll in Hnb.
        fold (lru.bytes_of c1 (l ++ [x])) in Hnb. by rewrite <-Hnb.
      * simpl in Hc. injection Hc as <- _.
        destruct (Hmin y cold2 eq_refl) as [_ Hlt2]. split; [done|].
        rewrite <-Hmb2. rewrite <-(Hext (keep ++ [y])); [done|].
        rewrite Hsplit. intros e He. apply elem_of_app in He as [He|He].
        -- apply elem_of_app. by left.
        -- apply elem_of_app. right. apply list_elem_of_singleton in He as ->.
           apply elem_of_cons. by left.
    + exists c1, (l ++ [x]), []. split; [done|]. split; [by rewrite app_nil_r|].
      split; [done|]. split; [done|]. split; [done|]. split.
      { apply evicted_from_nil. rewrite Hnb. apply wrap64_small.
        pose proof (bytes_of_nonneg c1 (lru.ll c1) Hnn) as Hpos.
        unfold lru.stored_bytes. unfold lru.stored_bytes in Hrange.
        fold (lru.bytes_of c1 (lru.ll c1)) in Hrange |- *. lia. }
      split.
      { rewrite Hnb. unfold lru.stored_bytes. by rewrite Hll. }
      split; [|done]. intros Hne. apply over_budget_false in Hover. lia.
Qed.

(** With a negative budget the loop evicts everything and then spins. *)
Lemma evict_loop_negative (l : list lru.ptr) c1 :
  lru.wf c1 → lru.ll c1 = l → lru.accounted c1 → lru.maxBytes c1 < 0 →
  lru.evict_loop (length l) c1 = Diverges.
Proof.
  revert c1. induction l as [|x l IH] using rev_ind; intros c1 Hwf Hll Hacc Hmb.
  - pose proof Hacc as (Hnb & _ & _).
    unfold lru.stored_bytes in Hnb. rewrite Hll in Hnb. simpl in Hnb.
    assert (lru.over_budget c1 = true) as Hover.
    { apply over_budget_true. lia. }
    simpl. by rewrite Hover.
  - rewrite length_app. simpl. rewrite Nat.add_1_r. cbn [lru.evict_loop].
    pose proof Hacc as (Hnb & Hrange & Hnn).
    assert (lru.over_budget c1 = true) as Hover.
    { apply over_budget_true.
      pose proof (bytes_of_nonneg c1 (lru.ll c1) Hnn) as Hpos.
      unfold lru.stored_bytes in Hnb. fold (lru.bytes_of c1 (lru.ll c1)) in Hnb. lia. }
    rewrite Hover.
    destruct (RemoveOldest_accounted c1 l x Hwf Hll Hacc)
      as (c2 & Hrm & Hwf2 & Hll2 & Hacc2 & _ & Hmb2 & _).
    rewrite Hrm. simpl. apply IH; [done|done|done|lia].
Qed.

(** The store of a new key in an accounted state. *)
Lemma Add_store_accounted c k v :
  lru.wf c → lru.accounted c → lru.cache c !! k = None →
  0 ≤ len k + lru.Len v → lru.stored_bytes c + (len k + lru.Len v) < 2 ^ 63 →
  ∃ c1 e, lru.Add_store c k v = Ret c1 ∧ lru.wf c1 ∧ lru.accounted c1 ∧
          lru.ll c1 = e :: lru.ll c ∧ lru.maxBytes c1 = lru.maxBytes c ∧
          lru.bytes_of c1 [e] = len k + lru.Len v ∧
          (∀ l, l ⊆ lru.ll c → lru.bytes_of c1 l = lru.bytes_of c l).
Proof.
  intros Hwf (Hnb & Hrange & Hnn) Hk Hsize Hfit.
  destruct (Add_store_stored_in c k v Hwf) as (c1 & e & Hst & Hwf1 & Hin & _).
  destruct Hin as (Hll1 & Hel1 & _ & Hfresh & _ & Hmb1 & _).
  rewrite Hk in Hfresh.
  assert (e ∉ lru.ll c) as Hnin.
  { intros He. destruct Hwf as (_ & Hlive & _). apply Hlive in He as [kv He].
    congruence. }
  rewrite filter_ne_absent in Hll1 by done.
  assert (∀ l, l ⊆ lru.ll c → lru.bytes_of c1 l = lru.bytes_of c l) as Hext.
  { intros l Hsub. apply bytes_of_ext. intros e' He'. rewrite Hel1.
    apply lookup_insert_ne. intros ->. apply Hnin. by apply Hsub. }
  assert (lru.bytes_of c1 [e] = len k + lru.Len v) as He.
  { unfold lru.bytes_of. simpl. rewrite Hel1, lookup_insert_eq. simpl.
    unfold lru.entry_bytes. simpl. lia. }
  pose proof (bytes_of_nonneg c (lru.ll c) Hnn) as Hpos.
  unfold lru.stored_bytes in Hnb, Hrange, Hfit.
  fold (lru.bytes_of c (lru.ll c)) in Hnb, Hrange, Hfit.
  assert (lru.stored_bytes c1 = lru.bytes_of c (lru.ll c) + (len k + lru.Len v)) as Hsb.
  { unfold lru.stored_bytes. rewrite Hll1. fold (lru.bytes_of c1 (e :: lru.ll c)).
    change (e :: lru.ll c) with ([e] ++ lru.ll c).
    rewrite bytes_of_app, He, Hext by done. lia. }
  exists c1, e. split; [done|]. split; [done|]. split; [|done].
  split; [|split].
  - rewrite Hsb. revert Hst. unfold lru.Add_store. rewrite Hk. intros [= <-]. simpl.
    unfold int64_add. rewrite (wrap64_small (len k + lru.Len v)) by lia.
    rewrite Hnb. apply wrap64_small. lia.
  - rewrite Hsb. lia.
  - intros e' kv. rewrite Hel1.
    destruct (decide (e = e')) as [<-|Hne].
    + rewrite lookup_insert_eq. intros [= <-]. unfold lru.entry_bytes. simpl. lia.
    + rewrite lookup_insert_ne by done. apply Hnn.
Qed.

(** [Add] of a new key to an accounted cache.  With a budget that is not
    negative the call returns and the accounting stays exact; the entry is
    kept when there is no budget or when it fits the budget by itself, and
    else the cache is left empty.  With a negative budget the call never
    returns. *)
Lemma Add_accounted c k v :
  lru.wf c → lru.accounted c → lru.cache c !! k = None →
  0 ≤ len k + lru.Len v → lru.stored_bytes c + (len k + lru.Len v) < 2 ^ 63 →
  (0 ≤ lru.maxBytes c →
   ∃ c', lru.Add c k v = Ret c' ∧ lru.wf c' ∧ lru.accounted c' ∧
         (lru.maxBytes c = 0 ∨ len k + lru.Len v ≤ lru.maxBytes c →
          lru.Get c' k = Ret (c', Some v)) ∧
         (0 < lru.maxBytes c < len k + lru.Len v →
          lru.ll c' = [] ∧ lru.Get c' k = Ret (c', None))) ∧
  (lru.maxBytes c < 0 → lru.Add c k v = Diverges).
Proof.
  intros Hwf Hacc Hk Hsize Hfit.
  destruct (Add_store_accounted c k v Hwf Hacc Hk Hsize Hfit)
    as (c1 & e & Hst & Hwf1 & Hacc1 & Hll1 & Hmb1 & He & Hext).
  split.
  - intros Hmb.
    destruct (evict_loop_accounted (lru.ll c1) c1 Hwf1 eq_refl Hacc1 ltac:(lia))
      as (c' & keep & cold & Hloop & Hsplit & Hll' & Hwf' & Hacc' & _ & Hnb' & Hin & Hmin).
    assert (lru.Add c k v = Ret c') as Hadd.
    { unfold lru.Add. rewrite Hst. done. }
    destruct (Add_then_Get c k v c' Hwf Hadd) as [Hhit Hmiss].
    exists c'. split; [done|]. split; [done|]. split; [done|]. split.
    + intros Hcase. apply Hhit. rewrite Hll'. intros ->.
      simpl in Hsplit. rewrite Hll1 in Hsplit. subst cold.
      destruct (Hmin e (lru.ll c) eq_refl) as [Hne Hlt].
      rewrite app_nil_l, He in Hlt. lia.
    + intros Hcase.
      assert (keep = []) as Hkeep.
      { destruct keep as [|y keep']; [done|]. exfalso.
        rewrite Hll1 in Hsplit. simpl in Hsplit. injection Hsplit as <- _.
        change (e :: keep') with ([e] ++ keep') in Hnb'.
        rewrite bytes_of_app, He in Hnb'.
        destruct Hacc1 as (_ & _ & Hnn1).
        pose proof (bytes_of_nonneg c1 keep' Hnn1). lia. }
      rewrite Hkeep in Hll'. split; [done|]. by apply Hmiss.
  - intros Hneg. unfold lru.Add. rewrite Hst. simpl.
    apply evict_loop_negative; [done|done|done|lia].
Qed.

(** *** The specified properties of the LRU store *)


(** C10. [Get(key)] returns, hit or miss, and changes nothing but the order
    of the list: [nbytes], [Len()], the map (hence its key set), the entries
    and their values, [maxBytes] and the record of evictions stay as they
    were, and the list holds the same elements.  On a hit the element found
    is at the front afterwards and its value is returned. *)
Theorem lru_Get_changes_only_recency (c : lru.Cache V) (k : string) :
  lru.wf c →
  ∃ c' r, lru.Get c k = Ret (c', r) ∧
          lru.nbytes c' = lru.nbytes c ∧
          lru.Cache_Len c' = lru.Cache_Len c ∧
          lru.cache c' = lru.cache c ∧
          dom (lru.cache c') = dom (lru.cache c) ∧
          lru.elems c' = lru.elems c ∧
          lru.maxBytes c' = lru.maxBytes c ∧
          lru.evicted c' = lru.evicted c ∧
          lru.ll c' ≡ₚ lru.ll c ∧
          match lru.cache c !! k with
          | Some e => head (lru.ll c') = Some e ∧
                      ∃ kv, lru.elems c !! e = Some kv ∧ r = Some (lru.value kv)
          | None => r = None ∧ lru.ll c' = lru.ll c
          end.
Proof.
  intros Hwf. unfold lru.Get. destruct (lru.cache c !! k) as [e|] eqn:Hk.
  - destruct (wf_deref c k e Hwf Hk) as (v & Hv & Hin).
    unfold lru.deref; simpl. rewrite Hv. simpl. eexists _, _. split; [done|].
    unfold lru.Cache_Len. simpl. rewrite MoveToFront_length.
    repeat (split; [done|]). split; [apply MoveToFront_perm|].
    unfold lru.MoveToFront. rewrite decide_True by done. split; [done|].
    by eexists.
  - eexists _, _. split; [done|]. by repeat (split; [done|]).
Qed.

End lru_properties.

(** C1 at a concrete input.  [Add("k", "a")] on a new cache stores 2 bytes
    and counts 2.  [Add("k", "abc")] on the key now present stores 4 bytes
    and still counts 2: [nbytes] has changed by 0, not by [3 - 1]. *)
Theorem lru_Add_present_key_leaves_nbytes :
  lru.Add (lru.New 0 false) "k" (examples.bv "a") = Ret examples.lru_k_a ∧
  lru.nbytes examples.lru_k_a = 2 ∧
  lru.stored_bytes examples.lru_k_a = 2 ∧
  lru.Add examples.lru_k_a "k" (examples.bv "abc") = Ret examples.lru_k_abc ∧
  lru.Get examples.lru_k_abc "k"
    = Ret (examples.lru_k_abc, Some (examples.bv "abc")) ∧
  lru.stored_bytes examples.lru_k_abc = 4 ∧
  lru.nbytes examples.lru_k_abc = 2 ∧
  lru.nbytes examples.lru_k_abc - lru.nbytes examples.lru_k_a = 0 ∧
  lru.Len (examples.bv "abc") - lru.Len (examples.bv "a") = 2.
Proof. repeat split; vm_compute; reflexivity. Qed.

Lemma wf_lru_k1_k2 : lru.wf examples.lru_k1_k2.
Proof.
  apply (wf_Add_all (lru.New 10 false)
           [("k1", examples.bv "v1"); ("k2", examples.bv "v2")]);
    [apply wf_New|by vm_compute].
Qed.




(** C10 at a concrete input: a hit on [k1] in the cache that holds [k1] and
    [k2]. *)
Lemma lru_Get_changes_only_recency_witness :
  lru.wf examples.lru_k1_k2 ∧
  ∃ c' r, lru.Get examples.lru_k1_k2 "k1" = Ret (c', r) ∧
          lru.nbytes c' = lru.nbytes examples.lru_k1_k2 ∧
          lru.Cache_Len c' = lru.Cache_Len examples.lru_k1_k2 ∧
          lru.cache c' = lru.cache examples.lru_k1_k2 ∧
          lru.elems c' = lru.elems examples.lru_k1_k2.
Proof.
  split; [exact wf_lru_k1_k2|].
  destruct (lru_Get_changes_only_recency examples.lru_k1_k2 "k1" wf_lru_k1_k2)
    as (c' & r & Hget & Hn & Hlen & Hmap & _ & Hel & _).
  exists c', r. repeat split; assumption.
Defined.

(** ** The consistent-hash ring *)

Section consistenthash_properties.
Import consistenthash.
Implicit Types (m : Map) (a : list Z) (f : nat → bool).

(** *** Binary search *)

Lemma Search_loop_spec f n turns i j :
  (∀ p q, (p ≤ q < n)%nat → f p = true → f q = true) →
  (j - i ≤ turns)%nat → (i ≤ j ≤ n)%nat →
  (∀ p, (p < i)%nat → f p = false) →
  (∀ q, (j ≤ q < n)%nat → f q = true) →
  let r := Search_loop turns f i j in
  (i ≤ r ≤ j)%nat ∧ (∀ p, (p < r)%nat → f p = false) ∧
  (∀ q, (r ≤ q < n)%nat → f q = true).
Proof.
  intros Hmono. revert i j.
  induction turns as [|turns IH]; intros i j Hturns Hij Hlo Hhi; cbn [Search_loop].
  - assert (i = j) as -> by lia. split; [lia|]. split; [done|done].
  - destruct (decide (i < j)%nat) as [Hlt|Hge].
    + assert (i ≤ (i + j) / 2 < j)%nat as Hh.
      { split; [apply Nat.div_le_lower_bound; lia|].
        apply Nat.Div0.div_lt_upper_bound; lia. }
      destruct (f ((i + j) / 2)%nat) eqn:Hf.
      * destruct (IH i ((i + j) / 2)%nat) as (Hr & Hlo' & Hhi'); [lia|lia|done| |].
        { intros q Hq. apply (Hmono ((i + j) / 2)%nat); [lia|done]. }
        split; [lia|]. split; [done|done].
      * destruct (IH ((i + j) / 2 + 1)%nat j) as (Hr & Hlo' & Hhi'); [lia|lia| |done|].
        { intros p Hp. destruct (f p) eqn:Hfp; [|done].
          rewrite <-Hf. symmetry. apply (Hmono p); [lia|done]. }
        split; [lia|]. split; [done|done].
    + assert (i = j) as -> by lia. split; [lia|]. split; [done|done].
Qed.

Lemma Search_spec f n :
  (∀ p q, (p ≤ q < n)%nat → f p = true → f q = true) →
  (Search n f ≤ n)%nat ∧ (∀ p, (p < Search n f)%nat → f p = false) ∧
  (∀ q, (Search n f ≤ q < n)%nat → f q = true).
Proof.
  intros Hmono. unfold Search.
  destruct (Search_loop_spec f n n 0%nat n Hmono) as (Hr & Hlo & Hhi);
    [lia|lia|intros; lia|intros; lia|].
  split; [lia|]. split; [done|done].
Qed.

Lemma Sorted_lookup_le a i j x y :
  Sorted Z.le a → (i ≤ j)%nat → a !! i = Some x → a !! j = Some y → x ≤ y.
Proof.
  intros Hs%Sorted_StronglySorted; [|apply _]. revert i j.
  induction Hs as [|z a Hs IH Hall]; intros i j Hij Hi Hj; [done|].
  destruct i as [|i], j as [|j]; simpl in *; simplify_eq; [lia| |lia|by eapply IH; [|done..]; lia].
  rewrite Forall_lookup in Hall. by eapply Hall.
Qed.

(** On a sorted slice [sort.SearchInts] finds the lower bound. *)
Lemma SearchInts_lower_bound a x :
  Sorted Z.le a → lower_bound a x (SearchInts a x).
Proof.
  intros Hs. unfold SearchInts.
  set (f := fun i : nat => bool_decide (x ≤ (a !!! i : Z))).
  destruct (Search_spec f (length a)) as (Hr & Hlo & Hhi).
  { intros p q Hpq. unfold f. rewrite !bool_decide_eq_true. intros Hp.
    destruct (lookup_lt_is_Some_2 a p) as [xp Hxp]; [lia|].
    destruct (lookup_lt_is_Some_2 a q) as [xq Hxq]; [lia|].
    rewrite (list_lookup_total_correct _ _ _ Hxp) in Hp.
    rewrite (list_lookup_total_correct _ _ _ Hxq).
    pose proof (Sorted_lookup_le a p q xp xq Hs ltac:(lia) Hxp Hxq). lia. }
  split; [done|]. split.
  - intros j y Hj Hy. specialize (Hlo j Hj). unfold f in Hlo.
    rewrite bool_decide_eq_false, (list_lookup_total_correct _ _ _ Hy) in Hlo. lia.
  - intros y Hy. pose proof (lookup_lt_Some _ _ _ Hy) as Hlt.
    specialize (Hhi (Search (length a) f) ltac:(lia)).
    apply bool_decide_eq_true in Hhi.
    by rewrite (list_lookup_total_correct _ _ _ Hy) in Hhi.
Qed.

(** When every element is below [x] the search returns [len(a)], sorted or
    not. *)
Lemma SearchInts_all_below a x :
  (∀ y, y ∈ a → y < x) → SearchInts a x = length a.
Proof.
  intros Hall. unfold SearchInts.
  set (f := fun i : nat => bool_decide (x ≤ (a !!! i : Z))).
  assert (∀ p, (p < length a)%nat → f p = false) as Hf.
  { intros p Hp. unfold f. apply bool_decide_eq_false.
    destruct (lookup_lt_is_Some_2 a p Hp) as [xp Hxp].
    rewrite (list_lookup_total_correct _ _ _ Hxp).
    pose proof (Hall xp (list_elem_of_lookup_2 _ _ _ Hxp)). lia. }
  destruct (Search_spec f (length a)) as (Hr & Hlo & Hhi).
  { intros p q Hpq Hp. rewrite Hf in Hp by lia. done. }
  destruct (decide (Search (length a) f = length a)) as [|Hne]; [done|].
  specialize (Hhi (Search (length a) f) ltac:(lia)).
  rewrite Hf in Hhi by lia. done.
Qed.

(** The lower bound of a hash that is on the sorted ring is one of its
    positions. *)
Lemma lower_bound_present a x i :
  Sorted Z.le a → x ∈ a → lower_bound a x i → a !! i = Some x.
Proof.
  intros Hs Hin (Hlen & Hlo & Hhi).
  apply list_elem_of_lookup_1 in Hin as [p Hp].
  destruct (decide (p < i)%nat) as [Hlt|Hge].
  { specialize (Hlo p x Hlt Hp). lia. }
  destruct (lookup_lt_is_Some_2 a i) as [y Hy].
  { apply lookup_lt_Some in Hp. lia. }
  pose proof (Hhi y Hy).
  pose proof (Sorted_lookup_le a i p y x Hs ltac:(lia) Hy Hp).
  rewrite Hy. f_equal. lia.
Qed.

Lemma lower_bound_unique a x i j :
  lower_bound a x i → lower_bound a x j → i = j.
Proof.
  assert (∀ i j, lower_bound a x i → lower_bound a x j → ¬ (i < j)%nat) as Hlt.
  { clear i j. intros i j (Hi & _ & Hhi) (Hj & Hlo & _) Hij.
    destruct (lookup_lt_is_Some_2 a i) as [y Hy]; [lia|].
    specialize (Hhi y Hy). specialize (Hlo i y Hij Hy). lia. }
  intros Hi Hj. pose proof (Hlt i j Hi Hj). pose proof (Hlt j i Hj Hi). lia.
Qed.

(** *** The shape of the ring after [Add] *)

Lemma lookup_inserts key hm hs z :
  inserts key hm hs !! z = if decide (z ∈ hs) then Some key else hm !! z.
Proof.
  unfold inserts. revert hm. induction hs as [|h hs IH]; intros hm; simpl.
  - done.
  - rewrite IH, lookup_insert.
    destruct (decide (z ∈ hs)), (decide (z ∈ h :: hs)) as [Hc|Hc], (decide (h = z));
      try done; rewrite elem_of_cons in Hc; exfalso; intuition congruence.
Qed.

Lemma lookup_deletes hm hs z :
  deletes hm hs !! z = if decide (z ∈ hs) then None else hm !! z.
Proof.
  unfold deletes. revert hm. induction hs as [|h hs IH]; intros hm; simpl.
  - done.
  - rewrite IH, lookup_delete.
    destruct (decide (z ∈ hs)), (decide (z ∈ h :: hs)) as [Hc|Hc], (decide (h = z));
      try done; rewrite elem_of_cons in Hc; exfalso; intuition congruence.
Qed.

Lemma Add_replicas_spec key (turns : list Z) m :
  let m' := foldl (Add_replica key) m turns in
  hash m' = hash m ∧ replicas m' = replicas m ∧
  keys m' = keys m ++ ((fun i => vhash m i key) <$> turns) ∧
  hashMap m' = inserts key (hashMap m) ((fun i => vhash m i key) <$> turns).
Proof.
  revert m. induction turns as [|i turns IH]; intros m; simpl.
  - by rewrite app_nil_r.
  - destruct (IH (Add_replica key m i)) as (Hh & Hr & Hk & Hm).
    rewrite Hh, Hr, Hk, Hm. simpl. split; [done|]. split; [done|].
    by rewrite <-app_assoc.
Qed.

Lemma Add_key_spec m key :
  hash (Add_key m key) = hash m ∧ replicas (Add_key m key) = replicas m ∧
  keys (Add_key m key) = keys m ++ vhashes m key ∧
  hashMap (Add_key m key) = inserts key (hashMap m) (vhashes m key).
Proof. apply Add_replicas_spec. Qed.

Lemma Add_sorted m ks : Sorted Z.le (keys (Add m ks)).
Proof. unfold Add, sort_Ints. simpl. apply Sorted_merge_sort. apply _. Qed.

(** *** The loop of [Remove] *)

Lemma Remove_turns_cons key m i turns :
  Remove_turns key m (i :: turns)
  = do m' <- Remove_replica key m i; Remove_turns key m' turns.
Proof.
  unfold Remove_turns. simpl.
  destruct (Remove_replica key m i) as [m'| |]; simpl; [done|..].
  - induction turns as [|j turns IH]; simpl; done.
  - induction turns as [|j turns IH]; simpl; done.
Qed.

Lemma Remove_turns_app key m turns1 turns2 :
  Remove_turns key m (turns1 ++ turns2)
  = do m' <- Remove_turns key m turns1; Remove_turns key m' turns2.
Proof.
  revert m. induction turns1 as [|i turns1 IH]; intros m; [done|].
  rewrite <-app_comm_cons, !Remove_turns_cons.
  destruct (Remove_replica key m i) as [m'| |]; simpl; [apply IH|done..].
Qed.

Lemma StronglySorted_sublist (R : relation Z) (l1 l2 : list Z) :
  l1 `sublist_of` l2 → StronglySorted R l2 → StronglySorted R l1.
Proof.
  induction 1 as [|x l1 l2 Hsub IH|x l1 l2 Hsub IH]; intros Hs; [done|..].
  - apply StronglySorted_inv in Hs as [Hs Hall]. constructor; [by apply IH|].
    rewrite Forall_forall in Hall |- *. intros y Hy. apply Hall.
    by eapply elem_of_sublist.
  - apply StronglySorted_inv in Hs as [Hs _]. by apply IH.
Qed.

Lemma Sorted_sublist (l1 l2 : list Z) :
  l1 `sublist_of` l2 → Sorted Z.le l2 → Sorted Z.le l1.
Proof.
  intros Hsub Hs. apply StronglySorted_Sorted.
  eapply StronglySorted_sublist; [done|]. apply Sorted_StronglySorted; [apply _|done].
Qed.

(** One turn either panics, when the search returns [len(m.keys)], or
    splices out the element at the index found. *)
Lemma Remove_replica_cases key m i :
  let idx := SearchInts (keys m) (vhash m i key) in
  (idx = length (keys m) ∧ Remove_replica key m i = Panic) ∨
  ((idx < length (keys m))%nat ∧
   Remove_replica key m i
   = Ret {| hash := hash m; replicas := replicas m;
            keys := delete idx (keys m);
            hashMap := delete (vhash m i key) (hashMap m) |}).
Proof.
  intros idx. unfold Remove_replica. fold idx.
  destruct (decide (idx + 1 ≤ length (keys m))%nat) as [Hle|Hgt].
  - right. split; [lia|]. by rewrite delete_take_drop, Nat.add_1_r.
  - left. split; [|done].
    assert (idx ≤ length (keys m))%nat; [|lia].
    unfold idx, SearchInts.
    set (f := fun i0 : nat => bool_decide (vhash m i key ≤ (keys m !!! i0 : Z))).
    clearbody f. unfold Search.
    assert (∀ turns f i j, (i ≤ j)%nat → (Search_loop turns f i j ≤ j)%nat) as Hb.
    { clear. induction turns as [|turns IH]; intros f i j Hij; cbn [Search_loop]; [done|].
      destruct (decide (i < j)%nat); [|done].
      assert (i ≤ (i + j) / 2 < j)%nat as Hh.
      { split; [apply Nat.div_le_lower_bound; lia|].
        apply Nat.Div0.div_lt_upper_bound; lia. }
      destruct (f ((i + j) / 2)%nat).
      - specialize (IH f i ((i + j) / 2)%nat). lia.
      - apply IH. lia. }
    apply Hb. lia.
Qed.

Lemma Remove_replica_inv key m i m' :
  Remove_replica key m i = Ret m' →
  hash m' = hash m ∧ replicas m' = replicas m ∧
  keys m' `sublist_of` keys m ∧
  hashMap m' = delete (vhash m i key) (hashMap m).
Proof.
  destruct (Remove_replica_cases key m i) as [[_ ->]|[_ ->]]; [done|].
  intros [= <-]. simpl. repeat split; try done. apply sublist_delete.
Qed.

Lemma Remove_turns_inv key turns m m' :
  Remove_turns key m turns = Ret m' →
  hash m' = hash m ∧ replicas m' = replicas m ∧ keys m' `sublist_of` keys m.
Proof.
  revert m. induction turns as [|i turns IH]; intros m.
  - intros [= <-]. done.
  - rewrite Remove_turns_cons.
    destruct (Remove_replica key m i) as [m1| |] eqn:Hrm; simpl; [|done..].
    intros Hrest. destruct (IH _ Hrest) as (Hh & Hr & Hk).
    destruct (Remove_replica_inv _ _ _ _ Hrm) as (Hh1 & Hr1 & Hk1 & _).
    split; [congruence|]. split; [congruence|]. by etrans.
Qed.

(** The turns that return take one entry each out of [keys], and delete
    the map entries of the hashes they compute. *)
Lemma Remove_turns_removed key turns m m' :
  Remove_turns key m turns = Ret m' →
  ∃ gone, keys m ≡ₚ keys m' ++ gone ∧ length gone = length turns ∧
          hashMap m' = deletes (hashMap m) ((fun i => vhash m i key) <$> turns).
Proof.
  revert m. induction turns as [|i turns IH]; intros m.
  - intros [= <-]. exists []. by rewrite app_nil_r.
  - rewrite Remove_turns_cons.
    destruct (Remove_replica_cases key m i) as [[_ ->]|[Hlt Hrm]]; [done|].
    rewrite Hrm. simpl. intros Hrest.
    destruct (IH _ Hrest) as (gone & Hperm & Hlen & Hmap). simpl in *.
    destruct (lookup_lt_is_Some_2 _ _ Hlt) as [k Hk].
    exists (k :: gone). split; [|split].
    + rewrite (delete_Permutation _ _ _ Hk), Hperm.
      by rewrite Permutation_middle.
    + simpl. by rewrite Hlen.
    + rewrite Hmap. done.
Qed.

(** On a ring without duplicates, a call that returns although one of the
    hashes it computes is absent has taken out an entry that is not among
    the hashes of the node. *)
Lemma Remove_turns_foreign key (i : Z) (before after : list Z) m m' :
  NoDup (keys m) → vhash m i key ∉ keys m →
  Remove_turns key m (before ++ i :: after) = Ret m' →
  ∃ k, k ∈ keys m ∧ (k ∉ keys m') ∧
       (k ∉ (fun j => vhash m j key) <$> (before ++ i :: after)).
Proof.
  intros Hnd Hnin Hrm.
  destruct (Remove_turns_removed _ _ _ _ Hrm) as (gone & Hperm & Hlen & _).
  rewrite Hperm in Hnd. apply NoDup_app in Hnd as (_ & Hdisj & Hndg).
  set (hs := (fun j => vhash m j key) <$> (before ++ i :: after)).
  destruct (decide (Forall (fun k => k ∈ hs) gone)) as [Hall|Hex].
  - exfalso.
    set (rest := ((fun j => vhash m j key) <$> before)
                 ++ ((fun j => vhash m j key) <$> after)).
    assert (gone ⊆+ rest) as Hsub.
    { apply NoDup_submseteq; [done|]. intros k Hk.
      rewrite Forall_forall in Hall. specialize (Hall k Hk).
      unfold hs in Hall. rewrite fmap_app, fmap_cons in Hall.
      apply elem_of_app in Hall as [Hb|Hc]; [apply elem_of_app; by left|].
      apply elem_of_cons in Hc as [->|Ha]; [|apply elem_of_app; by right].
      exfalso. apply Hnin. rewrite Hperm. apply elem_of_app. by right. }
    apply submseteq_length in Hsub. unfold rest in Hsub.
    rewrite Hlen, !length_app, !length_fmap in Hsub. simpl in Hsub. lia.
  - apply not_Forall_Exists in Hex; [|apply _].
    apply Exists_exists in Hex as (k & Hk & Hnk). exists k.
    split; [rewrite Hperm; apply elem_of_app; by right|].
    split; [|done]. intros Hk'. by apply (Hdisj k).
Qed.

Lemma Remove_turns_not_Diverges key turns m :
  Remove_turns key m turns ≠ Diverges.
Proof.
  revert m. induction turns as [|i turns IH]; intros m; [done|].
  rewrite Remove_turns_cons.
  destruct (Remove_replica_cases key m i) as [[_ ->]|[_ ->]]; simpl; [done|apply IH].
Qed.

(** A turn for a hash that is on the sorted ring takes out one occurrence of
    that hash. *)
Lemma Remove_replica_present key m i :
  Sorted Z.le (keys m) → vhash m i key ∈ keys m →
  ∃ m', Remove_replica key m i = Ret m' ∧
        hash m' = hash m ∧ replicas m' = replicas m ∧
        Sorted Z.le (keys m') ∧ keys m ≡ₚ vhash m i key :: keys m' ∧
        hashMap m' = delete (vhash m i key) (hashMap m).
Proof.
  intros Hs Hin.
  pose proof (SearchInts_lower_bound (keys m) (vhash m i key) Hs) as Hlb.
  pose proof (lower_bound_present _ _ _ Hs Hin Hlb) as Hidx.
  destruct (Remove_replica_cases key m i) as [[Hlen _]|[_ Hrm]].
  { apply lookup_lt_Some in Hidx. lia. }
  eexists. split; [exact Hrm|]. simpl. split; [done|]. split; [done|].
  split; [|split; [|done]].
  - eapply Sorted_sublist; [apply sublist_delete|done].
  - by apply delete_Permutation.
Qed.

Lemma Remove_turns_present key (turns : list Z) m base :
  Sorted Z.le (keys m) →
  keys m ≡ₚ base ++ ((fun i => vhash m i key) <$> turns) →
  ∃ m', Remove_turns key m turns = Ret m' ∧
        hash m' = hash m ∧ replicas m' = replicas m ∧
        Sorted Z.le (keys m') ∧ keys m' ≡ₚ base ∧
        hashMap m' = deletes (hashMap m) ((fun i => vhash m i key) <$> turns).
Proof.
  revert m. induction turns as [|i turns IH]; intros m Hs Hperm.
  - exists m. simpl in Hperm. rewrite app_nil_r in Hperm. done.
  - rewrite Remove_turns_cons. simpl in Hperm.
    destruct (Remove_replica_present key m i Hs) as (m1 & Hrm & Hh & Hr & Hs1 & Hp1 & Hm1).
    { rewrite Hperm. apply elem_of_app. right. apply elem_of_cons. by left. }
    rewrite Hrm. simpl.
    assert ((fun i0 => vhash m1 i0 key) <$> turns = (fun i0 => vhash m i0 key) <$> turns) as Heq.
    { apply list_fmap_ext. intros ? ? _. unfold vhash. by rewrite Hh. }
    destruct (IH m1 Hs1) as (m' & Hrest & Hh' & Hr' & Hs' & Hp' & Hm').
    { rewrite Heq. apply (Permutation_cons_inv (a := vhash m i key)).
      rewrite <-Hp1, Hperm. by rewrite Permutation_middle. }
    exists m'. split; [done|]. split; [congruence|]. split; [congruence|].
    split; [done|]. split; [done|]. rewrite Hm', Heq, Hm1. done.
Qed.

(** *** The specified properties of the ring *)

(** C4. On an empty ring [Get] returns the empty string.  On a non-empty
    sorted ring there is exactly one lower bound [i] of [hash(key)] (the
    smallest index whose hash is at least [hash(key)], or [N] when there is
    none), and [Get] returns [hashMap[keys[i mod N]]].  The result depends on
    the hash function, [keys] and [hashMap] only. *)
Theorem consistenthash_Get_lower_bound (m : Map) (key : string) :
  (keys m = [] → Get m key = "") ∧
  (keys m ≠ [] → Sorted Z.le (keys m) →
   (∃ i, lower_bound (keys m) (hash m key) i) ∧
   ∀ i, lower_bound (keys m) (hash m key) i →
        ∃ h, keys m !! (i mod length (keys m))%nat = Some h ∧
             Get m key = default "" (hashMap m !! h)) ∧
  (∀ m', hash m' = hash m → keys m' = keys m → hashMap m' = hashMap m →
         Get m' key = Get m key).
Proof.
  split; [|split].
  - intros Hnil. unfold Get. by rewrite Hnil.
  - intros Hne Hs.
    pose proof (SearchInts_lower_bound (keys m) (hash m key) Hs) as Hlb.
    split; [by eexists|]. intros i Hi.
    rewrite (lower_bound_unique _ _ _ _ Hi Hlb).
    assert (length (keys m) ≠ 0%nat) as Hlen by (by destruct (keys m)).
    destruct (lookup_lt_is_Some_2 (keys m)
                (SearchInts (keys m) (hash m key) mod length (keys m))%nat)
      as [h Hh]; [by apply Nat.mod_upper_bound|].
    exists h. split; [done|]. unfold Get. rewrite decide_False by done.
    fold (SearchInts (keys m) (hash m key)).
    by rewrite (list_lookup_total_correct _ _ _ Hh).
  - intros m' Hh Hk Hm. unfold Get. by rewrite Hh, Hk, Hm.
Qed.

(** C6, as the code has it.  On a sorted ring where no virtual hash of [n]
    is a key of [hashMap], [Add(n)] followed by [Remove(n)] returns and gives
    back the ring: the same [keys], the same [hashMap]. *)
Theorem consistenthash_Add_Remove_restores (m : Map) (n : string) :
  Sorted Z.le (keys m) →
  (∀ h, h ∈ vhashes m n → hashMap m !! h = None) →
  Remove (Add m [n]) n = Ret m.
Proof.
  intros Hs Hfree.
  destruct (Add_key_spec m n) as (Hh & Hr & Hk & Hm).
  set (m1 := Add m [n]).
  assert (hash m1 = hash m) as Hh1 by done.
  assert (replicas m1 = replicas m) as Hr1 by done.
  assert (keys m1 = sort_Ints (keys m ++ vhashes m n)) as Hk1.
  { unfold m1, Add. simpl. by rewrite Hk. }
  assert (hashMap m1 = inserts n (hashMap m) (vhashes m n)) as Hm1 by done.
  assert ((fun i => vhash m1 i n) <$> seqZ 0 (replicas m1) = vhashes m n) as Hvs.
  { unfold vhashes. rewrite Hr1. apply list_fmap_ext. intros ? ? _.
    unfold vhash. by rewrite Hh1. }
  destruct (Remove_turns_present n (seqZ 0 (replicas m1)) m1 (keys m))
    as (m' & Hrm & Hh' & Hr' & Hs' & Hp' & Hm').
  { rewrite Hk1. apply Sorted_merge_sort. apply _. }
  { rewrite Hvs, Hk1. apply merge_sort_Permutation. }
  unfold Remove. rewrite Hrm. f_equal.
  assert (keys m' = keys m) as Hkeys.
  { apply (Sorted_unique Z.le); [done|done|done]. }
  assert (hashMap m' = hashMap m) as Hmap.
  { rewrite Hm', Hvs, Hm1. apply map_eq. intros z.
    rewrite lookup_deletes. case_decide as Hz; [by rewrite Hfree|].
    rewrite lookup_inserts. by rewrite decide_False. }
  destruct m, m'; simpl in *; congruence.
Qed.

(** C9. Take a virtual hash [h] of [n], the one of turn [i].  If [h] exceeds
    every hash on the ring (as on an empty ring), [Remove(n)] panics.  If the
    ring is sorted and [h] is not on it, [Remove(n)] panics, or else turn [i]
    finds the insertion point of [h], where a greater hash [k] stands, and
    splices out [k] while deleting the map entry of [h].  The entry [k] may
    be one of [n] itself.  If the ring has no duplicate and [h] is not on
    it, a call that returns has shortened the ring by [replicas] entries and
    has taken out an entry [k] that is not a virtual hash of [n]: [k] has
    left [keys], its map entry is as it was, and its owner is not [n] where
    the map sends a hash only to a node that has it as a virtual hash. *)
Theorem consistenthash_Remove_absent_hash (m : Map) (n : string) (i : Z) :
  0 ≤ i < replicas m →
  ((∀ k, k ∈ keys m → k < vhash m i n) → Remove m n = Panic) ∧
  (Sorted Z.le (keys m) → vhash m i n ∉ keys m →
   Remove m n = Panic ∨
   ∃ mi idx k mi',
     Remove_turns n m (seqZ 0 i) = Ret mi ∧
     lower_bound (keys mi) (vhash m i n) idx ∧
     keys mi !! idx = Some k ∧ vhash m i n < k ∧
     Remove_replica n mi i = Ret mi' ∧
     keys mi' = delete idx (keys mi) ∧
     hashMap mi' = delete (vhash m i n) (hashMap mi)) ∧
  (NoDup (keys m) → vhash m i n ∉ keys m →
   ∀ m', Remove m n = Ret m' →
         length (keys m) = (length (keys m') + Z.to_nat (replicas m))%nat ∧
         hashMap m' = deletes (hashMap m) (vhashes m n) ∧
         ∃ k, k ∈ keys m ∧ (k ∉ keys m') ∧ (k ∉ vhashes m n) ∧
              hashMap m' !! k = hashMap m !! k ∧
              ∀ n', hashMap m !! k = Some n' → k ∈ vhashes m n' → n' ≠ n).
Proof.
  intros Hi.
  assert (seqZ 0 (replicas m) = seqZ 0 i ++ i :: seqZ (i + 1) (replicas m - i - 1))
    as Hsplit.
  { replace (replicas m) with (i + (replicas m - i)) at 1 by lia.
    rewrite seqZ_app by lia. f_equal. rewrite seqZ_cons by lia.
    replace (0 + i) with i by lia. f_equal. }
  assert (Remove m n
          = do mi <- Remove_turns n m (seqZ 0 i);
            do mi' <- Remove_replica n mi i;
            Remove_turns n mi' (seqZ (i + 1) (replicas m - i - 1))) as Hrem.
  { unfold Remove. rewrite Hsplit, Remove_turns_app.
    destruct (Remove_turns n m (seqZ 0 i)); simpl; [|done..].
    apply Remove_turns_cons. }
  pose proof (Remove_turns_not_Diverges n (seqZ 0 i) m) as Hnd.
  split; [|split].
  - intros Hall. rewrite Hrem.
    destruct (Remove_turns n m (seqZ 0 i)) as [mi| |] eqn:Hpre; simpl; [|done..].
    destruct (Remove_turns_inv _ _ _ _ Hpre) as (Hh & _ & Hsub).
    destruct (Remove_replica_cases n mi i) as [[_ ->]|[Hlt _]]; [done|].
    rewrite SearchInts_all_below in Hlt; [lia|].
    intros y Hy. unfold vhash. rewrite Hh. apply Hall. by eapply elem_of_sublist.
  - intros Hs Hnin. rewrite Hrem.
    destruct (Remove_turns n m (seqZ 0 i)) as [mi| |] eqn:Hpre; simpl;
      [|by left|done].
    destruct (Remove_turns_inv _ _ _ _ Hpre) as (Hh & _ & Hsub).
    assert (vhash mi i n = vhash m i n) as Hv by (unfold vhash; by rewrite Hh).
    pose proof (Sorted_sublist _ _ Hsub Hs) as Hsi.
    pose proof (SearchInts_lower_bound (keys mi) (vhash m i n) Hsi) as Hlb.
    destruct (Remove_replica_cases n mi i) as [[_ Hp]|[Hlt Hrm]].
    { left. by rewrite Hp. }
    right. rewrite Hv in Hlt, Hrm.
    destruct (lookup_lt_is_Some_2 _ _ Hlt) as [k Hk].
    exists mi, (SearchInts (keys mi) (vhash m i n)), k. eexists.
    split; [done|]. split; [done|]. split; [done|]. split; [|by rewrite Hrm].
    destruct Hlb as (_ & _ & Hhi). specialize (Hhi k Hk).
    assert (k ≠ vhash m i n); [|lia]. intros ->. apply Hnin.
    eapply elem_of_sublist; [|done]. by eapply list_elem_of_lookup_2.
  - intros Hnodup Hnin m' Hret.
    destruct (Remove_turns_removed _ _ _ _ Hret) as (gone & Hperm & Hlen & Hmap).
    fold (vhashes m n) in Hmap.
    split; [|split; [exact Hmap|]].
    { rewrite Hperm, length_app, Hlen, length_seqZ. done. }
    unfold Remove in Hret. rewrite Hsplit in Hret.
    destruct (Remove_turns_foreign _ _ _ _ _ _ Hnodup Hnin Hret) as (k & Hk & Hk' & Hv).
    rewrite <-Hsplit in Hv. fold (vhashes m n) in Hv.
    exists k. split; [done|]. split; [done|]. split; [done|]. split.
    + rewrite Hmap, lookup_deletes. by rewrite decide_False.
    + intros n' _ Hown ->. done.
Qed.

End consistenthash_properties.

Lemma Sorted_ring_642 : Sorted Z.le (consistenthash.keys examples.ring_642).
Proof. apply Add_sorted. Qed.

Lemma Remove_sorted (m m' : consistenthash.Map) (n : string) :
  Sorted Z.le (consistenthash.keys m) → consistenthash.Remove m n = Ret m' →
  Sorted Z.le (consistenthash.keys m').
Proof.
  intros Hs Hrm. apply Remove_turns_inv in Hrm as (_ & _ & Hsub).
  by eapply Sorted_sublist.
Qed.

(** C4 at a concrete input: on the ring of the nodes 6, 4 and 2 the key
    "27" is past the last hash, its lower bound is [N = 9], and [Get] wraps
    to index 0, the node "2". *)
Lemma consistenthash_Get_lower_bound_witness :
  consistenthash.keys examples.ring_642 ≠ [] ∧
  Sorted Z.le (consistenthash.keys examples.ring_642) ∧
  consistenthash.lower_bound (consistenthash.keys examples.ring_642) 27 9 ∧
  consistenthash.Get examples.ring_642 "27" = "2" ∧
  consistenthash.Get (consistenthash.New 3 (Some examples.atoi)) "27" = "".
Proof.
  destruct (consistenthash_Get_lower_bound examples.ring_642 "27")
    as (_ & Hget & _).
  destruct (consistenthash_Get_lower_bound
              (consistenthash.New 3 (Some examples.atoi)) "27") as (Hempty & _).
  assert (consistenthash.keys examples.ring_642 ≠ []) as Hne by (by vm_compute).
  assert (consistenthash.lower_bound (consistenthash.keys examples.ring_642) 27 9)
    as Hlb.
  { split; [vm_compute; lia|]. split.
    - intros j y Hj. change (consistenthash.keys examples.ring_642)
        with [2; 4; 6; 12; 14; 16; 22; 24; 26].
      do 9 (destruct j as [|j]; [intros [= <-]; lia|]). lia.
    - intros y. by vm_compute. }
  split; [exact Hne|]. split; [exact Sorted_ring_642|]. split; [exact Hlb|].
  split; [|exact (Hempty eq_refl)].
  destruct (Hget Hne Sorted_ring_642) as [_ Hall].
  destruct (Hall 9%nat Hlb) as (h & Hh & ->).
  vm_compute in Hh. injection Hh as <-. by vm_compute.
Defined.

(** C6 fails when the node is on the ring already.  The ring holds "a";
    [Add("a")] then [Remove("a")] returns a ring with the same [keys] and an
    empty [hashMap]: the key "x", which the ring sent to "a", is now sent to
    no node. *)
Lemma consistenthash_Add_Remove_loses_present_node :
  consistenthash.Remove (consistenthash.Add examples.ring_a ["a"]) "a"
    ≠ Ret examples.ring_a ∧
  consistenthash.Remove (consistenthash.Add examples.ring_a ["a"]) "a"
    = Ret examples.ring_a_again ∧
  consistenthash.keys examples.ring_a_again = consistenthash.keys examples.ring_a ∧
  consistenthash.hashMap examples.ring_a_again = ∅ ∧
  consistenthash.Get examples.ring_a "x" = "a" ∧
  consistenthash.Get examples.ring_a_again "x" = "".
Proof.
  split.
  - intros Heq.
    apply (f_equal (fun o => match o with
                             | Ret m => consistenthash.Get m "x"
                             | _ => "" end)) in Heq.
    vm_compute in Heq. discriminate.
  - repeat split; vm_compute; reflexivity.
Qed.

(** C6 at a concrete input: "8" is not on the ring of 6, 4 and 2. *)
Lemma consistenthash_Add_Remove_restores_witness :
  Sorted Z.le (consistenthash.keys examples.ring_642) ∧
  (∀ h, h ∈ consistenthash.vhashes examples.ring_642 "8" →
        consistenthash.hashMap examples.ring_642 !! h = None) ∧
  consistenthash.keys (consistenthash.Add examples.ring_642 ["8"])
    = [2; 4; 6; 8; 12; 14; 16; 18; 22; 24; 26; 28] ∧
  consistenthash.Remove (consistenthash.Add examples.ring_642 ["8"]) "8"
    = Ret examples.ring_642.
Proof.
  assert (∀ h, h ∈ consistenthash.vhashes examples.ring_642 "8" →
               consistenthash.hashMap examples.ring_642 !! h = None) as Hfree.
  { intros h. change (consistenthash.vhashes examples.ring_642 "8") with [8; 18; 28].
    rewrite !elem_of_cons, elem_of_nil. intros [->|[->|[->|[]]]]; by vm_compute. }
  split; [exact Sorted_ring_642|]. split; [exact Hfree|]. split; [by vm_compute|].
  exact (consistenthash_Add_Remove_restores examples.ring_642 "8" Sorted_ring_642 Hfree).
Defined.

(** C9 at concrete inputs, on the ring of 6, 4 and 2.  The third hash of
    "8" is 28, past every hash: [Remove("8")] panics.  The hashes of "1" are
    1, 11 and 21, none on the ring: the first turn of [Remove("1")] splices
    out 2, and the call returns a ring that has lost the three hashes of the
    node "2", none of them a hash of "1", while the map still sends them to
    "2". *)
Lemma consistenthash_Remove_absent_hash_witness :
  (0 ≤ 2 < consistenthash.replicas examples.ring_642 ∧
   (∀ k, k ∈ consistenthash.keys examples.ring_642 →
         k < consistenthash.vhash examples.ring_642 2 "8") ∧
   consistenthash.Remove examples.ring_642 "8" = Panic) ∧
  (0 ≤ 0 < consistenthash.replicas examples.ring_642 ∧
   Sorted Z.le (consistenthash.keys examples.ring_642) ∧
   (consistenthash.vhash examples.ring_642 0 "1"
      ∉ consistenthash.keys examples.ring_642) ∧
   (consistenthash.Remove examples.ring_642 "1" = Panic ∨
    (∃ mi', consistenthash.Remove_replica "1" examples.ring_642 0 = Ret mi' ∧
            consistenthash.keys mi' = [4; 6; 12; 14; 16; 22; 24; 26])) ∧
   consistenthash.Remove examples.ring_642 "1" = Ret examples.ring_642_less_1 ∧
   consistenthash.keys examples.ring_642_less_1 = [4; 6; 14; 16; 24; 26] ∧
   consistenthash.hashMap examples.ring_642_less_1
     = consistenthash.hashMap examples.ring_642) ∧
  (NoDup (consistenthash.keys examples.ring_642) ∧
   length (consistenthash.keys examples.ring_642)
     = (length (consistenthash.keys examples.ring_642_less_1) + 3)%nat ∧
   ∃ k, k ∈ consistenthash.keys examples.ring_642 ∧
        (k ∉ consistenthash.keys examples.ring_642_less_1) ∧
        (k ∉ consistenthash.vhashes examples.ring_642 "1") ∧
        consistenthash.hashMap examples.ring_642_less_1 !! k = Some "2").
Proof.
  assert (0 ≤ 2 < consistenthash.replicas examples.ring_642) as H2
    by (change (consistenthash.replicas examples.ring_642) with 3; lia).
  assert (0 ≤ 0 < consistenthash.replicas examples.ring_642) as H0
    by (change (consistenthash.replicas examples.ring_642) with 3; lia).
  destruct (consistenthash_Remove_absent_hash examples.ring_642 "8" 2 H2) as [Hpanic _].
  destruct (consistenthash_Remove_absent_hash examples.ring_642 "1" 0 H0)
    as (_ & Hsplice & Hforeign).
  assert (∀ k, k ∈ consistenthash.keys examples.ring_642 →
               k < consistenthash.vhash examples.ring_642 2 "8") as Hall.
  { intros k. change (consistenthash.keys examples.ring_642)
      with [2; 4; 6; 12; 14; 16; 22; 24; 26].
    change (consistenthash.vhash examples.ring_642 2 "8") with 28.
    rewrite !elem_of_cons, elem_of_nil. lia. }
  assert (consistenthash.vhash examples.ring_642 0 "1"
            ∉ consistenthash.keys examples.ring_642) as Hnin.
  { change (consistenthash.keys examples.ring_642)
      with [2; 4; 6; 12; 14; 16; 22; 24; 26].
    change (consistenthash.vhash examples.ring_642 0 "1") with 1.
    rewrite !elem_of_cons, elem_of_nil. lia. }
  split; [|split].
  - split; [exact H2|]. split; [exact Hall|]. exact (Hpanic Hall).
  - split; [exact H0|]. split; [exact Sorted_ring_642|]. split; [exact Hnin|]. split.
    + destruct (Hsplice Sorted_ring_642 Hnin)
        as [Hp|(mi & idx & k & mi' & Hpre & Hlb & Hk & Hlt & Hrm & Hkeys & Hmap)].
      * left. exact Hp.
      * right. injection Hpre as <-. exists mi'. split; [exact Hrm|].
        revert Hrm. vm_compute. by intros [= <-].
    + repeat split; vm_compute; reflexivity.
  - assert (NoDup (consistenthash.keys examples.ring_642)) as Hnodup.
    { apply (bool_decide_unpack _). vm_compute. exact I. }
    assert (consistenthash.Remove examples.ring_642 "1" = Ret examples.ring_642_less_1)
      as Hret by (vm_compute; reflexivity).
    destruct (Hforeign Hnodup Hnin _ Hret)
      as (Hlen & Hmap & k & Hk & Hk' & Hv & Hsame & _).
    split; [exact Hnodup|]. split; [exact Hlen|].
    exists k. split; [exact Hk|]. split; [exact Hk'|]. split; [exact Hv|].
    rewrite Hsame. revert Hk Hk'.
    change (consistenthash.keys examples.ring_642)
      with [2; 4; 6; 12; 14; 16; 22; 24; 26].
    change (consistenthash.keys examples.ring_642_less_1)
      with [4; 6; 14; 16; 24; 26].
    rewrite !elem_of_cons, !elem_of_nil. intros Hk Hk'.
    assert (k = 2 ∨ k = 12 ∨ k = 22) as [-> | [-> | ->]] by lia;
      vm_compute; reflexivity.
Defined.

(** C9 fails on a ring that holds a node twice.  [New(2, atoi)], [Add("5")]
    twice and [Remove("x")] leave the ring [15; 15] with the map entries of
    5 and 15, both of the node "5".  The hash 5 of "5" is not on the ring,
    yet [Remove("5")] returns, without a panic, the empty ring: the entry
    its first turn takes out at the insertion point of 5 is the hash 15,
    an entry of "5" itself, and so is the entry of its second turn. *)
Lemma consistenthash_Remove_splices_own_entries :
  consistenthash.Remove examples.ring_5_5 "x" = Ret examples.ring_15_15 ∧
  consistenthash.keys examples.ring_5_5 = [5; 5; 15; 15] ∧
  consistenthash.keys examples.ring_15_15 = [15; 15] ∧
  Sorted Z.le (consistenthash.keys examples.ring_15_15) ∧
  consistenthash.vhashes examples.ring_15_15 "5" = [5; 15] ∧
  (consistenthash.vhash examples.ring_15_15 0 "5"
     ∉ consistenthash.keys examples.ring_15_15) ∧
  (∀ k, k ∈ consistenthash.keys examples.ring_15_15 →
        consistenthash.hashMap examples.ring_15_15 !! k = Some "5" ∧
        k ∈ consistenthash.vhashes examples.ring_15_15 "5") ∧
  consistenthash.Remove examples.ring_15_15 "5" = Ret examples.ring_15_15_less_5 ∧
  consistenthash.Remove examples.ring_15_15 "5" ≠ Panic ∧
  consistenthash.keys examples.ring_15_15_less_5 = [] ∧
  consistenthash.hashMap examples.ring_15_15_less_5 = ∅ ∧
  (∃ mi', consistenthash.Remove_replica "5" examples.ring_15_15 0 = Ret mi' ∧
          consistenthash.SearchInts (consistenthash.keys examples.ring_15_15) 5 = 0%nat ∧
          consistenthash.keys examples.ring_15_15 !! 0%nat = Some 15 ∧
          consistenthash.keys mi' = [15]).
Proof.
  split; [vm_compute; reflexivity|]. split; [vm_compute; reflexivity|].
  split; [vm_compute; reflexivity|].
  split.
  { apply (Remove_sorted examples.ring_5_5 examples.ring_15_15 "x");
      [apply Add_sorted|vm_compute; reflexivity]. }
  split; [vm_compute; reflexivity|].
  split.
  { change (consistenthash.keys examples.ring_15_15) with [15; 15].
    change (consistenthash.vhash examples.ring_15_15 0 "5") with 5.
    rewrite !elem_of_cons, elem_of_nil. lia. }
  split.
  { intros k. change (consistenthash.keys examples.ring_15_15) with [15; 15].
    change (consistenthash.vhashes examples.ring_15_15 "5") with [5; 15].
    rewrite !elem_of_cons, !elem_of_nil. intros [-> | [-> | []]].
    - split; [vm_compute; reflexivity|]. right. by left.
    - split; [vm_compute; reflexivity|]. right. by left. }
  split; [vm_compute; reflexivity|]. split; [vm_compute; discriminate|].
  split; [vm_compute; reflexivity|]. split; [vm_compute; reflexivity|].
  eexists. split; [vm_compute; reflexivity|].
  split; [vm_compute; reflexivity|]. split; [vm_compute; reflexivity|].
  reflexivity.
Qed.

(** ** The group *)

Section geecache_properties.
Import geecache.

Lemma cache_get_miss (c mc : cache) (key : string) :
  cache_get c key = Ret (mc, None) → mc = c.
Proof.
  unfold cache_get. destruct c as [[l|] cb]; simpl; [|by intros [= <-]].
  unfold lru.Get. destruct (lru.cache l !! key) as [e|].
  - unfold lru.deref. simpl. destruct (lru.elems l !! e); simpl; intros; simplify_eq.
  - simpl. by intros [= <-].
Qed.

Lemma with_mainCache_same (g : Group) : with_mainCache g (mainCache g) = g.
Proof. by destruct g. Qed.

(** [add] is [lru.Add] on the store of the cache. *)
Lemma cache_add_lru (c : cache) (key : string) (value : ByteView) :
  cache_add c key value
  = do l' <- lru.Add (cache_lru c) key value;
    Ret {| lru := Some l'; cacheBytes := cacheBytes c |}.
Proof. done. Qed.

Lemma cache_get_lru (c : cache) (key : string) (l : lru.Cache ByteView) r :
  lru c = Some l → lru.Get l key = Ret (l, r) → cache_get c key = Ret (c, r).
Proof.
  intros Hl Hget. unfold cache_get. rewrite Hl, Hget. simpl.
  destruct c as [l0 cb]. simpl in *. by subst l0.
Qed.

Lemma cache_get_miss_absent (c mc : cache) (key : string) :
  cache_get c key = Ret (mc, None) → lru.cache (cache_lru c) !! key = None.
Proof.
  unfold cache_get, cache_lru. destruct (lru c) as [l|]; [|done].
  unfold lru.Get. destruct (lru.cache l !! key) as [e|]; [|done].
  unfold lru.deref. simpl. destruct (lru.elems l !! e); simpl; intros; simplify_eq.
Qed.

Lemma cache_wf_new (cb : Z) : cache_wf {| lru := None; cacheBytes := cb |}.
Proof. split; [apply wf_New|done]. Qed.

Lemma cache_accounted_new (cb : Z) :
  cache_accounted {| lru := None; cacheBytes := cb |}.
Proof.
  split; [done|]. split; [done|]. intros e kv.
  unfold cache_lru. simpl. by rewrite lookup_empty.
Qed.

Lemma ByteView_size_nonneg (key : string) (value : ByteView) :
  0 ≤ len key + lru.Len value.
Proof. unfold len, lru.Len, ByteView_Len. lia. Qed.

(** What [add] does to a well-formed cache. *)
Lemma cache_add_effect (c mc' : cache) (key : string) (value : ByteView) :
  cache_wf c → cache_add c key value = Ret mc' →
  cache_wf mc' ∧ cacheBytes mc' = cacheBytes c ∧
  ∃ l' l1 e cold,
    lru mc' = Some l' ∧
    lru.stored_in (cache_lru c) key value e l1 ∧ lru.evicted_from l1 cold l' ∧
    (lru.ll l' ≠ [] → cache_get mc' key = Ret (mc', Some value)) ∧
    (lru.ll l' = [] → cache_get mc' key = Ret (mc', None)).
Proof.
  intros [Hwf Hmb]. rewrite cache_add_lru.
  destruct (lru.Add (cache_lru c) key value) as [l'| |] eqn:Hadd; simpl; [|done..].
  intros [= <-].
  destruct (Add_effect _ _ _ _ Hwf Hadd)
    as (Hwf' & l1 & e & cold & Hst & Hwf1 & Hin & Hev).
  destruct (Add_then_Get _ _ _ _ Hwf Hadd) as [Hhit Hmiss].
  split.
  { split; [done|]. unfold cache_lru. simpl.
    destruct Hin as (_ & _ & _ & _ & _ & Hm1 & _).
    destruct Hev as (_ & _ & _ & _ & _ & Hm2 & _). congruence. }
  split; [done|]. exists l', l1, e, cold. split; [done|]. split; [done|].
  split; [done|]. split.
  - intros Hne. by apply (cache_get_lru _ _ l'); [|apply Hhit].
  - intros Hnil. by apply (cache_get_lru _ _ l'); [|apply Hmiss].
Qed.

(** [add] of a key that is not there when the accounting is exact. *)
Lemma cache_add_accounted (c : cache) (key : string) (value : ByteView) :
  cache_wf c → cache_accounted c → lru.cache (cache_lru c) !! key = None →
  lru.stored_bytes (cache_lru c) + (len key + lru.Len value) < 2 ^ 63 →
  (0 ≤ cacheBytes c →
   ∃ mc', cache_add c key value = Ret mc' ∧ cache_wf mc' ∧ cache_accounted mc' ∧
          (cacheBytes c = 0 ∨ len key + lru.Len value ≤ cacheBytes c →
           cache_get mc' key = Ret (mc', Some value)) ∧
          (0 < cacheBytes c < len key + lru.Len value →
           lru.ll (cache_lru mc') = [] ∧ cache_get mc' key = Ret (mc', None))) ∧
  (cacheBytes c < 0 → cache_add c key value = Diverges).
Proof.
  intros [Hwf Hmb] Hacc Hk Hfit.
  destruct (Add_accounted _ key value Hwf Hacc Hk (ByteView_size_nonneg key value) Hfit)
    as [Hpos Hneg].
  rewrite Hmb in Hpos, Hneg. split.
  - intros Hcb. destruct (Hpos Hcb) as (l' & Hadd & Hwf' & Hacc' & Hhit & Hmiss).
    exists {| lru := Some l'; cacheBytes := cacheBytes c |}.
    split; [by rewrite cache_add_lru, Hadd|]. split.
    { apply (cache_add_effect c _ key value); [done|].
      by rewrite cache_add_lru, Hadd. }
    split; [done|]. split.
    + intros Hcase. by apply (cache_get_lru _ _ l'); [|apply Hhit].
    + intros Hcase. destruct (Hmiss Hcase) as [Hnil Hget].
      split; [done|]. by apply (cache_get_lru _ _ l').
  - intros Hcb. by rewrite cache_add_lru, (Hneg Hcb).
Qed.

(** C8. [Get("")] returns the error "key is required" and the group as it
    was, and the call has no event: no lookup in the cache, no addition to
    it, no call of the picker, of a peer or of the getter.  A goroutine at
    the entry of [Get("")] returns in one step that leaves the group as it
    was. *)
Theorem geecache_Get_empty_key (g : Group) :
  Get g "" = Ret (g, (mkByteView [], Some (Errorf "key is required")), []) ∧
  ∀ s t, goroutines s !! t = Some (GAtGet "") →
         ∃ s', gmove s t = Some s' ∧ group s' = group s ∧
               goroutines s' !! t
               = Some (GReturned (mkByteView [], Some (Errorf "key is required"))).
Proof.
  split; [done|]. intros s t Ht. unfold gmove. rewrite Ht. simpl.
  eexists. split; [done|]. split; [done|]. simpl. by rewrite lookup_insert_eq.
Qed.

(** C7. Let [key] be non-empty and miss the local cache.  If a peer is
    picked and its [Get] succeeds, [Group.Get] returns the peer's bytes, the
    group (its [mainCache] included) is as it was, and the events are the
    lookup, the pick and the peer call: nothing is added to the cache.
    If no peer is asked, or the peer fails, and the getter succeeds,
    [Group.Get] is the call [mainCache.add(key, value)] followed by the
    return of the getter's bytes; that addition is the last event of the
    call and the only addition.  On a well-formed cache [add] does not
    panic, and when it returns the cache is well formed, with the same
    budget, and its store is the old one with [value] stored under [key] at
    the front, less the elements the eviction loop took off the back: the
    next lookup of [key] finds [value] unless that loop has emptied the
    store, and misses if it has.  With [cacheBytes = 0] the value is always
    cached.  When the accounting of the store is exact: with a budget that
    is not negative [add] returns and the accounting stays exact, the value
    is cached if the entry fits the budget by itself, and if it does not the
    store is left empty and the value is returned without being cached;
    with a negative budget [add], and [Group.Get] with it, never returns. *)
Theorem geecache_Get_peer_value_not_cached (g : Group) (key : string) (mc : cache) :
  key ≠ "" →
  cache_get (mainCache g) key = Ret (mc, None) →
  (∀ bytes, peer_fetch g key = Some (bytes, None) →
     Get g key = Ret (g, (mkByteView bytes, None),
                      [EvCacheGet key; EvPickPeer key; EvPeerGet (name g) key])) ∧
  (∀ bytes,
     (peer_fetch g key = None ∨ ∃ b e, peer_fetch g key = Some (b, Some e)) →
     Getter_Get (getter g) key = (bytes, None) →
     (∃ tr, Forall (fun e => ¬ is_CacheAdd e) tr ∧
            Get g key
            = do mc' <- cache_add (mainCache g) key (mkByteView bytes);
              Ret (with_mainCache g mc', (mkByteView bytes, None),
                   tr ++ [EvGetterGet key; EvCacheAdd key (mkByteView bytes)])) ∧
     (cache_wf (mainCache g) →
      cache_add (mainCache g) key (mkByteView bytes) ≠ Panic ∧
      (∀ mc', cache_add (mainCache g) key (mkByteView bytes) = Ret mc' →
              cache_wf mc' ∧ cacheBytes mc' = cacheBytes (mainCache g) ∧
              ∃ l' l1 e cold,
                lru mc' = Some l' ∧
                lru.stored_in (cache_lru (mainCache g)) key (mkByteView bytes) e l1 ∧
                lru.evicted_from l1 cold l' ∧
                (lru.ll l' ≠ [] →
                 cache_get mc' key = Ret (mc', Some (mkByteView bytes))) ∧
                (lru.ll l' = [] → cache_get mc' key = Ret (mc', None))) ∧
      (cacheBytes (mainCache g) = 0 →
       ∃ mc', cache_add (mainCache g) key (mkByteView bytes) = Ret mc' ∧
              cache_get mc' key = Ret (mc', Some (mkByteView bytes))) ∧
      (cache_accounted (mainCache g) →
       lru.stored_bytes (cache_lru (mainCache g))
         + (len key + lru.Len (mkByteView bytes)) < 2 ^ 63 →
       (0 ≤ cacheBytes (mainCache g) →
        ∃ mc', cache_add (mainCache g) key (mkByteView bytes) = Ret mc' ∧
               cache_wf mc' ∧ cache_accounted mc' ∧
               (cacheBytes (mainCache g) = 0 ∨
                len key + lru.Len (mkByteView bytes) ≤ cacheBytes (mainCache g) →
                cache_get mc' key = Ret (mc', Some (mkByteView bytes))) ∧
               (0 < cacheBytes (mainCache g)
                  < len key + lru.Len (mkByteView bytes) →
                lru.ll (cache_lru mc') = [] ∧
                cache_get mc' key = Ret (mc', None))) ∧
       (cacheBytes (mainCache g) < 0 →
        cache_add (mainCache g) key (mkByteView bytes) = Diverges ∧
        Get g key = Diverges)))).
Proof.
  intros Hkey Hmiss. pose proof (cache_get_miss _ _ _ Hmiss) as ->. split.
  - intros bytes Hpeer. unfold Get. rewrite decide_False by done.
    rewrite Hmiss. simpl. rewrite with_mainCache_same.
    unfold peer_fetch in Hpeer. unfold load.
    destruct (peers g) as [p|]; [|done].
    destruct (PickPeer p key) as [peer|]; [|done].
    injection Hpeer as Hpeer. unfold getFromPeer. rewrite Hpeer. done.
  - intros bytes Hpeer Hget.
    assert (∃ tr, Forall (fun e => ¬ is_CacheAdd e) tr ∧
                  Get g key
                  = do mc' <- cache_add (mainCache g) key (mkByteView bytes);
                    Ret (with_mainCache g mc', (mkByteView bytes, None),
                         tr ++ [EvGetterGet key; EvCacheAdd key (mkByteView bytes)]))
      as Heq.
    { unfold Get. rewrite decide_False by done.
      rewrite Hmiss. simpl. rewrite with_mainCache_same.
      assert (getLocally g key
              = do mc' <- cache_add (mainCache g) key (mkByteView bytes);
                Ret (with_mainCache g mc', (mkByteView bytes, None),
                     [EvGetterGet key; EvCacheAdd key (mkByteView bytes)])) as Hloc.
      { unfold getLocally. rewrite Hget. unfold populateCache, cloneBytes.
        by destruct (cache_add (mainCache g) key (mkByteView bytes)). }
      unfold peer_fetch in Hpeer. unfold load.
      destruct (peers g) as [p|].
      + destruct (PickPeer p key) as [peer|].
        * destruct Hpeer as [|(b0 & e & Hpeer)]; [done|].
          injection Hpeer as Hpeer. unfold getFromPeer. rewrite Hpeer, Hloc.
          exists [EvCacheGet key; EvPickPeer key; EvPeerGet (name g) key;
                  EvLog "[GeeCache] Failed to get from peer" (Some e)].
          split; [repeat constructor; by intros []|].
          by destruct (cache_add (mainCache g) key (mkByteView bytes)).
        * rewrite Hloc. exists [EvCacheGet key; EvPickPeer key].
          split; [repeat constructor; by intros []|].
          by destruct (cache_add (mainCache g) key (mkByteView bytes)).
      + rewrite Hloc. exists [EvCacheGet key].
        split; [repeat constructor; by intros []|].
        by destruct (cache_add (mainCache g) key (mkByteView bytes)). }
    split; [exact Heq|]. intros Hcwf.
    pose proof (cache_get_miss_absent _ _ _ Hmiss) as Habsent.
    split; [|split; [|split]].
    + rewrite cache_add_lru.
      destruct (lru.Add (cache_lru (mainCache g)) key (mkByteView bytes)) eqn:Hadd;
        [done| |done].
      exfalso. by apply (Add_no_panic _ _ _ (proj1 Hcwf)) in Hadd.
    + intros mc' Hadd. by apply cache_add_effect.
    + intros Hz. destruct Hcwf as [Hwf Hmb]. rewrite <-Hmb in Hz.
      destruct (Add_store_stored_in _ key (mkByteView bytes) Hwf)
        as (l1 & e & Hst & _ & Hin & _).
      assert (lru.Add (cache_lru (mainCache g)) key (mkByteView bytes) = Ret l1) as Hadd.
      { by rewrite Add_no_budget. }
      exists {| lru := Some l1; cacheBytes := cacheBytes (mainCache g) |}.
      split; [by rewrite cache_add_lru, Hadd|].
      apply (cache_get_lru _ _ l1); [done|].
      apply (Add_then_Get _ _ _ _ Hwf Hadd).
      destruct Hin as (-> & _). done.
    + intros Hacc Hfit.
      destruct (cache_add_accounted _ key (mkByteView bytes) Hcwf Hacc Habsent Hfit)
        as [Hpos Hneg].
      split; [exact Hpos|]. intros Hcb. split; [by apply Hneg|].
      destruct Heq as (tr & _ & ->). by rewrite (Hneg Hcb).
Qed.

(** *** Concurrent callers *)

Lemma grun_app (s : system) (acts1 acts2 : list gaction) :
  grun s (acts1 ++ acts2)
  = match grun s acts1 with Some s' => grun s' acts2 | None => None end.
Proof.
  revert s. induction acts1 as [|a acts1 IH]; intros s; simpl; [done|].
  destruct (gstep s a); [apply IH|done].
Qed.

(** A goroutine that calls [Get(key)] on a missing key gets to its load
    whatever the others are doing, and leaves them and the group as they
    are. *)
Lemma to_load_run (s : system) (key : string) (t : nat) (mc : cache) :
  key ≠ "" → cache_get (mainCache (group s)) key = Ret (mc, None) →
  goroutines s !! t = None →
  ∃ p, grun s (to_load (group s) key t)
       = Some {| group := group s; goroutines := <[t := p]> (goroutines s) |} ∧
       loading key p.
Proof.
  intros Hkey Hmiss Hnew. pose proof (cache_get_miss _ _ _ Hmiss) as ->.
  destruct s as [g gs]. simpl in *.
  assert (∀ p q : gpc, <[t := q]> (<[t := p]> gs) = <[t := q]> gs) as Hii.
  { intros. apply insert_insert_eq. }
  unfold to_load. destruct (peers g) as [pk|] eqn:Hpk.
  - destruct (PickPeer pk key) as [peer|] eqn:Hpick.
    + exists (GInPeerGet key peer). split; [|right; by eexists].
      simpl. rewrite Hnew. unfold gmove, set_gpc. simpl.
      rewrite lookup_insert_eq, decide_False by done. rewrite Hmiss. simpl.
      rewrite with_mainCache_same, Hii, lookup_insert_eq, Hpk, Hpick. simpl.
      by rewrite Hii.
    + exists (GInGetter key). split; [|by left].
      simpl. rewrite Hnew. unfold gmove, set_gpc. simpl.
      rewrite lookup_insert_eq, decide_False by done. rewrite Hmiss. simpl.
      rewrite with_mainCache_same, Hii, lookup_insert_eq, Hpk, Hpick. simpl.
      rewrite Hii, lookup_insert_eq. simpl. by rewrite Hii.
  - exists (GInGetter key). split; [|by left].
    simpl. rewrite Hnew. unfold gmove, set_gpc. simpl.
    rewrite lookup_insert_eq, decide_False by done. rewrite Hmiss. simpl.
    rewrite with_mainCache_same, Hii, lookup_insert_eq, Hpk. simpl.
    rewrite Hii, lookup_insert_eq. simpl. by rewrite Hii.
Qed.

Lemma all_to_load_run (g : Group) (key : string) (n : nat) (mc : cache) :
  key ≠ "" → cache_get (mainCache g) key = Ret (mc, None) →
  ∃ s, grun (idle g) (all_to_load g key n) = Some s ∧ group s = g ∧
       (∀ t, (t < n)%nat → ∃ p, goroutines s !! t = Some p ∧ loading key p) ∧
       (∀ t, (n ≤ t)%nat → goroutines s !! t = None).
Proof.
  intros Hkey Hmiss. induction n as [|n (s & Hrun & Hg & Hin & Hout)]; simpl.
  - exists (idle g). split; [done|]. split; [done|]. split; [intros; lia|].
    intros t _. apply lookup_empty.
  - rewrite grun_app, Hrun. rewrite <-Hg in Hmiss |- *.
    destruct (to_load_run s key n mc Hkey Hmiss) as (p & Hp & Hload); [apply Hout; lia|].
    eexists. split; [exact Hp|]. simpl. split; [done|]. split.
    + intros t Ht. destruct (decide (t = n)) as [->|Hne].
      * exists p. by rewrite lookup_insert_eq.
      * rewrite lookup_insert_ne by done. apply Hin. lia.
    + intros t Ht. rewrite lookup_insert_ne by lia. apply Hout. lia.
Qed.

(** C2, as the code has it.  [Group.load] asks the peer or the getter
    directly: for a non-empty key that misses the cache and any number [n] of
    concurrent calls of [Get(key)], the schedule [all_to_load] runs, leaves
    the group as it was, and ends with all [n] loads of [key] in progress at
    once. *)
Theorem geecache_loads_not_coalesced (g : Group) (key : string) (n : nat) (mc : cache) :
  key ≠ "" → cache_get (mainCache g) key = Ret (mc, None) →
  ∃ s, grun (idle g) (all_to_load g key n) = Some s ∧ group s = g ∧
       ∀ t, (t < n)%nat → ∃ p, goroutines s !! t = Some p ∧ loading key p.
Proof.
  intros Hkey Hmiss.
  destruct (all_to_load_run g key n mc Hkey Hmiss) as (s & Hrun & Hg & Hin & _).
  by exists s.
Qed.

End geecache_properties.

(** C2 fails: in a new group two calls of [Get("k")] are both waiting for
    the getter at the same time. *)
Lemma geecache_two_loads_of_one_key :
  geecache.grun (geecache.idle examples.group_v)
    [geecache.GCall 0 "k"; geecache.GMove 0; geecache.GMove 0; geecache.GMove 0;
     geecache.GCall 1 "k"; geecache.GMove 1; geecache.GMove 1; geecache.GMove 1]
  = Some examples.two_callers ∧
  geecache.goroutines examples.two_callers !! 0%nat = Some (geecache.GInGetter "k") ∧
  geecache.goroutines examples.two_callers !! 1%nat = Some (geecache.GInGetter "k") ∧
  ¬ geecache.one_load_per_key examples.two_callers.
Proof.
  split; [vm_compute; reflexivity|].
  split; [vm_compute; reflexivity|]. split; [vm_compute; reflexivity|].
  intros Hone.
  assert (0%nat = 1%nat) as Heq; [|discriminate Heq].
  apply (Hone "k" 0%nat 1%nat (geecache.GInGetter "k") (geecache.GInGetter "k"));
    [vm_compute; reflexivity|vm_compute; reflexivity|by left|by left].
Qed.

(** C8 at a concrete input: a goroutine at the entry of [Get("")] while two
    others are waiting for the getter. *)
Lemma geecache_Get_empty_key_witness :
  geecache.Get examples.group_v ""
    = Ret (examples.group_v,
           (geecache.mkByteView [], Some (geecache.Errorf "key is required")), []) ∧
  geecache.goroutines (geecache.set_gpc examples.two_callers 2 (geecache.GAtGet ""))
    !! 2%nat = Some (geecache.GAtGet "") ∧
  ∃ s', geecache.gmove
          (geecache.set_gpc examples.two_callers 2 (geecache.GAtGet "")) 2 = Some s' ∧
        geecache.group s' = examples.group_v.
Proof.
  destruct (geecache_Get_empty_key examples.group_v) as [Hget Hmove].
  assert (geecache.goroutines
            (geecache.set_gpc examples.two_callers 2 (geecache.GAtGet ""))
            !! 2%nat = Some (geecache.GAtGet "")) as Hat
    by (vm_compute; reflexivity).
  split; [exact Hget|]. split; [exact Hat|].
  destruct (Hmove _ _ Hat) as (s' & Hs' & Hg & _).
  exists s'. split; [exact Hs'|]. rewrite Hg. vm_compute. reflexivity.
Defined.

(** C2 at a concrete input: three calls of [Get("k")] on a group whose
    picker sends every key to a peer. *)
Lemma geecache_loads_not_coalesced_witness :
  "k" ≠ "" ∧
  geecache.cache_get (geecache.mainCache examples.group_with_peer) "k"
    = Ret (geecache.mainCache examples.group_with_peer, None) ∧
  ∃ s, geecache.grun (geecache.idle examples.group_with_peer)
         (geecache.all_to_load examples.group_with_peer "k" 3) = Some s ∧
       ∀ t, (t < 3)%nat → ∃ p, geecache.goroutines s !! t = Some p ∧
                                geecache.loading "k" p.
Proof.
  assert ("k" ≠ "") as Hk by discriminate.
  assert (geecache.cache_get (geecache.mainCache examples.group_with_peer) "k"
          = Ret (geecache.mainCache examples.group_with_peer, None)) as Hmiss
    by reflexivity.
  split; [exact Hk|]. split; [exact Hmiss|].
  destruct (geecache_loads_not_coalesced examples.group_with_peer "k" 3 _ Hk Hmiss)
    as (s & Hrun & _ & Hall).
  exists s. split; [exact Hrun|exact Hall].
Defined.

(** C7 at concrete inputs.  The peer's "p" is returned and the group is as
    it was.  With a budget of 2048 bytes the getter's "v" is returned, added
    to the store that [add] creates, and found by the next lookup; a call
    for "j" on the group that holds "k" adds to the store that is there, and
    "j" is found by the next lookup.  With a budget of one byte the getter's
    "v" is returned and the store is left empty.  With a budget of -1 the
    call never returns. *)
Lemma geecache_Get_peer_value_not_cached_witness :
  ("k" ≠ "" ∧
   geecache.cache_get (geecache.mainCache examples.group_with_peer) "k"
     = Ret (geecache.mainCache examples.group_with_peer, None) ∧
   geecache.Get examples.group_with_peer "k"
     = Ret (examples.group_with_peer, (examples.bv "p", None),
            [geecache.EvCacheGet "k"; geecache.EvPickPeer "k";
             geecache.EvPeerGet "scores" "k"])) ∧
  (geecache.cache_wf (geecache.mainCache examples.group_v) ∧
   geecache.cache_accounted (geecache.mainCache examples.group_v) ∧
   (∃ tr, geecache.Get examples.group_v "k"
          = Ret (examples.group_v_got_k, (examples.bv "v", None),
                 tr ++ [geecache.EvGetterGet "k";
                        geecache.EvCacheAdd "k" (examples.bv "v")])) ∧
   geecache.cache_get (geecache.mainCache examples.group_v_got_k) "k"
     = Ret (geecache.mainCache examples.group_v_got_k, Some (examples.bv "v"))) ∧
  ("j" ≠ "" ∧
   geecache.cache_get (geecache.mainCache examples.group_v_got_k) "j"
     = Ret (geecache.mainCache examples.group_v_got_k, None) ∧
   geecache.lru (geecache.mainCache examples.group_v_got_k) ≠ None ∧
   geecache.cache_wf (geecache.mainCache examples.group_v_got_k) ∧
   geecache.cache_accounted (geecache.mainCache examples.group_v_got_k) ∧
   (∃ tr, geecache.Get examples.group_v_got_k "j"
          = Ret (examples.group_v_got_k_j, (examples.bv "v", None),
                 tr ++ [geecache.EvGetterGet "j";
                        geecache.EvCacheAdd "j" (examples.bv "v")])) ∧
   geecache.cache_get (geecache.mainCache examples.group_v_got_k_j) "j"
     = Ret (geecache.mainCache examples.group_v_got_k_j, Some (examples.bv "v")) ∧
   lru.ll (geecache.cache_lru (geecache.mainCache examples.group_v_got_k_j))
     = [1; 0]%nat) ∧
  (geecache.cache_get (geecache.mainCache examples.group_tiny) "k"
     = Ret (geecache.mainCache examples.group_tiny, None) ∧
   0 < geecache.cacheBytes (geecache.mainCache examples.group_tiny)
     < len "k" + lru.Len (examples.bv "v") ∧
   (∃ tr, geecache.Get examples.group_tiny "k"
          = Ret (examples.group_tiny_got_k, (examples.bv "v", None),
                 tr ++ [geecache.EvGetterGet "k";
                        geecache.EvCacheAdd "k" (examples.bv "v")])) ∧
   lru.ll (geecache.cache_lru (geecache.mainCache examples.group_tiny_got_k)) = [] ∧
   geecache.cache_get (geecache.mainCache examples.group_tiny_got_k) "k"
     = Ret (geecache.mainCache examples.group_tiny_got_k, None)) ∧
  (geecache.cacheBytes (geecache.mainCache examples.group_neg) < 0 ∧
   geecache.Get examples.group_neg "k" = Diverges).
Proof.
  assert ("k" ≠ "") as Hk by discriminate.
  assert ("j" ≠ "") as Hj by discriminate.
  assert (geecache.cache_get (geecache.mainCache examples.group_with_peer) "k"
          = Ret (geecache.mainCache examples.group_with_peer, None)) as Hmiss
    by reflexivity.
  assert (geecache.cache_get (geecache.mainCache examples.group_v) "k"
          = Ret (geecache.mainCache examples.group_v, None)) as Hmiss_v
    by reflexivity.
  assert (geecache.cache_get (geecache.mainCache examples.group_v_got_k) "j"
          = Ret (geecache.mainCache examples.group_v_got_k, None)) as Hmiss_j
    by (vm_compute; reflexivity).
  assert (geecache.cache_get (geecache.mainCache examples.group_tiny) "k"
          = Ret (geecache.mainCache examples.group_tiny, None)) as Hmiss_t
    by reflexivity.
  assert (geecache.cache_get (geecache.mainCache examples.group_neg) "k"
          = Ret (geecache.mainCache examples.group_neg, None)) as Hmiss_n
    by reflexivity.
  destruct (geecache_Get_peer_value_not_cached examples.group_with_peer "k" _ Hk Hmiss)
    as [Hpeer _].
  destruct (geecache_Get_peer_value_not_cached examples.group_v "k" _ Hk Hmiss_v)
    as [_ Hv].
  destruct (geecache_Get_peer_value_not_cached examples.group_v_got_k "j" _ Hj Hmiss_j)
    as [_ Hvj].
  destruct (geecache_Get_peer_value_not_cached examples.group_tiny "k" _ Hk Hmiss_t)
    as [_ Ht].
  destruct (geecache_Get_peer_value_not_cached examples.group_neg "k" _ Hk Hmiss_n)
    as [_ Hn].
  pose proof (cache_wf_new 2048) as Hwf_v.
  pose proof (cache_accounted_new 2048) as Hacc_v.
  (* the store that [add] creates *)
  destruct (Hv (String.list_byte_of_string "v") (or_introl eq_refl) eq_refl)
    as ((tr_v & _ & Heq_v) & Hrest_v).
  destruct (Hrest_v Hwf_v) as (_ & _ & _ & Hexact_v).
  destruct (Hexact_v Hacc_v) as [Hpos_v _]; [by vm_compute|].
  destruct Hpos_v as (mc_v & Hadd_v & Hwf_k & Hacc_k & Hhit_v & _); [by vm_compute|].
  assert (mc_v = geecache.mainCache examples.group_v_got_k) as ->.
  { assert (geecache.cache_add (geecache.mainCache examples.group_v) "k"
              (geecache.mkByteView (String.list_byte_of_string "v"))
            = Ret (geecache.mainCache examples.group_v_got_k)) as Hc
      by (vm_compute; reflexivity).
    congruence. }
  rewrite Hadd_v in Heq_v.
  (* the store that is there *)
  destruct (Hvj (String.list_byte_of_string "v") (or_introl eq_refl) eq_refl)
    as ((tr_j & _ & Heq_j) & Hrest_j).
  destruct (Hrest_j Hwf_k) as (_ & _ & _ & Hexact_j).
  destruct (Hexact_j Hacc_k) as [Hpos_j _]; [by vm_compute|].
  destruct Hpos_j as (mc_j & Hadd_j & _ & _ & Hhit_j & _); [by vm_compute|].
  assert (mc_j = geecache.mainCache examples.group_v_got_k_j) as ->.
  { assert (geecache.cache_add (geecache.mainCache examples.group_v_got_k) "j"
              (geecache.mkByteView (String.list_byte_of_string "v"))
            = Ret (geecache.mainCache examples.group_v_got_k_j)) as Hc
      by (vm_compute; reflexivity).
    congruence. }
  rewrite Hadd_j in Heq_j.
  (* a budget below the size of the entry *)
  destruct (Ht (String.list_byte_of_string "v") (or_introl eq_refl) eq_refl)
    as ((tr_t & _ & Heq_t) & Hrest_t).
  destruct (Hrest_t (cache_wf_new 1)) as (_ & _ & _ & Hexact_t).
  destruct (Hexact_t (cache_accounted_new 1)) as [Hpos_t _]; [by vm_compute|].
  destruct Hpos_t as (mc_t & Hadd_t & _ & _ & _ & Hout_t); [by vm_compute|].
  assert (0 < geecache.cacheBytes (geecache.mainCache examples.group_tiny)
            < len "k" + lru.Len (examples.bv "v")) as Hsmall by (by vm_compute).
  destruct (Hout_t Hsmall) as [Hnil_t Hget_t].
  assert (mc_t = geecache.mainCache examples.group_tiny_got_k) as ->.
  { assert (geecache.cache_add (geecache.mainCache examples.group_tiny) "k"
              (geecache.mkByteView (String.list_byte_of_string "v"))
            = Ret (geecache.mainCache examples.group_tiny_got_k)) as Hc
      by (vm_compute; reflexivity).
    congruence. }
  rewrite Hadd_t in Heq_t.
  (* a negative budget *)
  destruct (Hn (String.list_byte_of_string "v") (or_introl eq_refl) eq_refl)
    as (_ & Hrest_n).
  destruct (Hrest_n (cache_wf_new (-1))) as (_ & _ & _ & Hexact_n).
  destruct (Hexact_n (cache_accounted_new (-1))) as [_ Hneg_n]; [by vm_compute|].
  assert (geecache.cacheBytes (geecache.mainCache examples.group_neg) < 0) as Hneg
    by (by vm_compute).
  split; [|split; [|split; [|split]]].
  - split; [exact Hk|]. split; [exact Hmiss|].
    apply (Hpeer (String.list_byte_of_string "p")). reflexivity.
  - split; [exact Hwf_v|]. split; [exact Hacc_v|]. split.
    + exists tr_v. rewrite Heq_v. reflexivity.
    + apply Hhit_v. right. by vm_compute.
  - split; [exact Hj|]. split; [exact Hmiss_j|]. split; [by vm_compute|].
    split; [exact Hwf_k|]. split; [exact Hacc_k|]. split; [|split].
    + exists tr_j. rewrite Heq_j. reflexivity.
    + apply Hhit_j. right. by vm_compute.
    + vm_compute. reflexivity.
  - split; [exact Hmiss_t|]. split; [exact Hsmall|]. split; [|split].
    + exists tr_t. rewrite Heq_t. reflexivity.
    + exact Hnil_t.
    + exact Hget_t.
  - split; [exact Hneg|]. apply (Hneg_n Hneg).
Defined.

(** C7 fails for a value that does not fit the budget.  In the group made
    with [cacheBytes = 1] the key "k" misses, no peer is asked, and the
    getter answers "v": [Get("k")] returns "v" after the call of
    [mainCache.add("k", "v")], whose eviction loop takes the entry out
    again, as its two bytes are over the budget.  The store is empty after
    the call, the next lookup of "k" misses, and the next [Get("k")] calls
    the getter again.  With [cacheBytes = -1] the call does not return. *)
Lemma geecache_Get_origin_value_not_cached :
  "k" ≠ "" ∧
  geecache.cache_get (geecache.mainCache examples.group_tiny) "k"
    = Ret (geecache.mainCache examples.group_tiny, None) ∧
  geecache.peer_fetch examples.group_tiny "k" = None ∧
  geecache.Getter_Get (geecache.getter examples.group_tiny) "k"
    = (String.list_byte_of_string "v", None) ∧
  geecache.Get examples.group_tiny "k"
    = Ret (examples.group_tiny_got_k, (examples.bv "v", None),
           [geecache.EvCacheGet "k"; geecache.EvGetterGet "k";
            geecache.EvCacheAdd "k" (examples.bv "v")]) ∧
  geecache.lru (geecache.mainCache examples.group_tiny_got_k) ≠ None ∧
  lru.ll (geecache.cache_lru (geecache.mainCache examples.group_tiny_got_k)) = [] ∧
  lru.cache (geecache.cache_lru (geecache.mainCache examples.group_tiny_got_k)) !! "k"
    = None ∧
  geecache.cache_get (geecache.mainCache examples.group_tiny_got_k) "k"
    = Ret (geecache.mainCache examples.group_tiny_got_k, None) ∧
  geecache.Get examples.group_tiny_got_k "k"
    = Ret (examples.group_tiny_got_k, (examples.bv "v", None),
           [geecache.EvCacheGet "k"; geecache.EvGetterGet "k";
            geecache.EvCacheAdd "k" (examples.bv "v")]) ∧
  geecache.Get examples.group_neg "k" = Diverges.
Proof.
  split; [discriminate|]. split; [reflexivity|]. split; [reflexivity|].
  split; [reflexivity|]. split; [vm_compute; reflexivity|].
  split; [vm_compute; discriminate|]. split; [vm_compute; reflexivity|].
  split; [vm_compute; reflexivity|]. split; [vm_compute; reflexivity|].
  split; [vm_compute; reflexivity|]. vm_compute; reflexivity.
Qed.

(** ** The single-flight group *)

Section singleflight_properties.
Import singleflight.
Context {Val Err : Type}.
Implicit Types (g : Group Val Err) (p : pc Val Err) (kf : gmap call_id string).

Lemma inv_zero : inv (Val:=Val) (Err:=Err) ∅ zero.
Proof.
  constructor; simpl.
  - intros c. by rewrite !lookup_empty.
  - intros t p k c Ht. by rewrite lookup_empty in Ht.
  - done.
  - intros t p k c Ht. by rewrite lookup_empty in Ht.
  - intros t1 t2 p1 p2 k1 k2 c Ht. by rewrite lookup_empty in Ht.
  - intros t k c r Hin. by apply elem_of_nil in Hin.
  - intros ? ? ? ? ? ? ? Hin. by apply elem_of_nil in Hin.
  - intros c cl Hc. by rewrite lookup_empty in Hc.
  - intros t p k c Ht. by rewrite lookup_empty in Ht.
  - intros t k c r Ht. by rewrite lookup_empty in Ht.
Qed.

(** Steps of goroutine [t] that keep the history: the map loses entries at
    most, the calls keep their results, and the new program point of [t]
    claims nothing that the old one did not have. *)
Lemma inv_update kf g t p' m' calls' :
  inv kf g →
  (∀ c, match calls' !! c with
        | Some cl' => ∃ cl, calls g !! c = Some cl ∧ val cl' = val cl ∧
                            err cl' = err cl ∧ (wg cl' = 0 → wg cl = 0 ∨ executed g c)
        | None => calls g !! c = None
        end) →
  (∀ mp' k c, m' = Some mp' → mp' !! k = Some c →
              ∃ mp, m g = Some mp ∧ mp !! k = Some c) →
  (∀ t' p k c, t' ≠ t → threads g !! t' = Some p → owns p k c →
               ∃ mp', m' = Some mp' ∧ mp' !! k = Some c) →
  (∀ k c, owns p' k c → ∃ mp', m' = Some mp' ∧ mp' !! k = Some c) →
  (∀ k c, pc_call p' = Some (k, c) → kf !! c = Some k) →
  (∀ k c, owns p' k c → ∃ p, threads g !! t = Some p ∧ owns p k c) →
  (∀ k c, pc_call p' = Some (k, c) → before_result p' = true → ¬ executed g c) →
  (∀ k c, pc_call p' = Some (k, c) → after_result p' = true → executed g c) →
  (∀ k c r, p' = Returned k c r → ∃ t0, (t0, k, c, r) ∈ history g) →
  inv kf {| m := m'; calls := calls'; threads := <[t := p']> (threads g);
            history := history g |}.
Proof.
  intros Hinv Hcalls Hsub Hkeep Hmown Hkf Hown Hbefore Hafter Hret.
  constructor; simpl.
  - intros c. rewrite (inv_dom kf g Hinv). specialize (Hcalls c).
    destruct (calls' !! c) as [cl'|].
    + destruct Hcalls as (cl & -> & _). split; by eexists.
    + rewrite Hcalls. done.
  - intros t' p k c Ht'. rewrite lookup_insert in Ht'. case_decide; simplify_eq.
    + apply Hkf.
    + by eapply inv_pc.
  - intros mp' k c Hm' Hk. destruct (Hsub _ _ _ Hm' Hk) as (mp & Hm & Hmk).
    by eapply inv_map.
  - intros t' p k c Ht' Ho. rewrite lookup_insert in Ht'. case_decide; simplify_eq.
    + by apply Hmown.
    + by eapply Hkeep.
  - intros t1 t2 p1 p2 k1 k2 c Ht1 Ht2 Ho1 Ho2.
    rewrite lookup_insert in Ht1. rewrite lookup_insert in Ht2.
    destruct (decide (t = t1)) as [<-|Hn1], (decide (t = t2)) as [<-|Hn2]; [done|..].
    + injection Ht1 as <-. destruct (Hown k1 c Ho1) as (p0 & Hp0 & Ho0).
      by eapply (inv_owner_unique kf g Hinv t t2 p0 p2 k1 k2 c).
    + injection Ht2 as <-. destruct (Hown k2 c Ho2) as (p0 & Hp0 & Ho0).
      by eapply (inv_owner_unique kf g Hinv t1 t p1 p0 k1 k2 c).
    + by eapply (inv_owner_unique kf g Hinv t1 t2 p1 p2 k1 k2 c).
  - intros t0 k c r Hin. destruct (inv_history kf g Hinv _ _ _ _ Hin) as (H1 & H2 & H3).
    split; [done|]. split.
    + destruct H2 as (cl & Hcl & Hr). specialize (Hcalls c).
      destruct (calls' !! c) as [cl'|]; [|congruence].
      destruct Hcalls as (cl0 & Hcl0 & Hv & He & _). simplify_eq.
      exists cl'. split; [done|]. by rewrite Hv, He.
    + intros t' p k' Ht' Hpc. rewrite lookup_insert in Ht'. case_decide; simplify_eq.
      * apply not_true_is_false. intros Hb.
        apply (Hbefore k' c Hpc Hb). by exists t0, k, r.
      * by eapply H3.
  - apply Hinv.
  - intros c cl' Hcl' Hwg. specialize (Hcalls c). rewrite Hcl' in Hcalls.
    destruct Hcalls as (cl & Hcl & _ & _ & Hz).
    destruct (Hz Hwg) as [Hz0|Hex]; [|done]. by eapply (inv_wg kf g Hinv).
  - intros t' p k c Ht'. rewrite lookup_insert in Ht'. case_decide; simplify_eq.
    + apply Hafter.
    + by eapply (inv_after kf g Hinv).
  - intros t' k c r Ht'. rewrite lookup_insert in Ht'. case_decide; simplify_eq.
    + by eapply Hret.
    + by eapply (inv_returned kf g Hinv).
Qed.

(** Steps that move one goroutine to a new program point and change nothing
    else. *)
Lemma inv_set_pc kf g t p' :
  inv kf g →
  (∀ k c, pc_call p' = Some (k, c) → kf !! c = Some k) →
  (∀ k c, owns p' k c → ∃ p, threads g !! t = Some p ∧ owns p k c) →
  (∀ k c, pc_call p' = Some (k, c) → before_result p' = true → ¬ executed g c) →
  (∀ k c, pc_call p' = Some (k, c) → after_result p' = true → executed g c) →
  (∀ k c r, p' = Returned k c r → ∃ t0, (t0, k, c, r) ∈ history g) →
  inv kf (set_pc g t p').
Proof.
  intros Hinv Hkf Hown Hbefore Hafter Hret. unfold set_pc.
  apply inv_update; try done.
  - intros c. destruct (calls g !! c) as [cl|]; [|done].
    exists cl. repeat split; try done. by left.
  - intros mp' k c -> Hk. by exists mp'.
  - intros t' p k c _ Ht' Ho. by eapply inv_owner_map.
  - intros k c Ho. destruct (Hown k c Ho) as (p & Hp & Ho'). by eapply inv_owner_map.
Qed.

(** The result a goroutine reads from an executed call is the one in the
    history. *)
Lemma inv_read_result kf g k c cl :
  inv kf g → kf !! c = Some k → calls g !! c = Some cl → executed g c →
  ∃ t0, (t0, k, c, (val cl, err cl)) ∈ history g.
Proof.
  intros Hinv Hk Hcl (t0 & k0 & r0 & Hin).
  destruct (inv_history kf g Hinv _ _ _ _ Hin) as (Hk0 & (cl0 & Hcl0 & Hr0) & _).
  simplify_eq. by exists t0.
Qed.

Lemma executed_mono g c (h : list (tid * string * call_id * result (Val:=Val) (Err:=Err))) :
  executed g c →
  executed {| m := m g; calls := calls g; threads := threads g;
              history := history g ++ h |} c.
Proof.
  intros (t & k & r & Hin). exists t, k, r. simpl. apply elem_of_app. by left.
Qed.

(** The first caller for a key: a new call is created and installed. *)
Lemma inv_install kf g t key :
  inv kf g → default ∅ (m g) !! key = None →
  inv (<[fresh (dom (calls g)) := key]> kf) (enter g t key).
Proof.
  intros Hinv Hk. unfold enter. rewrite Hk.
  set (c := fresh (dom (calls g))).
  assert (calls g !! c = None) as Hfresh by (apply not_elem_of_dom, is_fresh).
  assert (kf !! c = None) as Hkfc.
  { apply eq_None_not_Some. rewrite (inv_dom kf g Hinv), Hfresh. by intros [? ?]. }
  assert (∀ k c', default ∅ (m g) !! k = Some c' →
                  m g = Some (default ∅ (m g)) ∧ kf !! c' = Some k ∧ c' ≠ c ∧ k ≠ key)
    as Hold.
  { intros k c' Hkc. destruct (m g) as [mp|] eqn:Hm; simpl in *; [|by rewrite lookup_empty in Hkc].
    split; [done|]. pose proof (inv_map kf g Hinv mp k c' Hm Hkc) as Hkf.
    split; [done|]. split; congruence. }
  constructor; simpl.
  - intros c'. rewrite !lookup_insert. case_decide; [split; by eexists|apply Hinv].
  - intros t' p k c' Ht' Hpc. rewrite lookup_insert in Ht'. case_decide; simplify_eq.
    + simpl in Hpc. simplify_eq. by rewrite lookup_insert_eq.
    + pose proof (inv_pc kf g Hinv _ _ _ _ Ht' Hpc) as Hkf.
      rewrite lookup_insert_ne; [done|congruence].
  - intros mp' k c' [= <-] Hkc. rewrite lookup_insert in Hkc. case_decide; simplify_eq.
    + by rewrite lookup_insert_eq.
    + destruct (Hold k c' Hkc) as (_ & Hkf & Hne & _). by rewrite lookup_insert_ne.
  - intros t' p k c' Ht' [Hpc Ho]. eexists. split; [done|].
    rewrite lookup_insert in Ht'. case_decide; simplify_eq.
    + simpl in Hpc. simplify_eq. by rewrite lookup_insert_eq.
    + destruct (inv_owner_map kf g Hinv t' p k c' Ht') as (mp & Hm & Hkc); [done|].
      rewrite Hm in Hk |- *. simpl in *. rewrite lookup_insert_ne; [done|congruence].
  - intros t1 t2 p1 p2 k1 k2 c0 Ht1 Ht2 [Hpc1 Ho1] [Hpc2 Ho2].
    rewrite lookup_insert in Ht1. rewrite lookup_insert in Ht2.
    destruct (decide (t = t1)) as [<-|Hn1], (decide (t = t2)) as [<-|Hn2]; [done|..].
    + injection Ht1 as <-. simpl in Hpc1. injection Hpc1 as <- <-.
      pose proof (inv_pc kf g Hinv _ _ _ _ Ht2 Hpc2). congruence.
    + injection Ht2 as <-. simpl in Hpc2. injection Hpc2 as <- <-.
      pose proof (inv_pc kf g Hinv _ _ _ _ Ht1 Hpc1). congruence.
    + by eapply (inv_owner_unique kf g Hinv t1 t2 p1 p2 k1 k2 c0).
  - intros t0 k c' r Hin. destruct (inv_history kf g Hinv _ _ _ _ Hin) as (H1 & H2 & H3).
    assert (c' ≠ c) as Hne by congruence.
    split; [by rewrite lookup_insert_ne|]. split; [by rewrite lookup_insert_ne|].
    intros t' p k' Ht' Hpc. rewrite lookup_insert in Ht'. case_decide; simplify_eq.
    + simpl in Hpc. simplify_eq.
    + by eapply H3.
  - apply Hinv.
  - intros c' cl Hcl Hwg. rewrite lookup_insert in Hcl.
    destruct (decide (c = c')) as [<-|Hne]; [by injection Hcl as <-|].
    exact (inv_wg kf g Hinv c' cl Hcl Hwg).
  - intros t' p k c' Ht' Hpc Ha. rewrite lookup_insert in Ht'.
    destruct (decide (t = t')) as [<-|Hne]; [by injection Ht' as <-|].
    exact (inv_after kf g Hinv t' p k c' Ht' Hpc Ha).
  - intros t' k c' r Ht'. rewrite lookup_insert in Ht'.
    destruct (decide (t = t')) as [<-|Hne]; [done|].
    exact (inv_returned kf g Hinv t' k c' r Ht').
Qed.

(** The return of [fn]: the result is stored in the call and recorded. *)
Lemma inv_fn_returns kf g t key c r :
  inv kf g → threads g !! t = Some (InFn key c) →
  inv kf {| m := m g;
            calls := alter (fun cl => mkCall (wg cl) (fst r) (snd r)) c (calls g);
            threads := <[t := AtDone key c]> (threads g);
            history := history g ++ [(t, key, c, r)] |}.
Proof.
  intros Hinv Ht.
  assert (kf !! c = Some key) as Hkfc by (by eapply (inv_pc kf g Hinv)).
  assert (¬ executed g c) as Hnot.
  { intros (t0 & k0 & r0 & Hin).
    destruct (inv_history kf g Hinv _ _ _ _ Hin) as (_ & _ & H3).
    by specialize (H3 t _ key Ht eq_refl). }
  assert (owns (InFn (Val:=Val) (Err:=Err) key c) key c) as Hot by done.
  destruct (proj1 (inv_dom kf g Hinv c)) as [cl0 Hcl0]; [by eexists|].
  constructor; simpl.
  - intros c'. rewrite (inv_dom kf g Hinv), lookup_alter.
    case_decide; [subst; by rewrite fmap_is_Some|done].
  - intros t' p k c' Ht' Hpc. rewrite lookup_insert in Ht'. case_decide; simplify_eq.
    + simpl in Hpc. by simplify_eq.
    + by eapply (inv_pc kf g Hinv).
  - apply Hinv.
  - intros t' p k c' Ht' [Hpc Ho]. rewrite lookup_insert in Ht'. case_decide; simplify_eq.
    + simpl in Hpc. simplify_eq. by eapply (inv_owner_map kf g Hinv).
    + by eapply (inv_owner_map kf g Hinv).
  - intros t1 t2 p1 p2 k1 k2 c0 Ht1 Ht2 [Hpc1 Ho1] [Hpc2 Ho2].
    rewrite lookup_insert in Ht1. rewrite lookup_insert in Ht2.
    destruct (decide (t = t1)) as [<-|Hn1], (decide (t = t2)) as [<-|Hn2]; [done|..].
    + injection Ht1 as <-. simpl in Hpc1. injection Hpc1 as <- <-.
      by eapply (inv_owner_unique kf g Hinv t t2 _ p2 key k2 c Ht Ht2 Hot).
    + injection Ht2 as <-. simpl in Hpc2. injection Hpc2 as <- <-.
      by eapply (inv_owner_unique kf g Hinv t1 t p1 _ k1 key c Ht1 Ht).
    + by eapply (inv_owner_unique kf g Hinv t1 t2 p1 p2 k1 k2 c0).
  - intros t0 k c' r' Hin. apply elem_of_app in Hin as [Hin|Hin].
    + assert (c' ≠ c) as Hne by (intros ->; apply Hnot; by exists t0, k, r').
      destruct (inv_history kf g Hinv _ _ _ _ Hin) as (H1 & H2 & H3).
      split; [done|]. split; [by rewrite lookup_alter_ne|].
      intros t' p k' Ht' Hpc. rewrite lookup_insert in Ht'. case_decide; simplify_eq.
      * done.
      * by eapply H3.
    + apply list_elem_of_singleton in Hin. simplify_eq. split; [done|]. split.
      * rewrite lookup_alter_eq, Hcl0. simpl. eexists. split; [done|]. simpl.
        by destruct r.
      * intros t' p k' Ht' Hpc. rewrite lookup_insert in Ht'. case_decide; simplify_eq.
        -- done.
        -- apply not_true_is_false. intros Hb.
           assert (owns p k' c) as Hop by (split; [done|by destruct p]).
           by pose proof (inv_owner_unique kf g Hinv t' t p _ k' key c Ht' Ht Hop Hot).
  - intros t1 k1 r1 t2 k2 r2 c0 Hin1 Hin2.
    apply elem_of_app in Hin1 as [Hin1|Hin1]; apply elem_of_app in Hin2 as [Hin2|Hin2].
    + by eapply (inv_history_unique kf g Hinv).
    + apply list_elem_of_singleton in Hin2. simplify_eq.
      destruct Hnot. by exists t1, k1, r1.
    + apply list_elem_of_singleton in Hin1. simplify_eq.
      destruct Hnot. by exists t2, k2, r2.
    + apply list_elem_of_singleton in Hin1. apply list_elem_of_singleton in Hin2.
      by simplify_eq.
  - intros c' cl Hcl Hwg. rewrite lookup_alter in Hcl. case_decide; simplify_eq.
    + exists t, key, r. simpl. apply elem_of_app. right. by apply list_elem_of_singleton.
    + apply (executed_mono g). by eapply (inv_wg kf g Hinv).
  - intros t' p k c' Ht' Hpc Ha. rewrite lookup_insert in Ht'. case_decide; simplify_eq.
    + simpl in Hpc. simplify_eq.
      exists t', k, r. simpl. apply elem_of_app. right. by apply list_elem_of_singleton.
    + apply (executed_mono g). by eapply (inv_after kf g Hinv).
  - intros t' k c' r' Ht'. rewrite lookup_insert in Ht'. case_decide; simplify_eq.
    destruct (inv_returned kf g Hinv _ _ _ _ Ht') as [t0 Hin].
    exists t0. apply elem_of_app. by left.
Qed.

Lemma calls_unchanged g (c : call_id) :
  match calls g !! c with
  | Some cl' => ∃ cl, calls g !! c = Some cl ∧ val cl' = val cl ∧
                      err cl' = err cl ∧ (wg cl' = 0 → wg cl = 0 ∨ executed g c)
  | None => calls g !! c = None
  end.
Proof.
  destruct (calls g !! c) as [cl|]; [|done].
  exists cl. repeat split; try done. by left.
Qed.

(** Every step of a goroutine keeps the invariant. *)
Lemma inv_move kf g t g' :
  inv kf g → move g t = Some g' → ∃ kf', inv kf' g'.
Proof.
  intros Hinv. unfold move. destruct (threads g !! t) as [p|] eqn:Ht; [|done].
  destruct p as [key|key c|key c|key c|key c|key c|key c|key c|key c r].
  - (* the head of [Do] *)
    intros [= <-]. destruct (default ∅ (m g) !! key) as [c|] eqn:Hk.
    + exists kf. unfold enter. rewrite Hk.
      destruct (m g) as [mp|] eqn:Hm; simpl in Hk; [|by rewrite lookup_empty in Hk].
      simpl. apply inv_update; try done.
      * apply calls_unchanged.
      * intros mp' k c0 [= ->] Hk0. exists mp'. by rewrite Hm.
      * intros t' p k c0 _ Ht' Ho. rewrite <-Hm. by eapply inv_owner_map.
      * by intros k c0 [_ ?].
      * intros k c0 [= <- <-]. by eapply inv_map.
      * by intros k c0 [_ ?].
    + eexists. by apply inv_install.
  - (* [c.wg.Wait()] *)
    destruct (calls g !! c) as [cl|] eqn:Hcl; [|done].
    destruct (decide (wg cl = 0)) as [Hwg|]; [|done]. intros [= <-]. exists kf.
    apply inv_set_pc; try done.
    + intros k c0 [= <- <-]. by eapply (inv_pc kf g Hinv t).
    + by intros k c0 [_ ?].
    + intros k c0 [= <- <-] _. by eapply (inv_wg kf g Hinv).
  - (* the return of a waiter *)
    destruct (calls g !! c) as [cl|] eqn:Hcl; [|done]. intros [= <-]. exists kf.
    assert (kf !! c = Some key) as Hkf by (by eapply (inv_pc kf g Hinv t)).
    apply inv_set_pc; try done.
    + by intros k c0 [= <- <-].
    + by intros k c0 [_ ?].
    + intros k c0 r [= <- <- <-]. eapply inv_read_result; [done..|].
      by eapply (inv_after kf g Hinv t).
  - (* the call of [fn] *)
    intros [= <-]. exists kf.
    apply inv_set_pc; try done.
    + intros k c0 [= <- <-]. by eapply (inv_pc kf g Hinv t).
    + intros k c0 [[= <- <-] _]. by eexists.
    + intros k c0 [= <- <-] _ (t0 & k0 & r0 & Hin).
      destruct (inv_history kf g Hinv _ _ _ _ Hin) as (_ & _ & H3).
      by specialize (H3 t _ key Ht eq_refl).
  - done.
  - (* [c.wg.Done()] *)
    intros [= <-]. exists kf. apply inv_update; try done.
    + intros c0. rewrite lookup_alter. destruct (decide (c = c0)) as [<-|Hne].
      * destruct (calls g !! c) as [cl|] eqn:Hcl; simpl; [|done].
        exists cl. repeat split; try done. intros _. right.
        by eapply (inv_after kf g Hinv t).
      * apply calls_unchanged.
    + intros mp' k c0 Hm Hk. by exists mp'.
    + intros t' p k c0 _ Ht' Ho. by eapply inv_owner_map.
    + intros k c0 [[= <- <-] _]. by eapply (inv_owner_map kf g Hinv t).
    + intros k c0 [= <- <-]. by eapply (inv_pc kf g Hinv t).
    + intros k c0 [[= <- <-] _]. by eexists.
    + intros k c0 [= <- <-] _. by eapply (inv_after kf g Hinv t).
  - (* [delete(g.m, key)] *)
    intros [= <-]. exists kf.
    destruct (inv_owner_map kf g Hinv t _ key c Ht) as (mp & Hm & Hkc); [done|].
    rewrite Hm. simpl. apply inv_update; try done.
    + apply calls_unchanged.
    + intros mp' k c0 [= <-] Hk. exists mp. split; [done|].
      by apply lookup_delete_Some in Hk as [_ ?].
    + intros t' p k c0 Hne Ht' Ho. eexists. split; [done|].
      destruct (inv_owner_map kf g Hinv t' p k c0 Ht' Ho) as (mp0 & Hm0 & Hk0).
      assert (mp0 = mp) as -> by congruence.
      rewrite lookup_delete_ne; [done|]. intros <-.
      assert (c0 = c) as -> by congruence.
      apply Hne. by eapply (inv_owner_unique kf g Hinv t' t p _ key key c).
    + by intros k c0 [_ ?].
    + intros k c0 [= <- <-]. by eapply (inv_pc kf g Hinv t).
    + by intros k c0 [_ ?].
    + intros k c0 [= <- <-] _. by eapply (inv_after kf g Hinv t).
  - (* the return of the owner *)
    destruct (calls g !! c) as [cl|] eqn:Hcl; [|done]. intros [= <-]. exists kf.
    assert (kf !! c = Some key) as Hkf by (by eapply (inv_pc kf g Hinv t)).
    apply inv_set_pc; try done.
    + by intros k c0 [= <- <-].
    + by intros k c0 [_ ?].
    + intros k c0 r [= <- <- <-]. eapply inv_read_result; [done..|].
      by eapply (inv_after kf g Hinv t).
  - done.
Qed.

Lemma inv_step kf g a g' :
  inv kf g → step g a = Some g' → ∃ kf', inv kf' g'.
Proof.
  intros Hinv. destruct a as [t key|t|t r]; simpl.
  - destruct (threads g !! t) eqn:Ht; [done|]. intros [= <-]. exists kf.
    apply inv_set_pc; try done.
    + by intros k c [_ ?].
  - by apply (inv_move kf).
  - unfold fn_returns. destruct (threads g !! t) as [p|] eqn:Ht; [|done].
    destruct p; try done. intros [= <-]. exists kf. by apply inv_fn_returns.
Qed.

Lemma reachable_inv g : reachable g → ∃ kf, inv kf g.
Proof.
  induction 1 as [|g a g' _ [kf Hinv] Hstep].
  - exists ∅. apply inv_zero.
  - by eapply inv_step.
Qed.

Lemma run_reachable g acts g' :
  reachable g → run g acts = Some g' → reachable g'.
Proof.
  revert g. induction acts as [|a acts IH]; simpl; intros g Hg.
  - by intros [= <-].
  - destruct (step g a) as [g1|] eqn:Hstep; [|done].
    apply IH. by eapply reachable_step.
Qed.

(** A goroutine keeps its key and its call from the moment [c] is set. *)
Lemma step_keeps_call g a g' t p k c :
  step g a = Some g' → threads g !! t = Some p → pc_call p = Some (k, c) →
  ∃ p', threads g' !! t = Some p' ∧ pc_call p' = Some (k, c).
Proof.
  intros Hstep Ht Hpc.
  assert (∀ t0 p0, (t0 = t → pc_call p0 = Some (k, c)) →
            ∃ p', <[t0 := p0]> (threads g) !! t = Some p' ∧ pc_call p' = Some (k, c))
    as Hins.
  { intros t0 p0 Hp0. rewrite lookup_insert. destruct (decide (t0 = t)) as [Heq|Hne].
    - exists p0. split; [done|]. by apply Hp0.
    - by exists p. }
  destruct a as [t0 key|t0|t0 r]; simpl in Hstep.
  - destruct (threads g !! t0) eqn:Ht0; [done|]. injection Hstep as <-. simpl.
    apply Hins. intros ->. congruence.
  - unfold move in Hstep. destruct (threads g !! t0) as [p0|] eqn:Ht0; [|done].
    destruct p0 as [key|key c0|key c0|key c0|key c0|key c0|key c0|key c0|key c0 r].
    + injection Hstep as <-. unfold enter.
      destruct (default ∅ (m g) !! key); simpl; apply Hins; intros ->; simplify_eq.
    + destruct (calls g !! c0) as [cl|]; [|done].
      destruct (decide (wg cl = 0)); [|done]. injection Hstep as <-. simpl.
      apply Hins. intros ->. by simplify_eq.
    + destruct (calls g !! c0) as [cl|]; [|done]. injection Hstep as <-. simpl.
      apply Hins. intros ->. by simplify_eq.
    + injection Hstep as <-. simpl. apply Hins. intros ->. by simplify_eq.
    + done.
    + injection Hstep as <-. simpl. apply Hins. intros ->. by simplify_eq.
    + injection Hstep as <-. simpl. apply Hins. intros ->. by simplify_eq.
    + destruct (calls g !! c0) as [cl|]; [|done]. injection Hstep as <-. simpl.
      apply Hins. intros ->. by simplify_eq.
    + done.
  - unfold fn_returns in Hstep. destruct (threads g !! t0) as [p0|] eqn:Ht0; [|done].
    destruct p0; try done. injection Hstep as <-. simpl.
    apply Hins. intros ->. by simplify_eq.
Qed.

(** *** The wait groups *)

Lemma before_done_owner p : before_done p = true → owner_phase p = true.
Proof. by destruct p. Qed.

Lemma wg_inv_zero : wg_inv (Val:=Val) (Err:=Err) zero.
Proof.
  constructor; simpl.
  - intros c cl. by rewrite lookup_empty.
  - intros t p k c. by rewrite lookup_empty.
  - intros t p k c cl. by rewrite lookup_empty.
  - intros c cl. by rewrite lookup_empty.
Qed.

(** A step of goroutine [t] that leaves the counters as they are. *)
Lemma wg_inv_update g t (po : option (pc Val Err)) p' m' calls' h' :
  wg_inv g → threads g !! t = po →
  (∀ c, wg <$> (calls' !! c) = wg <$> (calls g !! c)) →
  (∀ k c, pc_call p' = Some (k, c) → is_Some (calls g !! c)) →
  (before_done p' = true →
   ∃ p, po = Some p ∧ before_done p = true ∧ pc_call p = pc_call p') →
  (∀ p, po = Some p → before_done p = true →
        before_done p' = true ∧ pc_call p' = pc_call p) →
  wg_inv {| m := m'; calls := calls'; threads := <[t := p']> (threads g);
            history := h' |}.
Proof.
  intros Hwg Ht Hsame Halloc Hnew Hold.
  assert (∀ c cl', calls' !! c = Some cl' →
                   ∃ cl, calls g !! c = Some cl ∧ wg cl = wg cl') as Hback.
  { intros c cl' Hc. specialize (Hsame c). rewrite Hc in Hsame. simpl in Hsame.
    destruct (calls g !! c) as [cl|]; simpl in Hsame; [|done].
    exists cl. split; [done|]. congruence. }
  assert (∀ c, is_Some (calls g !! c) → is_Some (calls' !! c)) as Hfwd.
  { intros c [cl Hc]. specialize (Hsame c). rewrite Hc in Hsame.
    by destruct (calls' !! c). }
  constructor; simpl.
  - intros c cl' Hc. destruct (Hback c cl' Hc) as (cl & Hcl & <-).
    by eapply wg_range.
  - intros t' p k c Ht' Hpc. rewrite lookup_insert in Ht'. apply Hfwd.
    destruct (decide (t = t')) as [<-|Hne].
    + injection Ht' as <-. by eapply Halloc.
    + by eapply wg_alloc.
  - intros t' p k c cl' Ht' Hpc Hbd Hc. rewrite lookup_insert in Ht'.
    destruct (Hback c cl' Hc) as (cl & Hcl & <-).
    destruct (decide (t = t')) as [<-|Hne].
    + injection Ht' as <-. destruct (Hnew Hbd) as (p0 & -> & Hbd0 & Hpc0).
      apply (wg_owner g Hwg t p0 k c cl); [done|congruence|done|done].
    + by apply (wg_owner g Hwg t' p k c cl).
  - intros c cl' Hc Hone. destruct (Hback c cl' Hc) as (cl & Hcl & Hw).
    destruct (wg_live g Hwg c cl Hcl ltac:(congruence))
      as (t0 & p0 & k0 & Ht0 & Hpc0 & Hbd0).
    destruct (decide (t = t0)) as [<-|Hne].
    + exists t, p', k0. rewrite lookup_insert_eq.
      destruct (Hold p0 ltac:(congruence) Hbd0) as [Hbd' Hpc'].
      split; [done|]. split; [congruence|done].
    + exists t0, p0, k0. by rewrite lookup_insert_ne.
Qed.

(** The first caller for a key: [c.wg.Add(1)] on a new call. *)
Lemma wg_inv_install g t key :
  wg_inv g → threads g !! t = Some (AtLock key) →
  default ∅ (m g) !! key = None → wg_inv (enter g t key).
Proof.
  intros Hwg Ht Hk. unfold enter. rewrite Hk.
  assert (calls g !! fresh (dom (calls g)) = None) as Hfresh
    by apply not_elem_of_dom, is_fresh.
  set (c0 := fresh (dom (calls g))) in *.
  constructor; simpl.
  - intros c cl Hc. rewrite lookup_insert in Hc.
    destruct (decide (c0 = c)) as [<-|Hne].
    + injection Hc as <-. by right.
    + by eapply wg_range.
  - intros t' p k c Ht' Hpc. rewrite lookup_insert in Ht'.
    apply lookup_insert_is_Some.
    destruct (decide (c0 = c)) as [|Hnc]; [by left|right]. split; [done|].
    destruct (decide (t = t')) as [<-|Hne].
    + injection Ht' as <-. simpl in Hpc. by injection Hpc as _ <-.
    + by eapply wg_alloc.
  - intros t' p k c cl Ht' Hpc Hbd Hc. rewrite lookup_insert in Ht'.
    destruct (decide (t = t')) as [<-|Hne].
    + injection Ht' as <-. simpl in Hpc. injection Hpc as _ <-.
      rewrite lookup_insert_eq in Hc. by injection Hc as <-.
    + destruct (wg_alloc g Hwg _ _ _ _ Ht' Hpc) as [cl0 Hcl0].
      rewrite lookup_insert_ne in Hc by (intros <-; congruence).
      by eapply (wg_owner g Hwg t' p k c cl).
  - intros c cl Hc Hone. rewrite lookup_insert in Hc.
    destruct (decide (c0 = c)) as [<-|Hne].
    + exists t, (AtFn key c0), key. by rewrite lookup_insert_eq.
    + destruct (wg_live g Hwg c cl Hc Hone) as (t0 & p0 & k0 & Ht0 & Hpc0 & Hbd0).
      exists t0, p0, k0. rewrite lookup_insert_ne; [done|].
      intros <-. rewrite Ht in Ht0. by injection Ht0 as <-.
Qed.

(** [c.wg.Done()] by the owner. *)
Lemma wg_inv_done kf g t key c :
  inv kf g → wg_inv g → threads g !! t = Some (AtDone key c) →
  wg_inv {| m := m g;
            calls := alter (fun cl => mkCall (wg cl - 1) (val cl) (err cl)) c (calls g);
            threads := <[t := AtDelete key c]> (threads g);
            history := history g |}.
Proof.
  intros Hinv Hwg Ht.
  destruct (wg_alloc g Hwg _ _ _ _ Ht eq_refl) as [cl0 Hcl0].
  pose proof (wg_owner g Hwg _ _ _ _ _ Ht eq_refl eq_refl Hcl0) as Hone0.
  constructor; simpl.
  - intros c' cl' Hc'. destruct (decide (c = c')) as [<-|Hne].
    + rewrite lookup_alter_eq, Hcl0 in Hc'. simpl in Hc'. injection Hc' as <-.
      simpl. left. lia.
    + rewrite lookup_alter_ne in Hc' by done. by eapply wg_range.
  - intros t' p k c' Ht' Hpc. rewrite lookup_insert in Ht'.
    assert (is_Some (calls g !! c')) as [cl Hcl].
    { destruct (decide (t = t')) as [<-|Hne].
      - injection Ht' as <-. simpl in Hpc. injection Hpc as _ <-. by exists cl0.
      - by eapply wg_alloc. }
    destruct (decide (c = c')) as [<-|Hne].
    + rewrite lookup_alter_eq, Hcl. done.
    + rewrite lookup_alter_ne by done. by exists cl.
  - intros t' p k c' cl' Ht' Hpc Hbd Hc'. rewrite lookup_insert in Ht'.
    destruct (decide (t = t')) as [<-|Hne].
    + by injection Ht' as <-.
    + destruct (decide (c = c')) as [<-|Hnc].
      * exfalso. apply Hne.
        apply (inv_owner_unique kf g Hinv t t' _ _ key k c Ht Ht'); [done|].
        split; [done|]. by apply before_done_owner.
      * rewrite lookup_alter_ne in Hc' by done.
        by apply (wg_owner g Hwg t' p k c' cl').
  - intros c' cl' Hc' Hone. destruct (decide (c = c')) as [<-|Hnc].
    + rewrite lookup_alter_eq, Hcl0 in Hc'. simpl in Hc'. injection Hc' as <-.
      simpl in Hone. lia.
    + rewrite lookup_alter_ne in Hc' by done.
      destruct (wg_live g Hwg c' cl' Hc' Hone) as (t0 & p0 & k0 & Ht0 & Hpc0 & Hbd0).
      exists t0, p0, k0. rewrite lookup_insert_ne; [done|].
      intros <-. rewrite Ht in Ht0. injection Ht0 as <-. simpl in Hpc0.
      by injection Hpc0 as _ <-.
Qed.

Lemma wg_inv_step kf g a g' : inv kf g → wg_inv g → step g a = Some g' → wg_inv g'.
Proof.
  intros Hinv Hwg. destruct a as [t key|t|t r]; simpl.
  - destruct (threads g !! t) eqn:Ht; [done|]. intros [= <-]. unfold set_pc.
    apply (wg_inv_update g t None); done.
  - unfold move. destruct (threads g !! t) as [p|] eqn:Ht; [|done].
    destruct p as [key|key c|key c|key c|key c|key c|key c|key c|key c r].
    + intros [= <-]. destruct (default ∅ (m g) !! key) as [c|] eqn:Hk.
      * unfold enter. rewrite Hk.
        apply (wg_inv_update g t (Some (AtLock key))); try done.
        -- intros k c' [= <- <-]. destruct (m g) as [mp|] eqn:Hm; simpl in Hk.
           ++ apply (inv_dom kf g Hinv). exists key.
              by apply (inv_map kf g Hinv mp).
           ++ by rewrite lookup_empty in Hk.
        -- by intros p [= <-].
      * by apply wg_inv_install.
    + destruct (calls g !! c) as [cl|] eqn:Hcl; [|done].
      case_decide; [|done]. intros [= <-]. unfold set_pc.
      apply (wg_inv_update g t (Some (AtWait key c))); try done.
      * intros k c' [= <- <-]. by exists cl.
      * by intros p [= <-].
    + destruct (calls g !! c) as [cl|] eqn:Hcl; [|done].
      intros [= <-]. unfold set_pc.
      apply (wg_inv_update g t (Some (AtWaitReturn key c))); try done.
      * intros k c' [= <- <-]. by exists cl.
      * by intros p [= <-].
    + intros [= <-]. unfold set_pc.
      apply (wg_inv_update g t (Some (AtFn key c))); try done.
      * intros k c' [= <- <-]. by apply (wg_alloc g Hwg t _ key c Ht).
      * intros _. by exists (AtFn key c).
      * by intros p [= <-].
    + done.
    + intros [= <-]. by apply (wg_inv_done kf).
    + intros [= <-].
      apply (wg_inv_update g t (Some (AtDelete key c))); try done.
      * intros k c' [= <- <-]. by apply (wg_alloc g Hwg t _ key c Ht).
      * by intros p [= <-].
    + destruct (calls g !! c) as [cl|] eqn:Hcl; [|done].
      intros [= <-]. unfold set_pc.
      apply (wg_inv_update g t (Some (AtReturn key c))); try done.
      * intros k c' [= <- <-]. by exists cl.
      * by intros p [= <-].
    + done.
  - unfold fn_returns. destruct (threads g !! t) as [p|] eqn:Ht; [|done].
    destruct p as [key|key c|key c|key c|key c|key c|key c|key c|key c r0]; try done.
    intros [= <-].
    apply (wg_inv_update g t (Some (InFn key c))); try done.
    + intros c'. rewrite lookup_alter. destruct (decide (c = c')) as [<-|Hne]; [|done].
      by destruct (calls g !! c).
    + intros k c' [= <- <-]. by apply (wg_alloc g Hwg t _ key c Ht).
    + intros _. by exists (InFn key c).
    + by intros p [= <-].
Qed.

Lemma reachable_wg_inv g : reachable g → wg_inv g.
Proof.
  induction 1 as [|g a g' Hreach Hwg Hstep]; [apply wg_inv_zero|].
  destruct (reachable_inv g Hreach) as [kf Hinv]. by eapply wg_inv_step.
Qed.

(** *** Progress *)

(** A step moves the goroutine that takes it and no other. *)
Lemma step_other_thread g a g' t p :
  step g a = Some g' → threads g !! t = Some p → action_tid a ≠ t →
  threads g' !! t = Some p.
Proof.
  intros Hstep Ht Hne.
  assert (∀ p0, <[action_tid a := p0]> (threads g) !! t = Some p) as Hins.
  { intros p0. by rewrite lookup_insert_ne. }
  destruct a as [t0 key|t0|t0 r]; simpl in *.
  - destruct (threads g !! t0); [done|]. injection Hstep as <-. apply Hins.
  - unfold move in Hstep. destruct (threads g !! t0) as [p0|]; [|done].
    destruct p0 as [key|key c|key c|key c|key c|key c|key c|key c|key c r].
    + injection Hstep as <-. unfold enter.
      destruct (default ∅ (m g) !! key); simpl; apply Hins.
    + destruct (calls g !! c) as [cl|]; [|done]. case_decide; [|done].
      injection Hstep as <-. apply Hins.
    + destruct (calls g !! c) as [cl|]; [|done]. injection Hstep as <-. apply Hins.
    + injection Hstep as <-. apply Hins.
    + done.
    + injection Hstep as <-. apply Hins.
    + injection Hstep as <-. apply Hins.
    + destruct (calls g !! c) as [cl|]; [|done]. injection Hstep as <-. apply Hins.
    + done.
  - unfold fn_returns in Hstep. destruct (threads g !! t0) as [p0|]; [|done].
    destruct p0; try done. injection Hstep as <-. apply Hins.
Qed.

(** After [c.wg.Done()] the call is as it is for ever. *)
Lemma step_keeps_done_call g a g' c cl :
  wg_inv g → step g a = Some g' → calls g !! c = Some cl → wg cl = 0 →
  calls g' !! c = Some cl.
Proof.
  intros Hwg Hstep Hcl Hz.
  assert (∀ t p k, threads g !! t = Some p → pc_call p = Some (k, c) →
                   before_done p = true → False) as Hnone.
  { intros t p k Ht Hpc Hbd.
    pose proof (wg_owner g Hwg t p k c cl Ht Hpc Hbd Hcl). lia. }
  destruct a as [t0 key|t0|t0 r]; simpl in *.
  - destruct (threads g !! t0); [done|]. by injection Hstep as <-.
  - unfold move in Hstep. destruct (threads g !! t0) as [p0|] eqn:Ht0; [|done].
    destruct p0 as [key|key c0|key c0|key c0|key c0|key c0|key c0|key c0|key c0 r].
    + injection Hstep as <-. unfold enter.
      destruct (default ∅ (m g) !! key); simpl; [done|].
      rewrite lookup_insert_ne; [done|]. intros Heq.
      pose proof (is_fresh (dom (calls g))) as Hfresh. rewrite Heq in Hfresh.
      apply Hfresh. apply elem_of_dom. by exists cl.
    + destruct (calls g !! c0) as [cl0|]; [|done]. case_decide; [|done].
      by injection Hstep as <-.
    + destruct (calls g !! c0) as [cl0|]; [|done]. by injection Hstep as <-.
    + by injection Hstep as <-.
    + done.
    + injection Hstep as <-. simpl. rewrite lookup_alter_ne; [done|].
      intros ->. by apply (Hnone t0 _ key Ht0).
    + by injection Hstep as <-.
    + destruct (calls g !! c0) as [cl0|]; [|done]. by injection Hstep as <-.
    + done.
  - unfold fn_returns in Hstep. destruct (threads g !! t0) as [p0|] eqn:Ht0; [|done].
    destruct p0 as [key|key c0|key c0|key c0|key c0|key c0|key c0|key c0|key c0 r0];
      try done.
    injection Hstep as <-. simpl. rewrite lookup_alter_ne; [done|].
    intros ->. by apply (Hnone t0 _ key Ht0).
Qed.

(** A goroutine inside [Do] that has not returned can take a step, which
    brings it nearer to its return, unless it is inside [fn] or it waits
    for a call whose owner has not called [c.wg.Done()] yet. *)
Lemma step_progress kf g t p :
  inv kf g → wg_inv g → threads g !! t = Some p →
  (∃ k c, p = InFn k c) ∨ (∃ k c r, p = Returned k c r) ∨
  (∃ g' p', step g (Move t) = Some g' ∧ threads g' !! t = Some p' ∧
            (steps_left p' < steps_left p)%nat) ∨
  (∃ k c t0 p0, p = AtWait k c ∧ t0 ≠ t ∧ threads g !! t0 = Some p0 ∧
                pc_call p0 = Some (k, c) ∧ before_done p0 = true ∧
                step g (Move t) = None).
Proof.
  intros Hinv Hwg Ht. simpl. unfold move. rewrite Ht.
  destruct p as [key|key c|key c|key c|key c|key c|key c|key c|key c r].
  - right. right. left. destruct (default ∅ (m g) !! key) as [c|] eqn:Hk.
    + exists (enter g t key), (AtWait key c). split; [done|].
      unfold enter. rewrite Hk. simpl. rewrite lookup_insert_eq.
      split; [done|]. simpl. lia.
    + exists (enter g t key), (AtFn key (fresh (dom (calls g)))). split; [done|].
      unfold enter. rewrite Hk. simpl. rewrite lookup_insert_eq.
      split; [done|]. simpl. lia.
  - destruct (wg_alloc g Hwg t _ key c Ht eq_refl) as [cl Hcl]. rewrite Hcl.
    destruct (wg_range g Hwg c cl Hcl) as [Hz|Hone].
    + right. right. left. rewrite decide_True by done.
      eexists _, (AtWaitReturn key c). split; [done|]. simpl.
      rewrite lookup_insert_eq. split; [done|]. simpl. lia.
    + right. right. right.
      destruct (wg_live g Hwg c cl Hcl Hone) as (t0 & p0 & k0 & Ht0 & Hpc0 & Hbd0).
      pose proof (inv_pc kf g Hinv t _ key c Ht eq_refl) as Hk.
      pose proof (inv_pc kf g Hinv t0 _ k0 c Ht0 Hpc0) as Hk0.
      assert (k0 = key) as -> by congruence.
      exists key, c, t0, p0. split; [done|]. split.
      { intros ->. rewrite Ht in Ht0. by injection Ht0 as <-. }
      split; [done|]. split; [done|]. split; [done|].
      rewrite decide_False by lia. done.
  - destruct (wg_alloc g Hwg t _ key c Ht eq_refl) as [cl Hcl]. rewrite Hcl.
    right. right. left. eexists _, (Returned key c (val cl, err cl)).
    split; [done|]. simpl. rewrite lookup_insert_eq. split; [done|]. simpl. lia.
  - right. right. left. eexists _, (InFn key c). split; [done|]. simpl.
    rewrite lookup_insert_eq. split; [done|]. simpl. lia.
  - left. by exists key, c.
  - right. right. left. eexists _, (AtDelete key c). split; [done|]. simpl.
    rewrite lookup_insert_eq. split; [done|]. simpl. lia.
  - right. right. left. eexists _, (AtReturn key c). split; [done|]. simpl.
    rewrite lookup_insert_eq. split; [done|]. simpl. lia.
  - destruct (wg_alloc g Hwg t _ key c Ht eq_refl) as [cl Hcl]. rewrite Hcl.
    right. right. left. eexists _, (Returned key c (val cl, err cl)).
    split; [done|]. simpl. rewrite lookup_insert_eq. split; [done|]. simpl. lia.
  - right. left. by exists key, c, r.
Qed.

(** A goroutine that waits for a call whose counter is zero returns in two
    steps the pair of that call, which is the pair [fn] returned. *)
Lemma waiter_returns kf g t k c cl :
  inv kf g → threads g !! t = Some (AtWait k c) → calls g !! c = Some cl →
  wg cl = 0 →
  ∃ g1 g2 t0,
    step g (Move t) = Some g1 ∧ step g1 (Move t) = Some g2 ∧
    threads g2 !! t = Some (Returned k c (val cl, err cl)) ∧
    (t0, k, c, (val cl, err cl)) ∈ history g.
Proof.
  intros Hinv Ht Hcl Hz.
  pose proof (inv_pc kf g Hinv t _ k c Ht eq_refl) as Hk.
  pose proof (inv_wg kf g Hinv c cl Hcl Hz) as Hex.
  destruct (inv_read_result kf g k c cl Hinv Hk Hcl Hex) as [t0 Hin].
  exists (set_pc g t (AtWaitReturn k c)),
         (set_pc (set_pc g t (AtWaitReturn k c)) t (Returned k c (val cl, err cl))),
         t0.
  split.
  { simpl. unfold move. rewrite Ht, Hcl. by rewrite decide_True. }
  split.
  { simpl. unfold move. simpl. rewrite lookup_insert_eq, Hcl. done. }
  split; [|done]. simpl. by rewrite lookup_insert_eq.
Qed.

(** From a state in which [fn] is running for the call [c]: when [fn]
    returns [r], the owner calls [c.wg.Done()], deletes the map entry and
    returns [r]; every goroutine waiting for [c] can then return [r]. *)
Lemma owner_and_waiters_return g t k c r :
  wg_inv g → threads g !! t = Some (InFn k c) →
  ∃ g', run g [FnReturns t r; Move t; Move t; Move t] = Some g' ∧
        threads g' !! t = Some (Returned k c r) ∧
        not_in_flight g' k ∧
        ∀ t', threads g !! t' = Some (AtWait k c) →
              ∃ g'', run g' [Move t'; Move t'] = Some g'' ∧
                     threads g'' !! t' = Some (Returned k c r).
Proof.
  intros Hwg Ht.
  destruct (wg_alloc g Hwg t _ k c Ht eq_refl) as [cl Hcl].
  pose proof (wg_owner g Hwg t _ k c cl Ht eq_refl eq_refl Hcl) as Hone.
  destruct r as [v e].
  eexists. split.
  { simpl. unfold fn_returns. rewrite Ht. simpl.
    unfold move at 1. simpl. rewrite lookup_insert_eq. simpl.
    unfold move at 1. simpl. rewrite lookup_insert_eq. simpl.
    unfold move at 1. simpl. rewrite lookup_insert_eq.
    rewrite !lookup_alter_eq, Hcl. simpl. reflexivity. }
  split; [simpl; by rewrite lookup_insert_eq|]. split.
  { intros mp. simpl. destruct (m g) as [mp0|]; simpl; [|done].
    intros [= <-]. apply lookup_delete_eq. }
  intros t' Ht'.
  assert (t ≠ t') as Hne.
  { intros ->. rewrite Ht in Ht'. done. }
  eexists. split.
  { simpl. unfold move at 1. simpl. rewrite !lookup_insert_ne by done.
    rewrite Ht'. rewrite !lookup_alter_eq, Hcl. simpl.
    rewrite decide_True by lia.
    unfold move at 1. simpl. rewrite lookup_insert_eq.
    rewrite !lookup_alter_eq, Hcl. simpl. reflexivity. }
  simpl. by rewrite lookup_insert_eq.
Qed.

Lemma run_others g acts g' t p :
  run g acts = Some g' → Forall (fun a => action_tid a ≠ t) acts →
  threads g !! t = Some p → threads g' !! t = Some p.
Proof.
  revert g. induction acts as [|a acts IH]; simpl; intros g.
  - by intros [= <-].
  - destruct (step g a) as [g1|] eqn:Hstep; [|done].
    intros Hrun [Ha Hacts]%Forall_cons Ht. apply (IH g1); [done|done|].
    by apply (step_other_thread g a).
Qed.

Lemma run_keeps_done_call g acts g' c cl :
  reachable g → run g acts = Some g' → calls g !! c = Some cl → wg cl = 0 →
  calls g' !! c = Some cl.
Proof.
  revert g. induction acts as [|a acts IH]; simpl; intros g Hreach.
  - by intros [= <-].
  - destruct (step g a) as [g1|] eqn:Hstep; [|done].
    intros Hrun Hcl Hz. apply (IH g1); [by eapply reachable_step|done| |done].
    apply (step_keeps_done_call g a); [by apply reachable_wg_inv|done..].
Qed.

(** C5. In every state the group can reach:
    - at most one goroutine is inside [fn] for a key;
    - a goroutine that arrives at [Do(key, ...)] while [fn] is running for
      [key] takes the waiting branch on the call [c] of that execution, and a
      goroutine keeps its call at every later step;
    - a goroutine that has returned through the call [c] has returned the
      pair that the one execution of [fn] for [c] produced;
    - the step [delete(g.m, key)] leaves no entry for [key], and a goroutine
      that arrives when there is none creates a call of its own, not yet
      executed, and its next step is the call of its own [fn];
    - a running [fn] can return any pair, which is recorded once;
    - a goroutine inside [Do] that has not returned and is not inside [fn]
      can take a step, which brings it nearer to its return, unless it is
      at [c.wg.Wait()] and the owner of [c] is another goroutine that has
      not called [c.wg.Done()] yet, which is then not waiting itself;
    - a goroutine at [c.wg.Wait()] on a call whose counter is zero returns
      in two steps the pair of the call, the one [fn] returned, and it does
      so after any steps of the other goroutines;
    - when the [fn] running for [c] returns [r], its goroutine can call
      [c.wg.Done()], delete the map entry and return [r], and every
      goroutine waiting for [c] can then return [r];
    - a step moves the goroutine that takes it only, and a call whose
      counter is zero stays as it is. *)
Theorem singleflight_Do_coalesces (g : Group Val Err) :
  reachable g →
  (∀ t1 t2 k c1 c2,
     threads g !! t1 = Some (InFn k c1) → threads g !! t2 = Some (InFn k c2) →
     t1 = t2 ∧ c1 = c2) ∧
  (∀ t0 t k c g',
     threads g !! t0 = Some (InFn k c) → threads g !! t = Some (AtLock k) →
     step g (Move t) = Some g' →
     threads g' !! t = Some (AtWait k c) ∧ history g' = history g) ∧
  (∀ a g' t p k c,
     step g a = Some g' → threads g !! t = Some p → pc_call p = Some (k, c) →
     ∃ p', threads g' !! t = Some p' ∧ pc_call p' = Some (k, c)) ∧
  (∀ t k c r,
     threads g !! t = Some (Returned k c r) →
     ∃ t0, (t0, k, c, r) ∈ history g ∧
           ∀ t1 k1 r1, (t1, k1, c, r1) ∈ history g → t1 = t0 ∧ k1 = k ∧ r1 = r) ∧
  (∀ t k c g',
     threads g !! t = Some (AtDelete k c) → step g (Move t) = Some g' →
     not_in_flight g' k) ∧
  (∀ t k g',
     not_in_flight g k → threads g !! t = Some (AtLock k) →
     step g (Move t) = Some g' →
     ∃ c', threads g' !! t = Some (AtFn k c') ∧ calls g !! c' = None ∧
           ¬ executed g' c' ∧
           ∃ g'', step g' (Move t) = Some g'' ∧
                  threads g'' !! t = Some (InFn k c')) ∧
  (∀ t k c r,
     threads g !! t = Some (InFn k c) →
     ∃ g', step g (FnReturns t r) = Some g' ∧
           threads g' !! t = Some (AtDone k c) ∧
           history g' = history g ++ [(t, k, c, r)]) ∧
  (∀ t p,
     threads g !! t = Some p →
     (∃ k c, p = InFn k c) ∨ (∃ k c r, p = Returned k c r) ∨
     (∃ g' p', step g (Move t) = Some g' ∧ threads g' !! t = Some p' ∧
               (steps_left p' < steps_left p)%nat) ∨
     (∃ k c t0 p0, p = AtWait k c ∧ t0 ≠ t ∧ threads g !! t0 = Some p0 ∧
                   pc_call p0 = Some (k, c) ∧ before_done p0 = true ∧
                   step g (Move t) = None)) ∧
  (∀ t k c cl,
     threads g !! t = Some (AtWait k c) → calls g !! c = Some cl → wg cl = 0 →
     (∃ g1 g2 t0,
        step g (Move t) = Some g1 ∧ step g1 (Move t) = Some g2 ∧
        threads g2 !! t = Some (Returned k c (val cl, err cl)) ∧
        (t0, k, c, (val cl, err cl)) ∈ history g) ∧
     (∀ acts g',
        run g acts = Some g' → Forall (fun a => action_tid a ≠ t) acts →
        ∃ g1 g2,
          step g' (Move t) = Some g1 ∧ step g1 (Move t) = Some g2 ∧
          threads g2 !! t = Some (Returned k c (val cl, err cl)))) ∧
  (∀ t k c r,
     threads g !! t = Some (InFn k c) →
     ∃ g', run g [FnReturns t r; Move t; Move t; Move t] = Some g' ∧
           threads g' !! t = Some (Returned k c r) ∧
           not_in_flight g' k ∧
           ∀ t', threads g !! t' = Some (AtWait k c) →
                 ∃ g'', run g' [Move t'; Move t'] = Some g'' ∧
                        threads g'' !! t' = Some (Returned k c r)) ∧
  (∀ a g',
     step g a = Some g' →
     (∀ t p, threads g !! t = Some p → action_tid a ≠ t →
             threads g' !! t = Some p) ∧
     (∀ c cl, calls g !! c = Some cl → wg cl = 0 → calls g' !! c = Some cl)).
Proof.
  intros Hreach. destruct (reachable_inv g Hreach) as [kf Hinv].
  pose proof (reachable_wg_inv g Hreach) as Hwg.
  split; [|split; [|split; [|split; [|split; [|split; [|split; [|split;
    [|split; [|split]]]]]]]]].
  - intros t1 t2 k c1 c2 Ht1 Ht2.
    destruct (inv_owner_map kf g Hinv t1 _ k c1 Ht1) as (mp1 & Hm1 & Hk1); [done|].
    destruct (inv_owner_map kf g Hinv t2 _ k c2 Ht2) as (mp2 & Hm2 & Hk2); [done|].
    assert (c1 = c2) as -> by congruence. split; [|done].
    by eapply (inv_owner_unique kf g Hinv t1 t2 _ _ k k c2).
  - intros t0 t k c g' Ht0 Ht. simpl. unfold move. rewrite Ht.
    destruct (inv_owner_map kf g Hinv t0 _ k c Ht0) as (mp & Hm & Hk); [done|].
    intros [= <-]. unfold enter. rewrite Hm. simpl. rewrite Hk. simpl.
    by rewrite lookup_insert_eq.
  - intros a g' t p k c. apply step_keeps_call.
  - intros t k c r Ht. destruct (inv_returned kf g Hinv _ _ _ _ Ht) as [t0 Hin].
    exists t0. split; [done|]. intros t1 k1 r1 Hin1.
    by eapply (inv_history_unique kf g Hinv).
  - intros t k c g' Ht. simpl. unfold move. rewrite Ht. intros [= <-].
    intros mp'. simpl. destruct (m g) as [mp|]; simpl; [|done].
    intros [= <-]. apply lookup_delete_eq.
  - intros t k g' Hnone Ht Hstep.
    assert (default ∅ (m g) !! k = None) as Hk.
    { destruct (m g) as [mp|] eqn:Hm; simpl; [by apply Hnone|apply lookup_empty]. }
    assert (reachable g') as Hreach' by (by eapply reachable_step).
    destruct (reachable_inv g' Hreach') as [kf' Hinv'].
    revert Hstep Hinv'. simpl. unfold move. rewrite Ht. intros [= <-].
    unfold enter. rewrite Hk. intros Hinv'.
    exists (fresh (dom (calls g))). simpl. rewrite lookup_insert_eq.
    split; [done|]. split; [apply not_elem_of_dom, is_fresh|]. split.
    + intros (t0 & k0 & r0 & Hin).
      destruct (inv_history kf' _ Hinv' _ _ _ _ Hin) as (_ & _ & H3).
      specialize (H3 t (AtFn k (fresh (dom (calls g)))) k). simpl in H3.
      rewrite lookup_insert_eq in H3. by specialize (H3 eq_refl eq_refl).
    + eexists. split; [done|]. simpl. by rewrite lookup_insert_eq.
  - intros t k c r Ht. simpl. unfold fn_returns. rewrite Ht.
    eexists. split; [done|]. simpl. by rewrite lookup_insert_eq.
  - intros t p Ht. by apply (step_progress kf).
  - intros t k c cl Ht Hcl Hz. split; [by apply (waiter_returns kf)|].
    intros acts g' Hrun Hothers.
    pose proof (run_reachable g acts g' Hreach Hrun) as Hreach'.
    destruct (reachable_inv g' Hreach') as [kf' Hinv'].
    pose proof (run_others g acts g' t _ Hrun Hothers Ht) as Ht'.
    pose proof (run_keeps_done_call g acts g' c cl Hreach Hrun Hcl Hz) as Hcl'.
    destruct (waiter_returns kf' g' t k c cl Hinv' Ht' Hcl' Hz)
      as (g1 & g2 & _ & H1 & H2 & H3 & _).
    by exists g1, g2.
  - intros t k c r Ht. by apply owner_and_waiters_return.
  - intros a g' Hstep. split.
    + intros t p Ht Hne. by apply (step_other_thread g a).
    + intros c cl Hcl Hz. by apply (step_keeps_done_call g a).
Qed.

End singleflight_properties.

(** C5 at a concrete run: goroutine 1 arrives while the [fn] of goroutine 0
    is running, and both return [("v", nil)], the pair of the one execution
    recorded; goroutine 2 arrives after the entry is deleted and is inside
    its own [fn] at the end.  Goroutine 3 arrives then and waits on the call
    1: it cannot move while goroutine 2 has not called [c.wg.Done()]; when
    that [fn] returns [(nil, "e")], goroutine 2 returns it and goroutine 3
    can return it too, also after goroutine 2 has deleted the entry and
    returned. *)
Lemma singleflight_Do_coalesces_witness :
  singleflight.reachable examples.flight_end ∧
  singleflight.threads examples.flight_end !! 0%nat
    = Some (singleflight.Returned "k" 0%nat (Some "v", None)) ∧
  singleflight.threads examples.flight_end !! 1%nat
    = Some (singleflight.Returned "k" 0%nat (Some "v", None)) ∧
  (∃ t0, (t0, "k", 0%nat, (Some "v", None)) ∈ singleflight.history examples.flight_end ∧
         ∀ t1 k1 r1,
           (t1, k1, 0%nat, r1) ∈ singleflight.history examples.flight_end →
           t1 = t0 ∧ k1 = "k" ∧ r1 = (Some "v", None)) ∧
  singleflight.threads examples.flight_end !! 2%nat
    = Some (singleflight.InFn "k" 1%nat) ∧
  (singleflight.reachable examples.flight_wait ∧
   singleflight.threads examples.flight_wait !! 3%nat
     = Some (singleflight.AtWait "k" 1%nat) ∧
   singleflight.step examples.flight_wait (singleflight.Move 3%nat) = None ∧
   (∃ t0 p0, t0 ≠ 3%nat ∧
             singleflight.threads examples.flight_wait !! t0 = Some p0 ∧
             singleflight.pc_call p0 = Some ("k", 1%nat) ∧
             singleflight.before_done p0 = true) ∧
   (∃ g', singleflight.run examples.flight_wait
            [singleflight.FnReturns 2%nat (None, Some "e"); singleflight.Move 2%nat;
             singleflight.Move 2%nat; singleflight.Move 2%nat] = Some g' ∧
          singleflight.threads g' !! 2%nat
            = Some (singleflight.Returned "k" 1%nat (None, Some "e")) ∧
          ∃ g'', singleflight.run g' [singleflight.Move 3%nat; singleflight.Move 3%nat]
                   = Some g'' ∧
                 singleflight.threads g'' !! 3%nat
                   = Some (singleflight.Returned "k" 1%nat (None, Some "e")))) ∧
  (singleflight.reachable examples.flight_done ∧
   singleflight.threads examples.flight_done !! 3%nat
     = Some (singleflight.AtWait "k" 1%nat) ∧
   singleflight.calls examples.flight_done !! 1%nat
     = Some (singleflight.mkCall 0 None (Some "e")) ∧
   (∃ g1 g2 t0,
      singleflight.step examples.flight_done (singleflight.Move 3%nat) = Some g1 ∧
      singleflight.step g1 (singleflight.Move 3%nat) = Some g2 ∧
      singleflight.threads g2 !! 3%nat
        = Some (singleflight.Returned "k" 1%nat (None, Some "e")) ∧
      (t0, "k", 1%nat, (None, Some "e")) ∈ singleflight.history examples.flight_done) ∧
   (∃ g' g1 g2,
      singleflight.run examples.flight_done
        [singleflight.Move 2%nat; singleflight.Move 2%nat] = Some g' ∧
      singleflight.step g' (singleflight.Move 3%nat) = Some g1 ∧
      singleflight.step g1 (singleflight.Move 3%nat) = Some g2 ∧
      singleflight.threads g2 !! 3%nat
        = Some (singleflight.Returned "k" 1%nat (None, Some "e")))).
Proof.
  assert (singleflight.reachable examples.flight_end) as Hreach.
  { apply (run_reachable singleflight.zero examples.flight_schedule);
      [apply singleflight.reachable_zero|vm_compute; reflexivity]. }
  assert (singleflight.reachable examples.flight_wait) as Hreach_w.
  { apply (run_reachable singleflight.zero
             (examples.flight_schedule ++ examples.flight_schedule_wait));
      [apply singleflight.reachable_zero|vm_compute; reflexivity]. }
  assert (singleflight.reachable examples.flight_done) as Hreach_d.
  { apply (run_reachable singleflight.zero
             (examples.flight_schedule ++ examples.flight_schedule_wait
              ++ examples.flight_schedule_done));
      [apply singleflight.reachable_zero|vm_compute; reflexivity]. }
  assert (singleflight.threads examples.flight_wait !! 3%nat
          = Some (singleflight.AtWait "k" 1%nat)) as Hw3
    by (vm_compute; reflexivity).
  assert (singleflight.threads examples.flight_wait !! 2%nat
          = Some (singleflight.InFn "k" 1%nat)) as Hw2
    by (vm_compute; reflexivity).
  assert (singleflight.step examples.flight_wait (singleflight.Move 3%nat) = None)
    as Hblocked by (vm_compute; reflexivity).
  assert (singleflight.threads examples.flight_done !! 3%nat
          = Some (singleflight.AtWait "k" 1%nat)) as Hd3
    by (vm_compute; reflexivity).
  assert (singleflight.calls examples.flight_done !! 1%nat
          = Some (singleflight.mkCall 0 None (Some "e"))) as Hd1
    by (vm_compute; reflexivity).
  destruct (singleflight_Do_coalesces examples.flight_wait Hreach_w)
    as (_ & _ & _ & _ & _ & _ & _ & Hprog & _ & Hfinish & _).
  destruct (singleflight_Do_coalesces examples.flight_done Hreach_d)
    as (_ & _ & _ & _ & _ & _ & _ & _ & Hwaiter & _ & _).
  assert (singleflight.threads examples.flight_end !! 1%nat
          = Some (singleflight.Returned "k" 0%nat (Some "v", None))) as H1
    by (vm_compute; reflexivity).
  destruct (singleflight_Do_coalesces examples.flight_end Hreach)
    as (_ & _ & _ & Hret & _).
  split; [exact Hreach|]. split; [vm_compute; reflexivity|]. split; [exact H1|].
  split; [exact (Hret _ _ _ _ H1)|]. split; [vm_compute; reflexivity|].
  split.
  - split; [exact Hreach_w|]. split; [exact Hw3|]. split; [exact Hblocked|].
    split.
    + destruct (Hprog _ _ Hw3)
        as [(k & c & Hp)|[(k & c & r & Hp)|[(g' & p' & Hstep & _)|Hwait]]].
      * discriminate Hp.
      * discriminate Hp.
      * rewrite Hblocked in Hstep. discriminate Hstep.
      * destruct Hwait as (k & c & t0 & p0 & Hp & Hne & Ht0 & Hpc0 & Hbd0 & _).
        injection Hp as <- <-. by exists t0, p0.
    + destruct (Hfinish _ _ _ (None, Some "e") Hw2) as (g' & Hrun & Ht2 & _ & Hall).
      exists g'. split; [exact Hrun|]. split; [exact Ht2|]. exact (Hall _ Hw3).
  - split; [exact Hreach_d|]. split; [exact Hd3|]. split; [exact Hd1|].
    destruct (Hwaiter _ _ _ _ Hd3 Hd1 eq_refl) as [Hnow Hlater].
    split; [exact Hnow|].
    assert (∃ g', singleflight.run examples.flight_done
                    [singleflight.Move 2%nat; singleflight.Move 2%nat] = Some g')
      as [g' Hrun].
    { destruct (singleflight.run examples.flight_done
                  [singleflight.Move 2%nat; singleflight.Move 2%nat]) as [g'|] eqn:Hrun;
        [by exists g'|].
      vm_compute in Hrun. discriminate Hrun. }
    destruct (Hlater _ _ Hrun) as (g1 & g2 & H1' & H2' & H3').
    { repeat constructor; simpl; discriminate. }
    by exists g', g1, g2.
Defined.
